(** * Face verification microservice: region growing, overlap resolution,
      quality gates, embedding parsing and cosine similarity

    A shallow embedding of [src/services/faceDetection.js],
    [src/services/embeddingService.js] and [src/utils/similarity.js], with
    [generateEmbedding] of [src/services/modelService.js] and the status
    codes of [src/routes/faceRoutes.js].

    Numbers.  JavaScript has a single number type, the IEEE 754 double.
    - Pixel coordinates, pixel intensities, counts, image dimensions and
      byte lengths are integers far below 2^53, on which double arithmetic
      is exact: they are [Z].
    - Ratios and scores of candidate regions are exact rationals, extended
      with the infinities and NaN that a division by zero produces
      ([JsNum]); the rounding of doubles is not modelled for them.
    - Vector components, similarity values and image statistics are
      binary64 floats ([PrimFloat.float]), with rounding, overflow and NaN
      as in the engine.  The similarity formula is written over a class
      of number operations, instantiated with binary64.

    Failure.  [throw new Error(msg)] is [Err msg]; a [try]/[catch] that
    rethrows with a prefix is [rethrow].  *)

From Stdlib Require Import ZArith QArith Qround Floats Bool Ascii String Lia Lra.
From Stdlib Require Import Permutation Reals.
From stdpp Require Import base decidable option list strings gmap sets pretty
  sorting.

#[local] Open Scope Z_scope.

(** ** Results of fallible calls *)

Inductive Result (A : Type) : Type :=
| Ok (a : A)
| Err (message : string).
Arguments Ok {A} a.
Arguments Err {A} message.

Definition rbind {A B} (r : Result A) (k : A → Result B) : Result B :=
  match r with
  | Ok a => k a
  | Err m => Err m
  end.

(** [catch (error) { throw new Error(prefix + error.message) }] *)
Definition rethrow {A} (prefix : string) (r : Result A) : Result A :=
  match r with
  | Ok a => Ok a
  | Err m => Err (prefix ++ m)%string
  end.

Definition isOk {A} (r : Result A) : bool :=
  match r with Ok _ => true | Err _ => false end.

(** ** Region growing ([growRegion]) *)

(** A raw buffer is the list of its bytes; [buffer[index]] is [undefined]
    outside of it. *)
Definition bufferAt (buffer : list Z) (index : Z) : option Z :=
  if index <? 0 then None else buffer !! Z.to_nat index.

(** [buffer[index] < threshold]: a comparison with [undefined] is false. *)
Definition bufferBelow (buffer : list Z) (index threshold : Z) : bool :=
  match bufferAt buffer index with
  | Some v => v <? threshold
  | None => false
  end.

(** The running [region] object of [growRegion]. *)
Record Grown := mkGrown {
  minX : Z; maxX : Z; minY : Z; maxY : Z; gsize : Z
}.

(** The eight [stack.push] calls of one admitted pixel, in program order. *)
Definition neighbours (x y : Z) : list (Z * Z) :=
  [ (x - 1, y - 1); (x, y - 1); (x + 1, y - 1);
    (x - 1, y);                 (x + 1, y);
    (x - 1, y + 1); (x, y + 1); (x + 1, y + 1) ].

Definition admitPixel (region : Grown) (x y : Z) : Grown :=
  {| gsize := gsize region + 1;
     minX := Z.min (minX region) x;
     maxX := Z.max (maxX region) x;
     minY := Z.min (minY region) y;
     maxY := Z.max (maxY region) y |}.

(** The [while (stack.length > 0)] loop.  The stack is a list whose head is
    the top ([stack.pop()]); [visited] is the [Set] shared with the caller.
    [fuel] bounds the number of iterations; [None] means it ran out. *)
Fixpoint growLoop (fuel : nat) (buffer : list Z) (width height threshold : Z)
    (stack : list (Z * Z)) (visited : gset Z) (region : Grown)
    : option (Grown * gset Z) :=
  match stack with
  | [] => Some (region, visited)
  | (x, y) :: rest =>
    match fuel with
    | O => None
    | S fuel' =>
      let index := y * width + x in
      if bool_decide (index ∈ visited)
         || (x <? 0) || (x >=? width) || (y <? 0) || (y >=? height)
      then growLoop fuel' buffer width height threshold rest visited region
      else if bufferBelow buffer index threshold
      then growLoop fuel' buffer width height threshold rest visited region
      else growLoop fuel' buffer width height threshold
             (rev (neighbours x y) ++ rest)
             ({[ index ]} ∪ visited)
             (admitPixel region x y)
    end
  end.

(** Every admitted pixel is new and inside the image, and each admission
    pushes eight coordinates: [1 + 8 * width * height] pops always suffice
    ([growLoop_total] below), so the loop is run with that much fuel. *)
Definition growFuel (width height : Z) : nat :=
  S (8 * Z.to_nat (width * height)).

Definition growStart (startX startY : Z) : Grown :=
  {| minX := startX; maxX := startX; minY := startY; maxY := startY;
     gsize := 0 |}.

(** [growRegion] returns the region; the updated [visited] set is returned
    with it, since the caller's set is mutated.  The [default] is never
    taken ([growRegion_runs]). *)
Definition growRegion (buffer : list Z) (width height startX startY : Z)
    (visited : gset Z) (threshold : Z) : Grown * gset Z :=
  default (growStart startX startY, visited)
    (growLoop (growFuel width height) buffer width height threshold
       [(startX, startY)] visited (growStart startX startY)).

(** The synthetic test images: a solid [w]×[h] rectangle of intensity 200
    with top-left corner [(x0, y0)] on a background of 0, row-major; the
    square is the case [w = h = side]. *)
Definition inRectangle (x0 y0 w h x y : Z) : bool :=
  (x0 <=? x) && (x <? x0 + w) && (y0 <=? y) && (y <? y0 + h).

(** [tabulate n i f] is [[f i; f (i+1); ...; f (i+n-1)]]. *)
Fixpoint tabulate (n : nat) (i : Z) (f : Z → Z) : list Z :=
  match n with
  | O => []
  | S n' => f i :: tabulate n' (i + 1) f
  end.

Definition rectangleBuffer (width height x0 y0 w h : Z) : list Z :=
  tabulate (Z.to_nat (width * height)) 0
    (λ i, if inRectangle x0 y0 w h (i mod width) (i / width) then 200 else 0).

Definition squareBuffer (width height x0 y0 side : Z) : list Z :=
  rectangleBuffer width height x0 y0 side side.

(** ** Numbers that a division can make non-finite *)

Inductive JsNum : Type :=
| Fin (q : Q)
| PosInf
| NegInf
| NaN.

Definition Qltb (a b : Q) : bool := negb (Qle_bool b a).

(** [a / b] on finite operands: [x / 0] is [±Infinity], [0 / 0] is [NaN]. *)
Definition jsDiv (a b : Q) : JsNum :=
  if Qeq_bool b 0 then
    match (a ?= 0)%Q with
    | Gt => PosInf
    | Lt => NegInf
    | Eq => NaN
    end
  else Fin (a / b).

(** [a > b] and [a < b] against a finite bound; false on [NaN]. *)
Definition jsGt (a : JsNum) (b : Q) : bool :=
  match a with
  | Fin q => Qltb b q
  | PosInf => true
  | NegInf | NaN => false
  end.

Definition jsLt (a : JsNum) (b : Q) : bool :=
  match a with
  | Fin q => Qltb q b
  | NegInf => true
  | PosInf | NaN => false
  end.

(** ** Candidate regions ([findFaceRegions]) *)

(** The region objects pushed by step 1; [faceScore] is absent ([None])
    until step 3 assigns it. *)
Record Region := mkRegion {
  region_x : Z;
  region_y : Z;
  region_width : Z;
  region_height : Z;
  region_size : Z;
  region_centerX : Q;
  region_centerY : Q;
  region_density : JsNum;
  region_faceScore : option Q
}.

(** [this.minFaceSize = 0.1]; [Math.floor(width * this.minFaceSize)]. *)
Definition minFaceSize : Q := 1 # 10.

Definition minRegionSizeOf (width : Z) : Z :=
  Qfloor (inject_Z width * minFaceSize).

(** The object literal of [regions.push({...})]. *)
Definition candidateOf (region : Grown) : Region :=
  {| region_x := minX region;
     region_y := minY region;
     region_width := maxX region - minX region;
     region_height := maxY region - minY region;
     region_size := gsize region;
     region_centerX := inject_Z (minX region + maxX region) / 2;
     region_centerY := inject_Z (minY region + maxY region) / 2;
     region_density :=
       jsDiv (inject_Z (gsize region))
             (inject_Z ((maxX region - minX region)
                        * (maxY region - minY region)));
     region_faceScore := None |}.

(** [region.size > minRegionSize * minRegionSize * 0.08] *)
Definition largeEnough (minRegionSize : Z) (region : Grown) : bool :=
  Qltb (inject_Z (minRegionSize * minRegionSize) * (8 # 100))
       (inject_Z (gsize region)).

(** The values of [for (let v = lo; v < hi; v += 8)]. *)
Definition strideRange (lo hi : Z) : list Z :=
  (λ k, lo + 8 * k) <$> seqZ 0 ((hi - lo + 7) / 8).

(** One iteration of the body of the two nested seeding loops; the state
    is the shared [visited] set and the [regions] array. *)
Definition seedStep (edgeBuffer : list Z) (width height : Z)
    (edgeThreshold regionThreshold minRegionSize : Z)
    (state : gset Z * list Region) (seed : Z * Z)
    : gset Z * list Region :=
  let '(visited, regions) := state in
  let '(x, y) := seed in
  let index := y * width + x in
  if bool_decide (index ∈ visited)
     || bufferBelow edgeBuffer index edgeThreshold
  then (visited, regions)
  else
    let '(region, visited') :=
      growRegion edgeBuffer width height x y visited regionThreshold in
    (visited',
     if largeEnough minRegionSize region
     then regions ++ [candidateOf region]
     else regions).

(** Step 1 of [findFaceRegions]: the [regions] array after the scan. *)
Definition seedRegions (edgeBuffer : list Z) (width height : Z)
    (edgeThreshold regionThreshold : Z) : list Region :=
  let minRegionSize := minRegionSizeOf width in
  let seeds :=
    y ← strideRange minRegionSize (height - minRegionSize);
    x ← strideRange minRegionSize (width - minRegionSize);
    [(x, y)] in
  snd (foldl (seedStep edgeBuffer width height edgeThreshold
                regionThreshold minRegionSize)
         (∅, []) seeds).

(** Step 2: the predicate of [regions.filter]. *)
Definition geometricOk (minRegionSize : Z) (region : Region) : bool :=
  let width := inject_Z (region_width region) in
  let height := inject_Z (region_height region) in
  let aspectRatio := jsDiv width height in
  let sizeRatio :=
    jsDiv (inject_Z (Z.min (region_width region) (region_height region)))
          (inject_Z (Z.max (region_width region) (region_height region))) in
  jsGt aspectRatio (6 # 10)
  && jsLt aspectRatio (17 # 10)
  && jsGt sizeRatio (5 # 10)
  && Qltb (inject_Z minRegionSize * (8 # 10)) width
  && Qltb (inject_Z minRegionSize * (8 # 10)) height
  && jsGt (region_density region) (1 # 10)
  && jsLt (region_density region) (8 # 10).

(** ** Overlap resolution ([removeOverlappingRegions]) *)

Definition calculateOverlapArea (region1 region2 : Region) : Z :=
  let left := Z.max (region_x region1) (region_x region2) in
  let right := Z.min (region_x region1 + region_width region1)
                     (region_x region2 + region_width region2) in
  let top := Z.max (region_y region1) (region_y region2) in
  let bottom := Z.min (region_y region1 + region_height region1)
                      (region_y region2 + region_height region2) in
  if (left <? right) && (top <? bottom)
  then (right - left) * (bottom - top)
  else 0.

(** [region.faceScore || 0] *)
Definition scoreOrZero (region : Region) : Q :=
  default 0%Q (region_faceScore region).

(** The comparator [(a, b) => (b.faceScore || 0) - (a.faceScore || 0)]. *)
Definition byScoreDescending (a b : Region) : Q :=
  (scoreOrZero b - scoreOrZero a)%Q.

(** [Array.prototype.sort] is stable: an element moves in front of another
    only when the comparator says so.  Insertion from the right gives that
    order. *)
Fixpoint insertSorted {A} (compare : A → A → Q) (a : A) (sorted : list A)
    : list A :=
  match sorted with
  | [] => [a]
  | b :: rest =>
    if Qltb 0 (compare a b) then b :: insertSorted compare a rest
    else a :: sorted
  end.

Definition arraySort {A} (compare : A → A → Q) (array : list A) : list A :=
  foldr (insertSorted compare) [] array.

Definition regionArea (region : Region) : Z :=
  region_width region * region_height region.

(** The test inside the inner loop: [overlapArea / minArea > 0.3]. *)
Definition overlapsTooMuch (region existing : Region) : bool :=
  let overlapArea := calculateOverlapArea region existing in
  let minArea := Z.min (regionArea region) (regionArea existing) in
  jsGt (jsDiv (inject_Z overlapArea) (inject_Z minArea)) (3 # 10).

(** One iteration of [for (const region of sortedRegions)]. *)
Definition acceptUnlessOverlap (finalRegions : list Region) (region : Region)
    : list Region :=
  if existsb (overlapsTooMuch region) finalRegions
  then finalRegions
  else finalRegions ++ [region].

Definition removeOverlappingRegions (regions : list Region) : list Region :=
  if (length regions <=? 1)%nat then regions
  else foldl acceptUnlessOverlap [] (arraySort byScoreDescending regions).

(** Steps 2 to 4 of [findFaceRegions].  The five feature sub-scores of
    [calculateFaceScore] enter only through their sum, which is a
    parameter here. *)
Section FindFaceRegions.
Variable calculateFaceScore : list Z → Z → Z → Region → Q.

(** Step 3: [region.faceScore = faceScore] for the regions scoring
    above 0.3. *)
Definition faceValidate (edgeBuffer : list Z) (width height : Z)
    (region : Region) : option Region :=
  let faceScore := calculateFaceScore edgeBuffer width height region in
  if Qltb (3 # 10) faceScore
  then Some {| region_x := region_x region;
               region_y := region_y region;
               region_width := region_width region;
               region_height := region_height region;
               region_size := region_size region;
               region_centerX := region_centerX region;
               region_centerY := region_centerY region;
               region_density := region_density region;
               region_faceScore := Some faceScore |}
  else None.

Definition findFaceRegions (edgeBuffer : list Z) (width height : Z)
    (edgeThreshold regionThreshold : Z) : list Region :=
  let regions :=
    seedRegions edgeBuffer width height edgeThreshold regionThreshold in
  let minRegionSize := minRegionSizeOf width in
  let geometricFiltered :=
    filter (λ r, geometricOk minRegionSize r) regions in
  let faceValidated :=
    omap (faceValidate edgeBuffer width height) geometricFiltered in
  removeOverlappingRegions faceValidated.
End FindFaceRegions.

(** ** Strings of error messages *)

#[local] Open Scope string_scope.
#[local] Open Scope Z_scope.

(** [haystack.includes(needle)] *)
Fixpoint includes (haystack needle : string) : bool :=
  String.prefix needle haystack
  || match haystack with
     | EmptyString => false
     | String _ rest => includes rest needle
     end.

(** [s.toLowerCase()] on the ASCII letters. *)
Definition lowerAscii (c : ascii) : ascii :=
  let n := nat_of_ascii c in
  if (65 <=? n)%nat && (n <=? 90)%nat then ascii_of_nat (n + 32) else c.

Fixpoint toLowerCase (s : string) : string :=
  match s with
  | EmptyString => EmptyString
  | String c rest => String (lowerAscii c) (toLowerCase rest)
  end.

Definition doubleQuote : string := String (ascii_of_nat 34) EmptyString.

(** [`${n}`] for an integer, and for a possibly [undefined] one. *)
Definition showZ (n : Z) : string := pretty n.

Definition showOptZ (n : option Z) : string :=
  match n with
  | Some n => showZ n
  | None => "undefined"
  end.

(** [x.toFixed(digits)] for a finite non-negative [x]: the closest decimal
    with [digits] fraction digits, ties upwards. *)
Definition padZeros (len : nat) (s : string) : string :=
  string_of_list_ascii
    (replicate (len - String.length s) "0"%char ++ list_ascii_of_string s)%list.

Definition toFixedQ (x : Q) (digits : nat) : string :=
  let scaled := Qfloor (x * inject_Z (10 ^ Z.of_nat digits) + (1 # 2)) in
  let all := padZeros (S digits) (showZ scaled) in
  let cut := (String.length all - digits)%nat in
  match digits with
  | O => all
  | _ => substring 0 cut all +:+ "." +:+ substring cut digits all
  end.

Definition toFixed (x : JsNum) (digits : nat) : string :=
  match x with
  | Fin q =>
    if Qltb q 0 then "-" +:+ toFixedQ (- q) digits else toFixedQ q digits
  | PosInf => "Infinity"
  | NegInf => "-Infinity"
  | NaN => "NaN"
  end.

(** ** The image codec ([sharp]) and the calls made to it *)

(** What [sharp(buffer).metadata()] resolves to; a field the decoder could
    not determine is [undefined] ([None]). *)
Record Metadata := mkMetadata {
  meta_width : option Z;
  meta_height : option Z;
  meta_format : option string
}.

(** The four pipelines the service builds on an image buffer:
    - [sharpMetadata]: [.metadata()];
    - [sharpGreyscale w h]: [.resize(w, h).greyscale().raw().toBuffer()];
    - [sharpEdges w h]: [.resize(w, h).greyscale().convolve(K).raw()
      .toBuffer()] with the 3×3 kernel [K = [-1,-1,-1,-1,8,-1,-1,-1,-1]];
    - [sharpCover w h]: [.resize(w, h, {fit: "cover", position: "center"})
      .removeAlpha().raw().toBuffer()].
    Each can reject. *)
Class Sharp := {
  sharpMetadata : list Z → Result Metadata;
  sharpGreyscale : list Z → Z → Z → Result (list Z);
  sharpEdges : list Z → Z → Z → Result (list Z);
  sharpCover : list Z → Z → Z → Result (list Z)
}.

Inductive CodecCall : Type :=
| CallMetadata
| CallGreyscale (w h : Z)
| CallEdges (w h : Z)
| CallCover (w h : Z).

(** Reading pixels: every call except [.metadata()] decodes the image. *)
Definition readsPixels (call : CodecCall) : bool :=
  match call with
  | CallMetadata => false
  | _ => true
  end.

(** An [async] method: the codec calls it awaited, in order, and how it
    settled. *)
Definition Action (A : Type) : Type := list CodecCall * Result A.

Definition resolve {A} (a : A) : Action A := ([], Ok a).
Definition reject {A} (message : string) : Action A := ([], Err message).

Definition andThen {A B} (m : Action A) (k : A → Action B) : Action B :=
  match m with
  | (calls, Ok a) => let '(calls', r) := k a in ((calls ++ calls')%list, r)
  | (calls, Err message) => (calls, Err message)
  end.

Notation "'let*' x ':=' m 'in' k" := (andThen m (λ x, k))
  (at level 10, x pattern, m at level 100, k at level 200, only parsing).

(** [try { body } catch (error) { throw handler(error.message) }] *)
Definition tryCatch {A} (body : Action A) (handler : string → string)
    : Action A :=
  match body with
  | (calls, Ok a) => (calls, Ok a)
  | (calls, Err message) => (calls, Err (handler message))
  end.

Definition await {A} (call : CodecCall) (r : Result A) : Action A :=
  ([call], r).

Definition throwIf (failed : bool) (message : string) : Action unit :=
  if failed then reject message else resolve tt.

Definition calls {A} (m : Action A) : list CodecCall := fst m.
Definition outcome {A} (m : Action A) : Result A := snd m.

(** A codec that answers every call with fixed data, for examples. *)
Definition fixedSharp (metadata : Metadata) (grey edges cover : list Z)
    : Sharp :=
  {| sharpMetadata := λ _, Ok metadata;
     sharpGreyscale := λ _ _ _, Ok grey;
     sharpEdges := λ _ _ _, Ok edges;
     sharpCover := λ _ _ _, Ok cover |}.

(** ** Pixel statistics, lighting and blur (binary64 arithmetic) *)

(** The double nearest to an integer (exact below 2^53). *)
Definition floatOfZ (z : Z) : float :=
  SF2Prim (binary_normalize prec emax z 0 false).

(** [buffer[index]] as a number operand: [undefined] becomes [NaN]. *)
Definition bufferNumber (buffer : list Z) (index : Z) : float :=
  match bufferAt buffer index with
  | Some v => floatOfZ v
  | None => nan
  end.

Record ImageStats := mkImageStats { stats_mean : float; stats_std : float }.

Definition pixelStats (pixels : list Z) : ImageStats :=
  let sum := foldl (λ acc p, acc + floatOfZ p)%float 0%float pixels in
  let sumSquares :=
    foldl (λ acc p, acc + floatOfZ p * floatOfZ p)%float 0%float pixels in
  let n := floatOfZ (Z.of_nat (length pixels)) in
  let mean := (sum / n)%float in
  let variance := (sumSquares / n - mean * mean)%float in
  {| stats_mean := mean; stats_std := PrimFloat.sqrt variance |}.

Definition laplacianKernel : list (list float) :=
  [ [0; -1; 0]; [-1; 4; -1]; [0; -1; 0] ]%float.

Definition kernelAt (ky kx : Z) : float :=
  default nan (row ← laplacianKernel !! Z.to_nat (ky + 1);
               row !! Z.to_nat (kx + 1)).

Definition calculateLaplacianVariance (buffer : list Z) (width height : Z)
    : float :=
  let offsets := [-1; 0; 1] in
  let response (x y : Z) : float :=
    foldl (λ sum ky,
      foldl (λ sum kx,
        let pixelIndex := (y + ky) * width + (x + kx) in
        (sum + bufferNumber buffer pixelIndex * kernelAt ky kx)%float)
        sum offsets) 0%float offsets in
  let '(variance, count) :=
    foldl (λ acc y,
      foldl (λ '(variance, count) x,
        let sum := response x y in
        ((variance + sum * sum)%float, count + 1))
        acc (seqZ 1 (width - 2)))
      (0%float, 0) (seqZ 1 (height - 2)) in
  (variance / floatOfZ count)%float.

Definition blurThreshold : float := 100%float.

Section Pipeline.
Context `{Sharp}.
Variable calculateFaceScore : list Z → Z → Z → Region → Q.

(** *** [analyzeImageStats] *)
Definition analyzeImageStats (imageBuffer : list Z) : Action ImageStats :=
  tryCatch
    (let* resizedBuffer :=
       await (CallGreyscale 224 224) (sharpGreyscale imageBuffer 224 224) in
     resolve (pixelStats resizedBuffer))
    (λ message, "Failed to analyze image statistics: " +:+ message).

(** *** [validateLightingConditions] *)
Definition validateLightingConditions (brightness contrast : float)
    : Action unit :=
  let minBrightness := 30%float in
  let maxBrightness := 200%float in
  let minContrast := 15%float in
  let* _ := throwIf (brightness <? minBrightness)%float
    "Image too dark - poor lighting conditions detected. Please ensure adequate lighting and try again." in
  let* _ := throwIf (maxBrightness <? brightness)%float
    "Image too bright - overexposed image detected. Please reduce lighting or avoid direct flash." in
  throwIf (contrast <? minContrast)%float
    "Low contrast image - face features may not be clear. Please ensure good lighting with clear shadows.".

(** *** [validateImageSharpness] *)
Definition validateImageSharpness (imageBuffer : list Z) : Action unit :=
  tryCatch
    (let* grayBuffer :=
       await (CallGreyscale 300 300) (sharpGreyscale imageBuffer 300 300) in
     let blurVariance := calculateLaplacianVariance grayBuffer 300 300 in
     throwIf (blurVariance <? blurThreshold)%float
       "Image appears blurry or out of focus. Please ensure the camera is focused and the subject is still.")
    (λ message,
       if includes message "blurry" then message
       else "Blur detection failed: " +:+ message).

(** *** [detectFacesInImage] *)

Definition edgeThresholds : list Z := [40; 30; 20].
Definition regionThresholds : list Z := [25; 20; 15].
Definition maxFaces : nat := 1.

(** [this.edgeThresholds[i]]: [undefined] past the end, which every
    comparison of [findFaceRegions] treats as false; the loop condition
    keeps [i] inside [edgeThresholds], and both arrays have three
    entries, so the default is never read. *)
Definition thresholdAt (thresholds : list Z) (i : nat) : Z :=
  default 0 (thresholds !! i).

(** The [for] loop: [i] counts up while [i < edgeThresholds.length] and
    [faceRegions] is empty; [remaining] is [edgeThresholds.length - i].
    The final [faceRegions] and the final [i], the number of passes that
    ran. *)
Fixpoint detectionPasses (edgeBuffer : list Z) (remaining i : nat)
    (faceRegions : list Region) : list Region * nat :=
  match remaining with
  | O => (faceRegions, i)
  | S remaining' =>
    if (length faceRegions =? 0)%nat then
      detectionPasses edgeBuffer remaining' (S i)
        (findFaceRegions calculateFaceScore edgeBuffer 400 400
           (thresholdAt edgeThresholds i) (thresholdAt regionThresholds i))
    else (faceRegions, i)
  end.

Definition noFaceMessage : string :=
  "No face detected in the image. Please ensure a clear, front-facing photo with good lighting. Try adjusting brightness or contrast.".

Definition multipleFacesMessage (count : nat) : string :=
  "Multiple faces detected (" +:+ showZ (Z.of_nat count)
  +:+ "). Please provide an image with only one person.".

Definition detectFacesInImage (imageBuffer : list Z) : Action Region :=
  tryCatch
    (let* edgeBuffer :=
       await (CallEdges 400 400) (sharpEdges imageBuffer 400 400) in
     let faceRegions :=
       (detectionPasses edgeBuffer (length edgeThresholds) 0 []).1 in
     match faceRegions with
     | [] => reject noFaceMessage
     | first :: _ =>
       if (maxFaces <? length faceRegions)%nat
       then reject (multipleFacesMessage (length faceRegions))
       else resolve first
     end)
    (λ message,
       if includes message "face" then message
       else "Face detection failed: " +:+ message).

(** *** [validateFaceCharacteristics] *)
Definition validateFaceCharacteristics (imageBuffer : list Z)
    : Action bool :=
  tryCatch
    (let* metadata := await CallMetadata (sharpMetadata imageBuffer) in
     resolve true)
    (λ message, "Face characteristic validation failed: " +:+ message).

(** *** [sharpBasedFaceDetection] and [detectFace] *)
Definition sharpBasedFaceDetection (imageBuffer : list Z) : Action bool :=
  let* stats := analyzeImageStats imageBuffer in
  let brightness := stats_mean stats in
  let contrast := stats_std stats in
  let* _ := validateLightingConditions brightness contrast in
  let* _ := validateImageSharpness imageBuffer in
  let* _ := detectFacesInImage imageBuffer in
  let* _ := validateFaceCharacteristics imageBuffer in
  resolve true.

Definition detectFace (imageBuffer : list Z) : Action bool :=
  tryCatch (sharpBasedFaceDetection imageBuffer)
    (λ message, "Face detection failed: " +:+ message).

(** *** [validateImageQuality] *)

(** The spec's [ValidationError]: what the [catch] block of
    [validateImageQuality] throws. *)
Definition ValidationError {A} (r : Result A) : Prop :=
  ∃ reason, r = Err ("Image quality validation failed: " +:+ reason).

Definition supportedFormats : list string := ["jpeg"; "jpg"; "png"; "webp"].

(** [supportedFormats.join(", ")] *)
Definition joinComma (items : list string) : string :=
  match items with
  | [] => EmptyString
  | first :: rest => foldl (λ acc item, acc +:+ ", " +:+ item) first rest
  end.

(** [Math.min] and [Math.max] of two dimensions: [NaN] ([None]) as soon
    as one of them is [undefined]. *)
Definition dimMin (a b : option Z) : option Z :=
  a ← a; b ← b; Some (Z.min a b).
Definition dimMax (a b : option Z) : option Z :=
  a ← a; b ← b; Some (Z.max a b).

(** [d < bound] and [d > bound]; false when [d] is [undefined] or [NaN]. *)
Definition dimBelow (d : option Z) (bound : Z) : bool :=
  match d with Some d => d <? bound | None => false end.
Definition dimAbove (d : option Z) (bound : Z) : bool :=
  match d with Some d => bound <? d | None => false end.

(** [!d]: [undefined] and [0] are falsy. *)
Definition dimFalsy (d : option Z) : bool :=
  match d with Some d => d =? 0 | None => true end.

(** [metadata.width / metadata.height], as the comparisons with 0.5 and
  2.0 see it: the exact quotient.  The double quotient is on the same
  side of 0.5 and of 2.0 for the dimensions up to 4000 that reach the
  test. *)
Definition dimRatio (a b : option Z) : JsNum :=
  match a, b with
  | Some a, Some b => jsDiv (inject_Z a) (inject_Z b)
  | _, _ => NaN
  end.

(** The exact value of a double. *)
Definition doubleValue (x : float) : JsNum :=
  match Prim2SF x with
  | S754_zero _ => Fin 0
  | S754_finite s m e => Fin (inject_Z (cond_Zopp s (Zpos m)) * 2 ^ e)
  | S754_infinity false => PosInf
  | S754_infinity true => NegInf
  | S754_nan => NaN
  end.

(** [metadata.width / metadata.height], as [toFixed] prints it: the
  value of the double quotient. *)
Definition dimRatioDouble (a b : option Z) : JsNum :=
  match a, b with
  | Some a, Some b => doubleValue (floatOfZ a / floatOfZ b)
  | _, _ => NaN
  end.

Definition showDimensions (metadata : Metadata) : string :=
  showOptZ (meta_width metadata) +:+ "x" +:+ showOptZ (meta_height metadata).

(** The body of the [try] block after [metadata] is known.  Calling
  [toLowerCase] on an [undefined] format throws a [TypeError] whose text
  is the engine's. *)
Definition qualityChecks (metadata : Metadata) (byteLength : Z)
    : Action bool :=
  let width := meta_width metadata in
  let height := meta_height metadata in
  let* format :=
    match meta_format metadata with
    | Some format => resolve format
    | None =>
      reject "Cannot read properties of undefined (reading 'toLowerCase')"
    end in
  let* _ := throwIf (negb (bool_decide (toLowerCase format ∈ supportedFormats)))
    ("Unsupported image format: " +:+ format +:+ ". Supported formats: "
     +:+ joinComma supportedFormats
     +:+ ". Please convert your image to a supported format."
     +:+ doubleQuote) in
  let minDimension := dimMin width height in
  let maxDimension := dimMax width height in
  let* _ := throwIf (dimBelow minDimension 150 || dimBelow maxDimension 200)
    ("Image resolution too low: " +:+ showDimensions metadata
     +:+ ". Minimum required: smaller dimension ≥150px and larger dimension ≥200px for accurate face detection.") in
  let* _ := throwIf (dimAbove width 4000 || dimAbove height 4000)
    ("Image resolution too high: " +:+ showDimensions metadata
     +:+ ". Maximum recommended: 4000x4000 pixels. Please resize your image.") in
  let aspectRatio := dimRatio width height in
  let* _ := throwIf (jsLt aspectRatio (5 # 10) || jsGt aspectRatio 2)
    ("Unusual image aspect ratio: "
     +:+ toFixed (dimRatioDouble width height) 2
     +:+ ". Please use a more standard image format (not too wide or tall).") in
  let* _ := throwIf (10 * 1024 * 1024 <? byteLength)
    ("Image file too large: "
     (* a division by 2^20 is exact on doubles *)
     +:+ toFixed (jsDiv (inject_Z byteLength) (inject_Z (1024 * 1024))) 1
     +:+ "MB. Maximum size: 10MB. Please compress your image.") in
  let* _ := throwIf (byteLength <? 2048)
    ("Image file too small: " +:+ showZ byteLength
     +:+ " bytes. Minimum size: 2KB. The image may be corrupted or of very poor quality.") in
  let* _ := throwIf (dimFalsy width || dimFalsy height)
    "Image appears to be corrupted or invalid. Please try uploading a different image." in
  resolve true.

Definition validateImageQuality (imageBuffer : list Z) : Action bool :=
  tryCatch
    (let* metadata := await CallMetadata (sharpMetadata imageBuffer) in
     qualityChecks metadata (Z.of_nat (length imageBuffer)))
    (λ message, "Image quality validation failed: " +:+ message).

(** *** [preprocessImage] *)

Definition targetSize : Z := 112.

Definition preprocessImage (imageBuffer : list Z) : Action (list Z) :=
  tryCatch
    (let* metadata := await CallMetadata (sharpMetadata imageBuffer) in
     let* _ := throwIf (dimFalsy (meta_width metadata)
                      || dimFalsy (meta_height metadata))
       "Invalid image: Unable to read dimensions" in
     let* _ := throwIf (dimBelow (meta_width metadata) 50
                      || dimBelow (meta_height metadata) 50)
       "Image too small: Minimum size is 50x50 pixels" in
     let* processedImage :=
       await (CallCover targetSize targetSize)
         (sharpCover imageBuffer targetSize targetSize) in
     let expectedSize := targetSize * targetSize * 3 in
     let* _ := throwIf (negb (Z.of_nat (length processedImage) =? expectedSize))
       ("Processed image size mismatch. Expected " +:+ showZ expectedSize
        +:+ ", got " +:+ showZ (Z.of_nat (length processedImage))) in
     resolve processedImage)
    (λ message, "Image preprocessing failed: " +:+ message).

(** *** [processFaceImage]: the [catch] block logs and rethrows the
    error unchanged. *)
Definition processFaceImage (imageBuffer : list Z) : Action (list Z) :=
  tryCatch
    (let* _ := validateImageQuality imageBuffer in
     let* _ := detectFace imageBuffer in
     let* processedImage := preprocessImage imageBuffer in
     resolve processedImage)
    (λ message, message).
End Pipeline.

(** ** JavaScript values and [JSON.parse] *)

(** Values, over the representation [N] of numbers. *)
#[warnings="-register-all"]
Inductive JSValue (N : Type) : Type :=
| JUndefined
| JNull
| JBool (b : bool)
| JNumber (n : N)
| JString (s : string)
| JArray (items : list (JSValue N))
| JObject (fields : list (string * JSValue N)).
Arguments JUndefined {N}.
Arguments JNull {N}.
Arguments JBool {N} b.
Arguments JNumber {N} n.
Arguments JString {N} s.
Arguments JArray {N} items.
Arguments JObject {N} fields.

Definition isDigit (c : ascii) : bool :=
  let n := nat_of_ascii c in (48 <=? n)%nat && (n <=? 57)%nat.

Definition digitValue (c : ascii) : Z := Z.of_nat (nat_of_ascii c) - 48.

Definition isWhitespace (c : ascii) : bool :=
  let n := nat_of_ascii c in
  (n =? 32)%nat || (n =? 9)%nat || (n =? 10)%nat || (n =? 13)%nat.

Fixpoint skipWhitespace (s : list ascii) : list ascii :=
  match s with
  | c :: rest => if isWhitespace c then skipWhitespace rest else s
  | [] => []
  end.

(** A run of digits: its value as a continuation of [acc], how many there
    were, and the rest of the text. *)
Fixpoint readDigits (s : list ascii) (acc : Z) (count : nat)
    : Z * nat * list ascii :=
  match s with
  | c :: rest =>
    if isDigit c then readDigits rest (10 * acc + digitValue c) (S count)
    else (acc, count, s)
  | [] => (acc, count, [])
  end.

Definition decimalDigits (m : Z) : Z := Z.of_nat (String.length (showZ m)).

(** The double nearest to [± mantissa × 10^exponent10] (ties to even),
    for [mantissa ≥ 0]: above 10^309 it is an infinity and below 10^-324 a
    zero, in between the exact quotient is rounded once. *)
Definition decimalToFloat (negative : bool) (mantissa exponent10 : Z)
    : float :=
  let magnitude :=
    if mantissa =? 0 then PrimFloat.zero
    else
      let digits := decimalDigits mantissa in
      if 310 <=? digits + exponent10 then PrimFloat.infinity
      else if digits + exponent10 <=? -324 then PrimFloat.zero
      else if 0 <=? exponent10 then
        SF2Prim (binary_normalize prec emax (mantissa * 10 ^ exponent10) 0
                   false)
      else
        SF2Prim (SFdiv prec emax
                   (S754_finite false (Z.to_pos mantissa) 0)
                   (S754_finite false (Z.to_pos (10 ^ (- exponent10))) 0)) in
  if negative then (- magnitude)%float else magnitude.

(** [number = [ "-" ] int [ "." digits ] [ ("e" | "E") [sign] digits ]] *)
Definition parseNumber (s : list ascii) : option (float * list ascii) :=
  let '(negative, s) :=
    match s with
    | "-"%char :: rest => (true, rest)
    | _ => (false, s)
    end in
  let '(int, intCount, afterInt) := readDigits s 0 0 in
  let leadingZero :=
    match s with
    | "0"%char :: _ => (1 <? intCount)%nat
    | _ => false
    end in
  if (intCount =? 0)%nat || leadingZero then None
  else
    let fraction :=
      match afterInt with
      | "."%char :: rest =>
        let '(m, fracCount, afterFrac) := readDigits rest int 0 in
        if (fracCount =? 0)%nat then None
        else Some (m, Z.of_nat fracCount, afterFrac)
      | _ => Some (int, 0, afterInt)
      end in
    match fraction with
    | None => None
    | Some (mantissa, fracCount, afterFrac) =>
      let exponent :=
        match afterFrac with
        | c :: rest =>
          if (c =? "e")%char || (c =? "E")%char then
            let '(expNegative, rest) :=
              match rest with
              | "-"%char :: rest' => (true, rest')
              | "+"%char :: rest' => (false, rest')
              | _ => (false, rest)
              end in
            let '(e, expCount, afterExp) := readDigits rest 0 0 in
            if (expCount =? 0)%nat then None
            else Some (if expNegative then - e else e, afterExp)
          else Some (0, afterFrac)
        | [] => Some (0, [])
        end in
      match exponent with
      | None => None
      | Some (e, rest) =>
        Some (decimalToFloat negative mantissa (e - fracCount), rest)
      end
    end.

Definition hexValue (c : ascii) : option Z :=
  let n := nat_of_ascii c in
  if isDigit c then Some (Z.of_nat n - 48)
  else if (97 <=? n)%nat && (n <=? 102)%nat then Some (Z.of_nat n - 87)
  else if (65 <=? n)%nat && (n <=? 70)%nat then Some (Z.of_nat n - 55)
  else None.

Definition byte (n : Z) : ascii := ascii_of_nat (Z.to_nat n).

(** The UTF-8 bytes of a code unit written [\uXXXX]. *)
Definition utf8 (code : Z) : list ascii :=
  if code <? 128 then [byte code]
  else if code <? 2048 then
    [byte (192 + code / 64); byte (128 + code mod 64)]
  else
    [byte (224 + code / 4096); byte (128 + (code / 64) mod 64);
     byte (128 + code mod 64)].

(** The characters of a string literal after its opening quote. *)
Fixpoint parseStringBody (s : list ascii) (acc : list ascii)
    : option (string * list ascii) :=
  match s with
  | [] => None
  | c :: rest =>
    if (nat_of_ascii c =? 34)%nat then
      Some (string_of_list_ascii (rev acc), rest)
    else if (nat_of_ascii c <? 32)%nat then None
    else if (nat_of_ascii c =? 92)%nat then
      match rest with
      | e :: rest' =>
        let simple (b : Z) := parseStringBody rest' (byte b :: acc) in
        match nat_of_ascii e with
        | 34%nat => simple 34
        | 92%nat => simple 92
        | 47%nat => simple 47
        | 98%nat => simple 8
        | 102%nat => simple 12
        | 110%nat => simple 10
        | 114%nat => simple 13
        | 116%nat => simple 9
        | 117%nat =>
          match rest' with
          | h1 :: h2 :: h3 :: h4 :: rest'' =>
            match hexValue h1, hexValue h2, hexValue h3, hexValue h4 with
            | Some a, Some b, Some c', Some d =>
              parseStringBody rest''
                (rev (utf8 (((a * 16 + b) * 16 + c') * 16 + d)) ++ acc)%list
            | _, _, _, _ => None
            end
          | _ => None
          end
        | _ => None
        end
      | [] => None
      end
    else parseStringBody rest (c :: acc)
  end.

Definition literal (word : string) (s : list ascii) : option (list ascii) :=
  let w := list_ascii_of_string word in
  if bool_decide (take (length w) s = w) then Some (drop (length w) s)
  else None.

(** [value], [elements] of an array after its first bracket, and [members]
    of an object after its first brace.  [fuel] bounds the nesting of
    calls; the text length is enough. *)
Fixpoint parseValue (fuel : nat) (s : list ascii)
    : option (JSValue float * list ascii) :=
  match fuel with
  | O => None
  | S fuel' =>
    match skipWhitespace s with
    | [] => None
    | c :: rest =>
      match nat_of_ascii c with
      | 91%nat =>
        match skipWhitespace rest with
        | "]"%char :: rest' => Some (JArray [], rest')
        | _ =>
          '(items, rest') ← parseElements fuel' rest [];
          Some (JArray items, rest')
        end
      | 123%nat =>
        match skipWhitespace rest with
        | "}"%char :: rest' => Some (JObject [], rest')
        | _ =>
          '(fields, rest') ← parseMembers fuel' rest [];
          Some (JObject fields, rest')
        end
      | 34%nat =>
        '(text, rest') ← parseStringBody rest [];
        Some (JString text, rest')
      | 116%nat => rest' ← literal "true" (c :: rest); Some (JBool true, rest')
      | 102%nat =>
        rest' ← literal "false" (c :: rest); Some (JBool false, rest')
      | 110%nat => rest' ← literal "null" (c :: rest); Some (JNull, rest')
      | _ =>
        '(n, rest') ← parseNumber (c :: rest);
        Some (JNumber n, rest')
      end
    end
  end
with parseElements (fuel : nat) (s : list ascii) (acc : list (JSValue float))
    : option (list (JSValue float) * list ascii) :=
  match fuel with
  | O => None
  | S fuel' =>
    '(v, rest) ← parseValue fuel' s;
    match skipWhitespace rest with
    | ","%char :: rest' => parseElements fuel' rest' (acc ++ [v])%list
    | "]"%char :: rest' => Some ((acc ++ [v])%list, rest')
    | _ => None
    end
  end
with parseMembers (fuel : nat) (s : list ascii)
    (acc : list (string * JSValue float))
    : option (list (string * JSValue float) * list ascii) :=
  match fuel with
  | O => None
  | S fuel' =>
    match skipWhitespace s with
    | c :: rest =>
      if (nat_of_ascii c =? 34)%nat then
        '(key, rest) ← parseStringBody rest [];
        match skipWhitespace rest with
        | ":"%char :: rest =>
          '(v, rest) ← parseValue fuel' rest;
          match skipWhitespace rest with
          | ","%char :: rest' => parseMembers fuel' rest' (acc ++ [(key, v)])%list
          | "}"%char :: rest' => Some ((acc ++ [(key, v)])%list, rest')
          | _ => None
          end
        | _ => None
        end
      else None
    | [] => None
    end
  end.

(** [JSON.parse(text)]: one value, then only whitespace; [None] is the
    [SyntaxError]. *)
Definition JSON_parse (text : string) : option (JSValue float) :=
  let s := list_ascii_of_string text in
  '(v, rest) ← parseValue (2 * length s + 2) s;
  match skipWhitespace rest with
  | [] => Some v
  | _ => None
  end.

(** ** Stored embeddings ([parseStoredEmbedding]) *)

(** [typeof val !== "number" || isNaN(val)] *)
Definition notNumeric (val : JSValue float) : bool :=
  match val with
  | JNumber n => is_nan n
  | _ => true
  end.

(** The text of the [SyntaxError] of [JSON.parse] depends on the engine;
    one fixed text stands for it. *)
Definition syntaxErrorMessage : string := "Unexpected token in JSON".

Definition parseStoredEmbedding (embeddingString : JSValue float)
    : Result (list (JSValue float)) :=
  rethrow "Invalid embedding format: "
    (rbind
       match embeddingString with
       | JString text =>
         match JSON_parse text with
         | Some parsed => Ok parsed
         | None => Err syntaxErrorMessage
         end
       | JArray _ => Ok embeddingString
       | _ => Err "Invalid embedding format"
       end
       (λ embedding,
          match embedding with
          | JArray items =>
            let invalidElements := List.filter notNumeric items in
            if (0 <? length invalidElements)%nat then
              Err "Embedding contains non-numeric values"
            else if (length items <? 64)%nat || (2048 <? length items)%nat
            then
              Err ("Unusual embedding size: "
                   +:+ showZ (Z.of_nat (length items))
                   +:+ ". Expected between 64-2048 dimensions.")
            else Ok items
          | _ => Err "Parsed embedding is not an array"
          end)).

(** The spec's [EmbeddingFormatError]: what the [catch] block throws. *)
Definition EmbeddingFormatError {A} (r : Result A) : Prop :=
  ∃ message, r = Err ("Invalid embedding format: " +:+ message).

(** ** Cosine similarity ([calculateCosineSimilarity]) *)

(** The operations the function uses on numbers, read in binary64
    ([floatArith], what the engine computes). *)
Class JsArith (N : Type) := {
  numOfZ : Z → N;
  numAdd : N → N → N;
  numMul : N → N → N;
  numDiv : N → N → N;
  numSqrt : N → N;
  numIsZero : N → bool;
  mathMin : N → N → N;
  mathMax : N → N → N
}.

(** [Math.min] and [Math.max] on doubles: [NaN] if an argument is [NaN],
    and [-0] is below [+0]. *)
Definition floatMin (x y : float) : float :=
  if is_nan x || is_nan y then nan
  else if (x <? y)%float then x
  else if (y <? x)%float then y
  else if get_sign x then x else y.

Definition floatMax (x y : float) : float :=
  if is_nan x || is_nan y then nan
  else if (x <? y)%float then y
  else if (y <? x)%float then x
  else if get_sign x then y else x.

#[export] Instance floatArith : JsArith float := {
  numOfZ := floatOfZ;
  numAdd := PrimFloat.add;
  numMul := PrimFloat.mul;
  numDiv := PrimFloat.div;
  numSqrt := PrimFloat.sqrt;
  numIsZero := λ x, (x =? 0)%float;
  mathMin := floatMin;
  mathMax := floatMax
}.

Section Similarity.
Context {N : Type} `{JsArith N}.

(** The first loop: the [typeof] check and [dotProduct += a[i] * b[i]]. *)
Fixpoint dotProductLoop (i : nat) (vectorA vectorB : list (JSValue N))
    (dotProduct : N) : Result N :=
  match vectorA, vectorB with
  | a :: restA, b :: restB =>
    match a, b with
    | JNumber x, JNumber y =>
      dotProductLoop (S i) restA restB (numAdd dotProduct (numMul x y))
    | _, _ =>
      Err ("Invalid vector element at index " +:+ showZ (Z.of_nat i)
           +:+ ". Expected numbers.")
    end
  | _, _ => Ok dotProduct
  end.

(** The second loop, for one vector: [magnitude += v[i] * v[i]].  It runs
    only after the first loop has found every element to be a number. *)
Fixpoint sumOfSquares (vector : list (JSValue N)) (magnitude : N) : N :=
  match vector with
  | JNumber x :: rest => sumOfSquares rest (numAdd magnitude (numMul x x))
  | _ :: rest => sumOfSquares rest magnitude
  | [] => magnitude
  end.

Definition calculateCosineSimilarity (vectorA vectorB : JSValue N)
    : Result N :=
  match vectorA, vectorB with
  | JArray a, JArray b =>
    if negb (length a =? length b)%nat then
      Err ("Vector dimensions must match. A: "
           +:+ showZ (Z.of_nat (length a)) +:+ ", B: "
           +:+ showZ (Z.of_nat (length b)))
    else if (length a =? 0)%nat then Err "Vectors cannot be empty"
    else
      rbind (dotProductLoop 0 a b (numOfZ 0)) (λ dotProduct,
        let magnitudeA := numSqrt (sumOfSquares a (numOfZ 0)) in
        let magnitudeB := numSqrt (sumOfSquares b (numOfZ 0)) in
        if numIsZero magnitudeA || numIsZero magnitudeB then
          Err "Cannot calculate similarity for zero vectors"
        else
          let similarity :=
            numDiv dotProduct (numMul magnitudeA magnitudeB) in
          Ok (mathMax (numOfZ (-1)) (mathMin (numOfZ 1) similarity)))
  | _, _ => Err "Both vectors must be arrays"
  end.
End Similarity.

(** A vector of numbers as an array value. *)
Definition vectorOf {N} (components : list N) : JSValue N :=
  JArray (JNumber <$> components).


#[local] Open Scope string_scope.
#[local] Open Scope list_scope.
#[local] Open Scope Z_scope.

(** ** Distances, normalisation and matching ([src/utils/similarity.js]) *)

(** The message of the length check shared by the three measures. *)
Definition dimensionsMessage {N} (vectorA vectorB : list (JSValue N))
    : string :=
  "Vector dimensions must match. A: " +:+ showZ (Z.of_nat (length vectorA))
  +:+ ", B: " +:+ showZ (Z.of_nat (length vectorB)).

(** The loop of [calculateEuclideanDistance]: the [typeof] check,
    [diff = a[i] - b[i]] and [sumSquaredDifferences += diff * diff]. *)
Fixpoint squaredDifferences (i : nat) (vectorA vectorB : list (JSValue float))
    (sumSquaredDifferences : float) : Result float :=
  match vectorA, vectorB with
  | a :: restA, b :: restB =>
    match a, b with
    | JNumber x, JNumber y =>
      let diff := (x - y)%float in
      squaredDifferences (S i) restA restB
        (sumSquaredDifferences + diff * diff)%float
    | _, _ =>
      Err ("Invalid vector element at index " +:+ showZ (Z.of_nat i)
           +:+ ". Expected numbers.")
    end
  | _, _ => Ok sumSquaredDifferences
  end.

Definition calculateEuclideanDistance (vectorA vectorB : JSValue float)
    : Result float :=
  match vectorA, vectorB with
  | JArray a, JArray b =>
    if negb (length a =? length b)%nat then Err (dimensionsMessage a b)
    else
      rbind (squaredDifferences 0 a b 0%float) (λ sumSquaredDifferences,
        Ok (PrimFloat.sqrt sumSquaredDifferences))
  | _, _ => Err "Both vectors must be arrays"
  end.

(** The loop of [calculateManhattanDistance]:
    [sumAbsoluteDifferences += Math.abs(a[i] - b[i])]. *)
Fixpoint absoluteDifferences (i : nat) (vectorA vectorB : list (JSValue float))
    (sumAbsoluteDifferences : float) : Result float :=
  match vectorA, vectorB with
  | a :: restA, b :: restB =>
    match a, b with
    | JNumber x, JNumber y =>
      absoluteDifferences (S i) restA restB
        (sumAbsoluteDifferences + abs (x - y))%float
    | _, _ =>
      Err ("Invalid vector element at index " +:+ showZ (Z.of_nat i)
           +:+ ". Expected numbers.")
    end
  | _, _ => Ok sumAbsoluteDifferences
  end.

Definition calculateManhattanDistance (vectorA vectorB : JSValue float)
    : Result float :=
  match vectorA, vectorB with
  | JArray a, JArray b =>
    if negb (length a =? length b)%nat then Err (dimensionsMessage a b)
    else absoluteDifferences 0 a b 0%float
  | _, _ => Err "Both vectors must be arrays"
  end.

(** The loop of [normalizeVector]: the [typeof] check and
    [magnitude += vector[i] * vector[i]]. *)
Fixpoint squaredMagnitude (i : nat) (vector : list (JSValue float))
    (magnitude : float) : Result float :=
  match vector with
  | JNumber x :: rest =>
    squaredMagnitude (S i) rest (magnitude + x * x)%float
  | _ :: _ =>
    Err ("Invalid vector element at index " +:+ showZ (Z.of_nat i)
         +:+ ". Expected number.")
  | [] => Ok magnitude
  end.

(** [val / magnitude] in [vector.map]; the loop before it has found every
    element to be a number. *)
Definition divideBy (magnitude : float) (val : JSValue float)
    : JSValue float :=
  match val with
  | JNumber x => JNumber (x / magnitude)%float
  | other => other
  end.

Definition normalizeVector (vector : JSValue float)
    : Result (list (JSValue float)) :=
  match vector with
  | JArray items =>
    if (length items =? 0)%nat then Err "Vector cannot be empty"
    else
      rbind (squaredMagnitude 0 items 0%float) (λ magnitude,
        let magnitude := PrimFloat.sqrt magnitude in
        if (magnitude =? 0)%float then Err "Cannot normalize zero vector"
        else Ok (divideBy magnitude <$> items))
  | _ => Err "Input must be an array"
  end.

(** [vectorA.length] as a number; it is read only after [vectorA] has been
    found to be an array. *)
Definition lengthNumber (vector : JSValue float) : float :=
  match vector with
  | JArray items => floatOfZ (Z.of_nat (length items))
  | _ => nan
  end.

Record DistanceScore := mkDistanceScore {
  score_distance : float;
  score_similarity : float
}.

Record Similarities := mkSimilarities {
  sim_cosine : float;
  sim_euclidean : DistanceScore;
  sim_manhattan : DistanceScore
}.

Definition calculateAllSimilarities (vectorA vectorB : JSValue float)
    : Result Similarities :=
  rbind (calculateCosineSimilarity vectorA vectorB) (λ cosineSimilarity,
  rbind (calculateEuclideanDistance vectorA vectorB) (λ euclideanDistance,
  rbind (calculateManhattanDistance vectorA vectorB) (λ manhattanDistance,
    let maxPossibleEuclidean :=
      PrimFloat.sqrt (lengthNumber vectorA * 2)%float in
    let maxPossibleManhattan := (lengthNumber vectorA * 2)%float in
    let euclideanSimilarity :=
      (1 - euclideanDistance / maxPossibleEuclidean)%float in
    let manhattanSimilarity :=
      (1 - manhattanDistance / maxPossibleManhattan)%float in
    Ok {| sim_cosine := cosineSimilarity;
          sim_euclidean :=
            {| score_distance := euclideanDistance;
               score_similarity := floatMax 0%float euclideanSimilarity |};
          sim_manhattan :=
            {| score_distance := manhattanDistance;
               score_similarity :=
                 floatMax 0%float manhattanSimilarity |} |}))).

Record MatchResult := mkMatchResult {
  match_isMatch : bool;
  match_similarity : float;
  match_threshold : float;
  match_metric : string
}.

(** The double written [0.6]. *)
Definition defaultThreshold : float := 0x1.3333333333333p-1%float.

(** [isMatch(vectorA, vectorB, threshold = 0.6, metric = "cosine")]: an
    argument left out ([None]) takes its default. *)
Definition isMatch (vectorA vectorB : JSValue float)
    (threshold : option float) (metric : option string)
    : Result MatchResult :=
  let threshold := default defaultThreshold threshold in
  let metric := default "cosine" metric in
  let lowered := toLowerCase metric in
  rbind
    (if bool_decide (lowered = "cosine") then
       calculateCosineSimilarity vectorA vectorB
     else if bool_decide (lowered = "euclidean") then
       rbind (calculateEuclideanDistance vectorA vectorB)
         (λ euclideanDistance,
            let maxDistance :=
              PrimFloat.sqrt (lengthNumber vectorA * 2)%float in
            Ok (1 - euclideanDistance / maxDistance)%float)
     else if bool_decide (lowered = "manhattan") then
       rbind (calculateManhattanDistance vectorA vectorB)
         (λ manhattanDistance,
            let maxManhattan := (lengthNumber vectorA * 2)%float in
            Ok (1 - manhattanDistance / maxManhattan)%float)
     else Err ("Unsupported similarity metric: " +:+ metric))
    (λ similarity,
       Ok {| match_isMatch := (threshold <=? similarity)%float;
             match_similarity := similarity;
             match_threshold := threshold;
             match_metric := metric |}).

(** ** The embedding model ([src/services/modelService.js]) *)

(** A loaded inference session, as far as [generateEmbedding] uses it: what
    [session.run] makes of the data of the input tensor, the data of the
    first output tensor or a failure.  The module variable [session] is
    [null] ([None]) until the model is loaded. *)
Definition Session : Type := list float → Result (list float).

Definition isModelLoaded (session : option Session) : bool :=
  bool_decide (is_Some session).

(** Storing a number into a [Float32Array] rounds it to the nearest
    binary32 value, ties to even. *)
Definition toFloat32 (x : float) : float :=
  match Prim2SF x with
  | S754_finite s m e =>
    SF2Prim (binary_normalize 24 128 (cond_Zopp s (Zpos m)) e s)
  | _ => x
  end.

(** [inputTensor[i] = imageData[i] / 127.5 - 1.0] *)
Definition inputTensor (imageData : list Z) : list float :=
  (λ v, toFloat32 (floatOfZ v / 127.5 - 1)%float) <$> imageData.

(** The L2 normalisation of the output:
    [norm = Math.sqrt(embedding.reduce((sum, val) => sum + val * val, 0))]
    and [embedding.map((val) => val / norm)]. *)
Definition l2Normalize (embedding : list float) : list float :=
  let norm :=
    PrimFloat.sqrt
      (foldl (λ sum val, sum + val * val)%float 0%float embedding) in
  (λ val, val / norm)%float <$> embedding.

Definition generateEmbedding (session : option Session) (imageData : list Z)
    : Result (list float) :=
  match session with
  | None => Err "Model not initialized. Call initializeModel() first."
  | Some run =>
    if negb (Z.of_nat (length imageData) =? 112 * 112 * 3) then
      Err "Invalid input data. Expected 112x112x3 RGB image data."
    else
      rbind (run (inputTensor imageData)) (λ output,
        Ok (l2Normalize output))
  end.

(** ** The embedding service ([src/services/embeddingService.js]) *)

(** A call that settles without the codec. *)
Definition settled {A} (r : Result A) : Action A := ([], r).

(** The value of a double as a rational; [None] for [NaN] and the
    infinities. *)
Definition floatToQ (x : float) : option Q :=
  match Prim2SF x with
  | S754_zero _ => Some 0%Q
  | S754_finite s m e => Some (inject_Z (cond_Zopp s (Zpos m)) * 2 ^ e)%Q
  | _ => None
  end.

(** [parseFloat(x.toFixed(4))]: below 10^21 the decimal with four fraction
    digits closest to [x], ties away from zero, read back as a double;
    [NaN], the infinities and the numbers from 10^21 print and read back
    as themselves. *)
Definition roundToFour (x : float) : float :=
  match floatToQ x with
  | None => x
  | Some q =>
    let magnitude := if Qltb q 0 then (- q)%Q else q in
    if Qle_bool (inject_Z (10 ^ 21)) magnitude then x
    else
      decimalToFloat (Qltb q 0)
        (Qfloor (magnitude * inject_Z 10000 + (1 # 2))) (-4)
  end.

Record Comparison := mkComparison {
  cmp_success : bool;
  cmp_isMatch : bool;
  cmp_similarity : float;
  cmp_threshold : float
}.

Section EmbeddingService.
Context `{Sharp}.
Variable calculateFaceScore : list Z → Z → Z → Region → Q.
(** The loaded model, and [this.similarityThreshold]. *)
Variable session : option Session.
Variable similarityThreshold : float.

Definition createEmbedding (imageBuffer : list Z) : Action (list float) :=
  let* _ := throwIf (negb (isModelLoaded session))
    "AI model not loaded. Please wait for initialization." in
  let* processedImageData :=
    processFaceImage calculateFaceScore imageBuffer in
  let* embedding :=
    settled (generateEmbedding session processedImageData) in
  let* _ := throwIf (length embedding =? 0)%nat
    "Failed to generate valid embedding" in
  resolve embedding.

Definition compareEmbeddings (imageBuffer : list Z)
    (storedEmbeddingArray : JSValue float) : Action Comparison :=
  (* [!Array.isArray(storedEmbeddingArray)
      || storedEmbeddingArray.length === 0] *)
  let* stored :=
    match storedEmbeddingArray with
    | JArray (first :: rest) => resolve (first :: rest)
    | _ =>
      reject "Invalid stored embedding format. Expected non-empty array."
    end in
  let* newEmbedding := createEmbedding imageBuffer in
  let* _ := throwIf (negb (length newEmbedding =? length stored)%nat)
    ("Embedding dimension mismatch. New: "
     +:+ showZ (Z.of_nat (length newEmbedding)) +:+ ", Stored: "
     +:+ showZ (Z.of_nat (length stored))) in
  let* similarity :=
    settled (calculateCosineSimilarity (JArray stored)
               (vectorOf newEmbedding)) in
  let isMatch := (similarityThreshold <=? similarity)%float in
  resolve {| cmp_success := true;
             cmp_isMatch := isMatch;
             cmp_similarity := roundToFour similarity;
             cmp_threshold := similarityThreshold |}.
End EmbeddingService.

(** [setSimilarityThreshold]: the new value of [this.similarityThreshold],
    or the error, which leaves it as it was. *)
Definition setSimilarityThreshold (threshold : JSValue float)
    : Result float :=
  match threshold with
  | JNumber t =>
    if (t <? 0)%float || (1 <? t)%float then
      Err "Similarity threshold must be a number between 0 and 1"
    else Ok t
  | _ => Err "Similarity threshold must be a number between 0 and 1"
  end.

(** ** The HTTP status of a failure ([src/routes/faceRoutes.js]) *)

(** The [catch] block of [POST /encode]: 400 when the message contains one
    of three phrases, 500 otherwise. *)
Definition encodeFailureStatus (message : string) : Z :=
  if includes message "No face detected"
     || includes message "Image too"
     || includes message "Invalid"
  then 400 else 500.

(** The [catch] block of [POST /compare], with a fourth phrase. *)
Definition compareFailureStatus (message : string) : Z :=
  if includes message "No face detected"
     || includes message "Image too"
     || includes message "Invalid"
     || includes message "dimension mismatch"
  then 400 else 500.


(** ** Definitions used to state the properties *)

#[local] Open Scope list_scope.
#[local] Open Scope Z_scope.

(** The indices of the pixels of a [width]×[height] image. *)
Definition cellSet (width height : Z) : gset Z :=
  list_to_set (seqZ 0 (width * height)).

(** The invariant of the loop of [growRegion] on an image whose pixels at
    or above the threshold are those of the rectangle with corner
    [(x0, y0)], width [w] and height [h], started at [(sx, sy)]: [seen]
    lists the admitted pixels. *)
Section RectangleInvariant.
Variables (width x0 y0 w h sx sy : Z).

Definition insideRect (p : Z * Z) : Prop :=
  x0 ≤ p.1 < x0 + w ∧ y0 ≤ p.2 < y0 + h.

Definition pixelIndex (p : Z * Z) : Z := p.2 * width + p.1.

Record GrowInvariant (stack : list (Z * Z)) (visited : gset Z)
    (region : Grown) (seen : list (Z * Z)) : Prop := {
  inv_nodup : NoDup seen;
  inv_rect : ∀ p, p ∈ seen → insideRect p;
  inv_visited : ∀ i, i ∈ visited ↔ ∃ p, p ∈ seen ∧ i = pixelIndex p;
  inv_size : gsize region = Z.of_nat (length seen);
  inv_box : (x0 ≤ minX region ≤ sx ∧ sx ≤ maxX region < x0 + w)
            ∧ (y0 ≤ minY region ≤ sy ∧ sy ≤ maxY region < y0 + h);
  inv_cover : ∀ p, p ∈ seen →
    minX region ≤ p.1 ≤ maxX region ∧ minY region ≤ p.2 ≤ maxY region;
  inv_closed : ∀ p q, p ∈ seen → q ∈ neighbours p.1 p.2 → insideRect q →
    q ∈ seen ∨ q ∈ stack;
  inv_seed : (sx, sy) ∈ seen ∨ (sx, sy) ∈ stack
}.

Definition rectCells : list (Z * Z) := list_prod (seqZ x0 w) (seqZ y0 h).
End RectangleInvariant.

(** The dimension test of [preprocessImage]: a dimension that could not be
    read, or a width or height below 50. *)
Definition belowPreprocessFloor (metadata : Metadata) : Prop :=
  meta_width metadata = None ∨ meta_height metadata = None
  ∨ (∃ w, meta_width metadata = Some w ∧ w < 50)
  ∨ (∃ h, meta_height metadata = Some h ∧ h < 50).

(** The array that [parseStoredEmbedding] validates: the input itself, or
    what [JSON.parse] makes of a string input. *)
Definition parsedSequence (input : JSValue float)
    : option (list (JSValue float)) :=
  match input with
  | JArray items => Some items
  | JString text =>
    match JSON_parse text with
    | Some (JArray items) => Some items
    | _ => None
    end
  | _ => None
  end.

(** *** The place of a real number between two mantissas *)

(** [u] lies in [[m, m + 1)], at the place that the round bit and the
    sticky bit of the record tell: on [m], below the middle, on it or
    above it. *)
Definition located (u : R) (mrs : shr_record) : Prop :=
  (IZR (shr_m mrs) <= u < IZR (shr_m mrs) + 1)%R
  ∧ match shr_r mrs, shr_s mrs with
    | false, false => u = IZR (shr_m mrs)
    | false, true => (IZR (shr_m mrs) < u < IZR (shr_m mrs) + / 2)%R
    | true, false => u = (IZR (shr_m mrs) + / 2)%R
    | true, true => (IZR (shr_m mrs) + / 2 < u)%R
    end.

(** The power of two [2^e] as a real number. *)
Definition bpow (e : Z) : R := powerRZ 2 e.

(** *** Example data *)

(** The text [[1,"x",3]]. *)
Definition textWithString : string :=
  "[1," +:+ doubleQuote +:+ "x" +:+ doubleQuote +:+ ",3]".

(** An array of 64 numbers whose first element is [Infinity], and a JSON
    text that parses to it. *)
Definition withInfinity : list (JSValue float) :=
  JNumber infinity :: replicate 63 (JNumber 0%float).

Definition textWithInfinity : string :=
  "[1e999" +:+ foldr String.append "]" (replicate 63 ",0").

(** Three scored 10×10 regions: [regionB] covers 64% of [regionA],
    [regionC] 4% of it, and [regionD] exactly 30% of it. *)
Definition regionA : Region :=
  mkRegion 0 0 10 10 60 5 5 (Fin (6 # 10)) (Some (5 # 10)).
Definition regionB : Region :=
  mkRegion 2 2 10 10 60 7 7 (Fin (6 # 10)) (Some (9 # 10)).
Definition regionC : Region :=
  mkRegion 8 8 10 10 60 13 13 (Fin (6 # 10)) (Some (9 # 10)).
Definition regionD : Region :=
  mkRegion 7 0 10 10 60 12 5 (Fin (6 # 10)) (Some (9 # 10)).

(** Codecs with fixed answers: a 120×300 image, a 100×100 image and a
    640×480 image, the last two with a resized buffer of 112×112×3
    bytes. *)
Definition narrowCodec : Sharp :=
  fixedSharp (mkMetadata (Some 120) (Some 300) (Some "png")) [] [] [].
Definition smallCodec : Sharp :=
  fixedSharp (mkMetadata (Some 100) (Some 100) (Some "jpeg"))
    [] [] (replicate (Z.to_nat 37632) 0).
Definition largeCodec : Sharp :=
  fixedSharp (mkMetadata (Some 640) (Some 480) (Some "jpeg"))
    [] [] (replicate (Z.to_nat 37632) 0).

(** A scoring function for examples. *)
Definition constantScore : list Z → Z → Z → Region → Q := λ _ _ _ _, 1%Q.

(** A 640×480 image that decodes to a single channel, for which the cover
    resize returns 112×112 bytes, and one whose header decodes and whose
    pixel data does not, for which the resize fails. *)
Definition greyCodec : Sharp :=
  fixedSharp (mkMetadata (Some 640) (Some 480) (Some "jpeg"))
    [] [] (replicate (Z.to_nat 12544) 0).

Definition truncatedCodec : Sharp :=
  {| sharpMetadata := λ _, Ok (mkMetadata (Some 640) (Some 480) (Some "jpeg"));
     sharpGreyscale := λ _ _ _, Err "Input buffer has corrupt header";
     sharpEdges := λ _ _ _, Err "Input buffer has corrupt header";
     sharpCover := λ _ _ _, Err "Input buffer has corrupt header" |}.

(** A 400×400 edge image with two square outlines of side 34, one pixel
    thick, at (40, 40) and (120, 40), a codec that returns it, and the
    two regions found on it. *)
Definition onOutline (x0 y0 side x y : Z) : bool :=
  inRectangle x0 y0 side side x y
  && negb (inRectangle (x0 + 1) (y0 + 1) (side - 2) (side - 2) x y).

Definition twoOutlines : list Z :=
  tabulate (Z.to_nat (400 * 400)) 0
    (λ i, if onOutline 40 40 34 (i mod 400) (i / 400)
             || onOutline 120 40 34 (i mod 400) (i / 400)
          then 200 else 0).

Definition twoFacesCodec : Sharp :=
  fixedSharp (mkMetadata (Some 640) (Some 480) (Some "jpeg"))
    [] twoOutlines (replicate (Z.to_nat 37632) 0).

Definition outlineLeft : Region :=
  mkRegion 40 40 33 33 132 (113 # 2) (113 # 2) (Fin (132 # 1089)) (Some 1%Q).
Definition outlineRight : Region :=
  mkRegion 120 40 33 33 132 (273 # 2) (113 # 2) (Fin (132 # 1089)) (Some 1%Q).


(** *** More definitions used to state the properties *)

#[local] Open Scope string_scope.
#[local] Open Scope list_scope.
#[local] Open Scope Z_scope.

(** No later element overlaps an earlier one too much. *)
Definition separated (earlier later : Region) : Prop :=
  overlapsTooMuch later earlier = false.

(** The sum of the pixel counts of a list of regions. *)
Definition totalSize (regions : list Region) : Z :=
  foldr (λ r total, region_size r + total) 0 regions.

(** A spec float and its opposite, or twice the same [NaN] or zero. *)
Definition mirrored (d d' : spec_float) : Prop :=
  d' = SFopp d ∨ d' = d ∧ (d = S754_nan ∨ ∃ s, d = S754_zero s).

(** The spec floats that are not below zero: [NaN], the zeros, and what has
    a positive sign. *)
Definition notNegative (d : spec_float) : Prop :=
  match d with
  | S754_nan | S754_zero _ => True
  | S754_infinity s | S754_finite s _ _ => s = false
  end.

(** Some non-empty end of [text] is a beginning of [needle]. *)
Fixpoint endsInto (text needle : string) : bool :=
  match text with
  | EmptyString => false
  | String _ rest => String.prefix text needle || endsInto rest needle
  end.

Definition digitOrDash (c : ascii) : Prop :=
  isDigit c = true ∨ c = "-"%char.

(** The square root of the sum of the squares, summed from 0 in the order
    of the components. *)
Definition euclideanNorm (numbers : list float) : float :=
  PrimFloat.sqrt (foldl (λ sum x, sum + x * x)%float 0%float numbers).

(** The result of a comparison of [stored] with [newEmbedding]. *)
Definition comparisonOf (similarityThreshold : float)
    (stored : list (JSValue float))
    (newEmbedding : list float) : Result Comparison :=
  if negb (length newEmbedding =? length stored)%nat then
    Err ("Embedding dimension mismatch. New: "
         +:+ showZ (Z.of_nat (length newEmbedding)) +:+ ", Stored: "
         +:+ showZ (Z.of_nat (length stored)))
  else
    rbind (calculateCosineSimilarity (JArray stored) (vectorOf newEmbedding))
      (λ similarity,
         Ok {| cmp_success := true;
               cmp_isMatch := (similarityThreshold <=? similarity)%float;
               cmp_similarity := roundToFour similarity;
               cmp_threshold := similarityThreshold |}).

(** *** More example data *)

(** A square ring of intensity 200, [thickness] pixels thick, with outer
    side [side] and top-left corner [(x0, y0)], on a background of 0. *)
Definition ringBuffer (width height x0 y0 side thickness : Z) : list Z :=
  tabulate (Z.to_nat (width * height)) 0
    (λ i, if inRectangle x0 y0 side side (i mod width) (i / width)
             && negb (inRectangle (x0 + thickness) (y0 + thickness)
                        (side - 2 * thickness) (side - 2 * thickness)
                        (i mod width) (i / width))
          then 200 else 0).

(** The candidate that seeding finds on a 40×40 image with the ring of
    outer side 12 and thickness 2 at (4, 4), and the region it becomes. *)
Definition ringCandidate : Region :=
  mkRegion 4 4 11 11 80 (19 # 2) (19 # 2) (Fin (80 # 121)) None.

Definition ringRegion : Region :=
  mkRegion 4 4 11 11 80 (19 # 2) (19 # 2) (Fin (80 # 121)) (Some 1%Q).

(** A 640×480 JPEG whose edge image is a ring of outer side 34 and
    thickness 1.  Its greyscale buffers are empty, so that the statistics
    and the blur variance are [NaN], which no check rejects: the pipeline
    accepts it.  A file of 4096 bytes stands for it. *)
Definition faceCodec : Sharp :=
  fixedSharp (mkMetadata (Some 640) (Some 480) (Some "JPEG"))
    [] (ringBuffer 400 400 40 40 34 1) (replicate (Z.to_nat 37632) 0).

Definition faceFile : list Z := replicate (Z.to_nat 4096) 0.

(** The same image with nothing in its edge image. *)
Definition blankCodec : Sharp :=
  fixedSharp (mkMetadata (Some 640) (Some 480) (Some "jpeg"))
    [] (replicate (Z.to_nat 160000) 0) (replicate (Z.to_nat 37632) 0).

(** Models with a fixed output. *)
Definition planarSession : Session := λ _, Ok [3; 4]%float.
Definition zeroSession : Session := λ _, Ok [0; 0]%float.

(** A stored embedding of 64 ones. *)
Definition storedOnes : list (JSValue float) :=
  replicate 64 (JNumber 1%float).

(** The region that face finding returns on the ring of [faceCodec]. *)
Definition ringFace : Region :=
  mkRegion 40 40 33 33 132 (113 # 2) (113 # 2) (Fin (132 # 1089)) (Some 1%Q).

(** The region grown from (5, 6) on a 12×12 image with a solid square of
    side 5 at (3, 4). *)
Definition grownSquare : Grown :=
  (growRegion (squareBuffer 12 12 3 4 5) 12 12 5 6 ∅ 100).1.

(** The seven codec calls of a complete run. *)
Definition completeRun : list CodecCall :=
  [CallMetadata; CallGreyscale 224 224; CallGreyscale 300 300;
   CallEdges 400 400; CallMetadata; CallMetadata; CallCover 112 112].

#[local] Open Scope list_scope.
#[local] Open Scope Z_scope.


(** * Properties *)

#[local] Open Scope Z_scope.

(** *** Termination of region growing *)

Lemma elem_of_cellSet width height i :
  i ∈ cellSet width height ↔ 0 ≤ i < width * height.
Proof.
  unfold cellSet. rewrite elem_of_list_to_set, elem_of_seqZ. lia.
Qed.

Lemma size_cellSet width height :
  size (cellSet width height) = Z.to_nat (width * height).
Proof.
  unfold cellSet. rewrite size_list_to_set by apply NoDup_seqZ.
  apply length_seqZ.
Qed.

Lemma index_in_bounds width height x y :
  0 ≤ x < width → 0 ≤ y < height → 0 ≤ y * width + x < width * height.
Proof. intros. nia. Qed.

Lemma skip_false width height (visited : gset Z) x y :
  (bool_decide (y * width + x ∈ visited)
    || (x <? 0) || (x >=? width) || (y <? 0) || (y >=? height)) = false →
  (y * width + x ∉ visited) ∧ 0 ≤ x < width ∧ 0 ≤ y < height.
Proof.
  rewrite !orb_false_iff, bool_decide_eq_false, !Z.geb_leb, !Z.ltb_ge, !Z.leb_gt.
  intuition lia.
Qed.

Lemma growLoop_total fuel buffer width height threshold stack visited region :
  (length stack + 8 * size (cellSet width height ∖ visited) ≤ fuel)%nat →
  is_Some (growLoop fuel buffer width height threshold stack visited region).
Proof.
  revert stack visited region.
  induction fuel as [|fuel IH]; intros stack visited region Hfuel;
    destruct stack as [|[x y] rest]; cbn [growLoop length] in *;
    [eauto | lia | eauto |].
  destruct (bool_decide _ || _ || _ || _ || _) eqn:Hskip.
  { apply IH. lia. }
  destruct (bufferBelow _ _ _).
  { apply IH. lia. }
  apply skip_false in Hskip as (Hnew & Hx & Hy).
  apply IH. rewrite length_app, length_rev. cbn [neighbours length].
  set (index := y * width + x) in *.
  assert (size (cellSet width height ∖ ({[index]} ∪ visited))
          < size (cellSet width height ∖ visited))%nat; [|lia].
  apply subset_size. apply strict_spec_alt. split; [set_solver|].
  intros Heq.
  assert (Hin : index ∈ cellSet width height ∖ visited).
  { apply elem_of_difference. split; [|done].
    apply elem_of_cellSet. by apply index_in_bounds. }
  rewrite <- Heq in Hin. set_solver.
Qed.

Lemma growRegion_runs buffer width height startX startY visited threshold :
  growLoop (growFuel width height) buffer width height threshold
    [(startX, startY)] visited (growStart startX startY)
  = Some (growRegion buffer width height startX startY visited threshold).
Proof.
  unfold growRegion.
  destruct (growLoop_total (growFuel width height) buffer width height
              threshold [(startX, startY)] visited
              (growStart startX startY)) as [result ->]; [|done].
  unfold growFuel. cbn [length].
  assert (size (cellSet width height ∖ visited)
          ≤ Z.to_nat (width * height))%nat; [|lia].
  rewrite <- size_cellSet. apply subseteq_size. set_solver.
Qed.

(** *** Region growing on a solid rectangle *)

Lemma NoDup_list_prod {A B} (l : list A) (k : list B) :
  NoDup l → NoDup k → NoDup (list_prod l k).
Proof.
  intros Hl Hk. induction Hl as [|a l Ha Hl IH]; simpl; [constructor|].
  apply NoDup_app. split_and!; [|  | done].
  - apply NoDup_fmap_2; [|done]. by intros ?? [= ->].
  - intros [a' b] [b' [[= -> ->] _]]%list_elem_of_fmap Hin.
    apply list_elem_of_In, in_prod_iff in Hin as [Hin _].
    by apply Ha, list_elem_of_In.
Qed.

Lemma elem_of_neighbours x y x' y' :
  (x', y') ∈ neighbours x y
  ↔ Z.abs (x' - x) ≤ 1 ∧ Z.abs (y' - y) ≤ 1 ∧ (x', y') ≠ (x, y).
Proof.
  unfold neighbours. rewrite !elem_of_cons, elem_of_nil. split.
  - intros Hin. destruct_or! Hin; simplify_eq;
      (split_and!; [lia | lia | intros [=]; lia]).
  - intros (Hx & Hy & Hne).
    assert (Hx' : x' = x - 1 ∨ x' = x ∨ x' = x + 1) by lia.
    assert (Hy' : y' = y - 1 ∨ y' = y ∨ y' = y + 1) by lia.
    destruct Hx' as [-> | [-> | ->]], Hy' as [-> | [-> | ->]]; auto 10.
Qed.

Section SolidRectangle.
Variables (buffer : list Z) (width height threshold : Z).
Variables (x0 y0 w h : Z).
Hypothesis Hx0 : 0 ≤ x0.
Hypothesis Hy0 : 0 ≤ y0.
Hypothesis HxW : x0 + w ≤ width.
Hypothesis HyH : y0 + h ≤ height.

#[local] Abbreviation inRect := (insideRect x0 y0 w h).
#[local] Abbreviation idx := (pixelIndex width).

(** Inside the image, exactly the pixels of the rectangle reach the
    admission threshold. *)
Hypothesis Hbuf : ∀ x y, 0 ≤ x < width → 0 ≤ y < height →
  bufferBelow buffer (y * width + x) threshold = false ↔ inRect (x, y).

Variables (sx sy : Z).
Hypothesis Hseed : inRect (sx, sy).

#[local] Abbreviation Inv := (GrowInvariant width x0 y0 w h sx sy).

Lemma idx_inj p q : inRect p → inRect q → idx p = idx q → p = q.
Proof.
  destruct p as [x y], q as [x' y']. unfold insideRect, pixelIndex. simpl.
  intros ?? Heq. assert (y = y') by nia. subst. f_equal. lia.
Qed.

Lemma Inv_init : Inv [(sx, sy)] ∅ (growStart sx sy) [].
Proof.
  destruct Hseed as [??]; simpl in *. split; simpl.
  - constructor.
  - intros p Hp. inv Hp.
  - intros i. split; [by intros ?%not_elem_of_empty|].
    intros (p & Hp & _). inv Hp.
  - done.
  - lia.
  - intros p Hp. inv Hp.
  - intros p q Hp. inv Hp.
  - right. apply list_elem_of_here.
Qed.

Lemma Inv_skip x y rest visited region seen :
  Inv ((x, y) :: rest) visited region seen →
  (inRect (x, y) → (x, y) ∈ seen) →
  Inv rest visited region seen.
Proof.
  intros [] Hseen. split; try done.
  - intros p q Hp Hq Hrect.
    destruct (inv_closed0 p q Hp Hq Hrect) as [|[->|]%elem_of_cons]; auto.
  - destruct inv_seed0 as [|[[= -> ->]|]%elem_of_cons]; auto.
Qed.

Lemma Inv_extend x y rest visited region seen :
  Inv ((x, y) :: rest) visited region seen →
  inRect (x, y) → y * width + x ∉ visited →
  Inv (rev (neighbours x y) ++ rest) ({[ y * width + x ]} ∪ visited)
      (admitPixel region x y) ((x, y) :: seen).
Proof.
  intros [] Hrect Hnew. split.
  - constructor; [|done]. intros Hin. apply Hnew, inv_visited0. eauto.
  - intros p [->|]%elem_of_cons; auto.
  - intros i. rewrite elem_of_union, elem_of_singleton, inv_visited0.
    split.
    + intros [->|(p & ? & ->)]; [exists (x, y)|exists p];
        (split; [|done]); [apply list_elem_of_here|by apply list_elem_of_further].
    + intros (p & [->|]%elem_of_cons & ->); [by left|right; eauto].
  - simpl. rewrite inv_size0. lia.
  - destruct Hrect; simpl in *. lia.
  - intros p [->|Hp]%elem_of_cons; simpl; [lia|].
    specialize (inv_cover0 p Hp). lia.
  - intros p q [->|Hp]%elem_of_cons Hq Hq'.
    + right. apply elem_of_app. left. by apply elem_of_reverse.
    + destruct (inv_closed0 p q Hp Hq Hq') as [|[->|]%elem_of_cons].
      * left. by right.
      * left. by left.
      * right. apply elem_of_app. by right.
  - destruct inv_seed0 as [|[[= -> ->]|]%elem_of_cons].
    + left. by right.
    + left. by left.
    + right. apply elem_of_app. by right.
Qed.

Lemma growLoop_Inv fuel stack visited region seen result :
  Inv stack visited region seen →
  growLoop fuel buffer width height threshold stack visited region
    = Some result →
  ∃ seen', Inv [] result.2 result.1 seen'.
Proof.
  revert stack visited region seen.
  induction fuel as [|fuel IH]; intros stack visited region seen HI;
    destruct stack as [|[x y] rest]; cbn [growLoop];
    try (intros [= <-]; by exists seen).
  destruct (bool_decide _ || _ || _ || _ || _) eqn:Hskip.
  { apply IH with (seen := seen). apply Inv_skip with x y; [done|].
    intros Hrect. destruct Hrect as [??]; simpl in *.
    rewrite !orb_true_iff, bool_decide_eq_true in Hskip.
    destruct Hskip as [[[[Hv|?]|?]|?]|?]; try lia.
    apply (inv_visited _ _ _ _ _ _ _ _ _ _ _ HI) in Hv as (p & Hp & Hidx).
    assert (p = (x, y)) as ->; [|done].
    apply idx_inj; [by apply (inv_rect _ _ _ _ _ _ _ _ _ _ _ HI) | done | done]. }
  apply skip_false in Hskip as (Hnew & Hx & Hy).
  destruct (bufferBelow _ _ _) eqn:Hbelow.
  { apply IH with (seen := seen). apply Inv_skip with x y; [done|].
    intros Hrect. apply Hbuf in Hrect; [congruence|done..]. }
  apply IH with (seen := (x, y) :: seen). apply Inv_extend; [done| |done].
  by apply Hbuf.
Qed.

(** With an empty stack, every pixel of the rectangle has been seen: walk
    from the seed, one 8-neighbour step at a time. *)
Lemma Inv_final_all visited region seen :
  Inv [] visited region seen → ∀ p, inRect p → p ∈ seen.
Proof.
  intros HI.
  assert (Hseed' : (sx, sy) ∈ seen).
  { destruct (inv_seed _ _ _ _ _ _ _ _ _ _ _ HI) as [|Hin]; [done|inv Hin]. }
  assert (Hstep : ∀ p q, p ∈ seen → q ∈ neighbours p.1 p.2 → inRect q →
                         q ∈ seen).
  { intros p q Hp Hq Hr.
    destruct (inv_closed _ _ _ _ _ _ _ _ _ _ _ HI p q Hp Hq Hr) as [|Hin]; [done|inv Hin]. }
  assert (Hcol : ∀ n x, Z.abs (x - sx) ≤ Z.of_nat n → inRect (x, sy) →
                        (x, sy) ∈ seen).
  { induction n as [|n IH]; intros x Hd Hr.
    - assert (x = sx) as -> by lia. done.
    - destruct (decide (x = sx)) as [->|Hne]; [done|].
      destruct Hseed as [??], Hr as [??]; simpl in *.
      destruct (Z_lt_le_dec x sx).
      + apply (Hstep (x + 1, sy)).
        * apply IH; [lia|]. split; simpl; lia.
        * apply elem_of_neighbours. simpl. split_and!; [lia..|].
          intros [= ?]. lia.
        * split; simpl; lia.
      + apply (Hstep (x - 1, sy)).
        * apply IH; [lia|]. split; simpl; lia.
        * apply elem_of_neighbours. simpl. split_and!; [lia..|].
          intros [= ?]. lia.
        * split; simpl; lia. }
  assert (Hrow : ∀ n x y, Z.abs (y - sy) ≤ Z.of_nat n → inRect (x, y) →
                          (x, y) ∈ seen).
  { induction n as [|n IH]; intros x y Hd Hr.
    - assert (y = sy) as -> by lia.
      apply (Hcol (Z.to_nat (Z.abs (x - sx)))); [lia|done].
    - destruct (decide (y = sy)) as [->|Hne].
      { apply (Hcol (Z.to_nat (Z.abs (x - sx)))); [lia|done]. }
      destruct Hseed as [??], Hr as [??]; simpl in *.
      destruct (Z_lt_le_dec y sy).
      + apply (Hstep (x, y + 1)).
        * apply IH; [lia|]. split; simpl; lia.
        * apply elem_of_neighbours. simpl. split_and!; [lia..|].
          intros [= ?]. lia.
        * split; simpl; lia.
      + apply (Hstep (x, y - 1)).
        * apply IH; [lia|]. split; simpl; lia.
        * apply elem_of_neighbours. simpl. split_and!; [lia..|].
          intros [= ?]. lia.
        * split; simpl; lia. }
  intros [x y] Hr. apply (Hrow (Z.to_nat (Z.abs (y - sy)))); [lia|done].
Qed.

Lemma elem_of_rectCells p : p ∈ (rectCells x0 y0 w h) ↔ inRect p.
Proof.
  destruct p as [x y]. unfold rectCells, insideRect.
  rewrite list_elem_of_In, in_prod_iff, <- !list_elem_of_In, !elem_of_seqZ.
  simpl. lia.
Qed.

Lemma Inv_final visited region seen :
  Inv [] visited region seen →
  region = mkGrown x0 (x0 + w - 1) y0 (y0 + h - 1) (w * h).
Proof.
  intros HI. pose proof (Inv_final_all _ _ _ HI) as Hall.
  assert (Hperm : seen ≡ₚ (rectCells x0 y0 w h)).
  { apply NoDup_Permutation.
    - apply (inv_nodup _ _ _ _ _ _ _ _ _ _ _ HI).
    - apply NoDup_list_prod; apply NoDup_seqZ.
    - intros p. rewrite elem_of_rectCells. split; [|by apply Hall].
      apply (inv_rect _ _ _ _ _ _ _ _ _ _ _ HI). }
  assert (Hlen : gsize region = w * h).
  { rewrite (inv_size _ _ _ _ _ _ _ _ _ _ _ HI), Hperm. unfold rectCells.
    rewrite length_prod, !length_seqZ.
    destruct Hseed as [??]; simpl in *. lia. }
  destruct Hseed as [??]; simpl in *.
  pose proof (inv_box _ _ _ _ _ _ _ _ _ _ _ HI) as [[??] [??]].
  pose proof (inv_cover _ _ _ _ _ _ _ _ _ _ _ HI (x0, y0)) as Hlo.
  pose proof (inv_cover _ _ _ _ _ _ _ _ _ _ _ HI (x0 + w - 1, y0 + h - 1)) as Hhi.
  simpl in *.
  destruct Hlo; [apply Hall; split; simpl; lia|].
  destruct Hhi; [apply Hall; split; simpl; lia|].
  destruct region as [a b c d e]; simpl in *. f_equal; lia.
Qed.

Lemma growRegion_rectangle :
  (growRegion buffer width height sx sy ∅ threshold).1
  = mkGrown x0 (x0 + w - 1) y0 (y0 + h - 1) (w * h).
Proof.
  pose proof (growRegion_runs buffer width height sx sy ∅ threshold) as Hrun.
  destruct (growLoop_Inv _ _ _ _ _ _ Inv_init Hrun) as [seen HI].
  exact (Inv_final _ _ _ HI).
Qed.
End SolidRectangle.


(** *** The synthetic buffers *)

Lemma tabulate_lookup n i f k :
  (k < n)%nat → tabulate n i f !! k = Some (f (i + Z.of_nat k)).
Proof.
  revert i k. induction n as [|n IH]; intros i k Hk; [lia|].
  destruct k as [|k]; simpl.
  - f_equal. f_equal. lia.
  - rewrite IH by lia. f_equal. f_equal. lia.
Qed.

Lemma bufferAt_rectangleBuffer width height x0 y0 w h x y :
  0 ≤ x < width → 0 ≤ y < height →
  bufferAt (rectangleBuffer width height x0 y0 w h) (y * width + x)
  = Some (if inRectangle x0 y0 w h x y then 200 else 0).
Proof.
  intros Hx Hy. unfold bufferAt, rectangleBuffer.
  pose proof (index_in_bounds width height x y Hx Hy) as Hi.
  destruct (Z.ltb_spec (y * width + x) 0) as [?|_]; [lia|].
  rewrite tabulate_lookup by lia.
  rewrite Z2Nat.id, Z.add_0_l by lia.
  rewrite Z.add_comm, Z.mod_add, Z.div_add by lia.
  rewrite Z.mod_small, Z.div_small by lia. done.
Qed.

Lemma inRectangle_spec x0 y0 w h x y :
  inRectangle x0 y0 w h x y = true ↔ x0 ≤ x < x0 + w ∧ y0 ≤ y < y0 + h.
Proof.
  unfold inRectangle. rewrite !andb_true_iff, !Z.leb_le, !Z.ltb_lt. lia.
Qed.

Lemma bufferBelow_rectangleBuffer width height x0 y0 w h threshold x y :
  0 < threshold ≤ 200 → 0 ≤ x < width → 0 ≤ y < height →
  bufferBelow (rectangleBuffer width height x0 y0 w h) (y * width + x)
    threshold = false
  ↔ x0 ≤ x < x0 + w ∧ y0 ≤ y < y0 + h.
Proof.
  intros Ht Hx Hy. unfold bufferBelow.
  rewrite bufferAt_rectangleBuffer by done.
  rewrite <- inRectangle_spec.
  destruct (inRectangle x0 y0 w h x y); rewrite Z.ltb_ge || rewrite Z.ltb_nlt;
    split; (done || lia).
Qed.

(** Region growing on a solid rectangle, for any admission threshold that
    separates 200 from 0. *)
Lemma growRegion_solid_rectangle width height x0 y0 w h sx sy threshold :
  0 < threshold ≤ 200 →
  0 ≤ x0 → 0 ≤ y0 → x0 + w ≤ width → y0 + h ≤ height →
  x0 ≤ sx < x0 + w → y0 ≤ sy < y0 + h →
  (growRegion (rectangleBuffer width height x0 y0 w h) width height sx sy ∅
     threshold).1
  = mkGrown x0 (x0 + w - 1) y0 (y0 + h - 1) (w * h).
Proof.
  intros Ht Hx0 Hy0 HxW HyH Hsx Hsy.
  apply growRegion_rectangle; try done.
  intros x y Hx Hy. by apply bufferBelow_rectangleBuffer.
Qed.

(** C7. On a buffer that is a solid axis-aligned square of intensity 200
    on a background of 0, [growRegion] seeded at any pixel of the square,
    with admission threshold 100 and an empty [visited] set, returns the
    region whose [minX], [maxX], [minY], [maxY] are the bounds of the square
    and whose [size] is its number of pixels. *)
Theorem growRegion_solid_square width height x0 y0 side sx sy :
  0 ≤ x0 → 0 ≤ y0 → x0 + side ≤ width → y0 + side ≤ height →
  x0 ≤ sx < x0 + side → y0 ≤ sy < y0 + side →
  (growRegion (squareBuffer width height x0 y0 side) width height sx sy ∅
     100).1
  = {| minX := x0; maxX := x0 + side - 1;
       minY := y0; maxY := y0 + side - 1;
       gsize := side * side |}.
Proof.
  intros. apply growRegion_solid_rectangle; (done || lia).
Qed.

Lemma growRegion_solid_square_witness :
  (growRegion (squareBuffer 12 12 3 4 5) 12 12 5 6 ∅ 100).1
  = {| minX := 3; maxX := 7; minY := 4; maxY := 8; gsize := 25 |}.
Proof.
  apply (growRegion_solid_square 12 12 3 4 5 5 6); lia.
Defined.

(** C2. The candidate regions pushed by the seeding step can have width 0
    and a density that is infinite or above 1: a one-pixel-wide vertical
    line of 161 edge pixels gives width 0 and density [Infinity]; a solid
    20×20 block gives width and height 19 and density 400/361. *)
Theorem seedRegions_degenerate_candidates :
  seedRegions (rectangleBuffer 400 400 48 40 1 161) 400 400 40 25
  = [ {| region_x := 48; region_y := 40;
         region_width := 0; region_height := 160; region_size := 161;
         region_centerX := 96 # 2; region_centerY := 240 # 2;
         region_density := PosInf; region_faceScore := None |} ]
  ∧ seedRegions (squareBuffer 400 400 40 40 20) 400 400 40 25
    = [ {| region_x := 40; region_y := 40;
           region_width := 19; region_height := 19; region_size := 400;
           region_centerX := 99 # 2; region_centerY := 99 # 2;
           region_density := Fin (400 # 361); region_faceScore := None |} ].
Proof. split; vm_compute; reflexivity. Qed.


(** *** Overlap resolution *)

Lemma Qltb_lt a b : Qltb a b = true ↔ (a < b)%Q.
Proof.
  unfold Qltb. rewrite negb_true_iff, <- not_true_iff_false, Qle_bool_iff.
  split; [apply Qnot_le_lt | apply Qlt_not_le].
Qed.

Lemma Qltb_ge a b : Qltb a b = false ↔ (b <= a)%Q.
Proof.
  unfold Qltb. rewrite negb_false_iff. apply Qle_bool_iff.
Qed.

Lemma byScoreDescending_pos a b :
  Qltb 0 (byScoreDescending a b) = true ↔ (scoreOrZero a < scoreOrZero b)%Q.
Proof.
  unfold byScoreDescending. rewrite Qltb_lt. symmetry. apply Qlt_minus_iff.
Qed.

Lemma insertSorted_perm {A} (compare : A → A → Q) a sorted :
  insertSorted compare a sorted ≡ₚ a :: sorted.
Proof.
  induction sorted as [|b rest IH]; simpl; [done|].
  destruct (Qltb 0 (compare a b)); [|done].
  rewrite IH. apply Permutation_swap.
Qed.

Lemma arraySort_perm {A} (compare : A → A → Q) array :
  arraySort compare array ≡ₚ array.
Proof.
  induction array as [|a array IH]; simpl; [done|].
  by rewrite insertSorted_perm, IH.
Qed.

(** The sorted array starts with a region of maximal score. *)
Lemma arraySort_head_max regions :
  regions ≠ [] →
  ∃ top rest,
    arraySort byScoreDescending regions = top :: rest
    ∧ ∀ r, r ∈ regions → (scoreOrZero r <= scoreOrZero top)%Q.
Proof.
  induction regions as [|a regions IH]; [done|]. intros _.
  destruct regions as [|b regions].
  { exists a, []. split; [done|]. intros r ->%list_elem_of_singleton.
    apply Qle_refl. }
  destruct IH as (top & rest & Hsort & Hmax); [done|].
  change (arraySort byScoreDescending (a :: b :: regions))
    with (insertSorted byScoreDescending a
            (arraySort byScoreDescending (b :: regions))).
  rewrite Hsort. simpl.
  destruct (Qltb 0 (byScoreDescending a top)) eqn:Hcmp.
  - apply byScoreDescending_pos in Hcmp.
    eexists _, _. split; [done|].
    intros r [->|Hr]%elem_of_cons; [by apply Qlt_le_weak|by apply Hmax].
  - assert (Hle : (scoreOrZero top <= scoreOrZero a)%Q).
    { apply Qnot_lt_le. intros Hlt%byScoreDescending_pos. congruence. }
    eexists _, _. split; [done|].
    intros r [->|Hr]%elem_of_cons; [apply Qle_refl|].
    eapply Qle_trans; [by apply Hmax|done].
Qed.

(** The greedy loop only appends: it keeps what is accepted and adds a
    sublist of what it is given. *)
Lemma acceptUnlessOverlap_foldl accepted regions :
  ∃ added,
    foldl acceptUnlessOverlap accepted regions = accepted ++ added
    ∧ added `sublist_of` regions.
Proof.
  revert accepted. induction regions as [|r regions IH]; intros accepted.
  { exists []. by rewrite app_nil_r. }
  simpl. unfold acceptUnlessOverlap at 2.
  destruct (existsb _ _).
  - destruct (IH accepted) as (added & -> & Hsub).
    exists added. split; [done|]. by apply sublist_cons.
  - destruct (IH (accepted ++ [r])) as (added & -> & Hsub).
    exists (r :: added). split; [by rewrite <- app_assoc|].
    by apply sublist_skip.
Qed.

(** C9. On a non-empty list, [removeOverlappingRegions] returns a
    non-empty list, made of input regions without repetition (a
    sub-multiset of the input); when every region of the list has a
    [faceScore], a region whose [faceScore] is maximal among the input is
    in it. *)
Theorem removeOverlappingRegions_keeps_top regions :
  regions ≠ [] →
  removeOverlappingRegions regions ≠ []
  ∧ removeOverlappingRegions regions ⊆+ regions
  ∧ (Forall (λ r, is_Some (region_faceScore r)) regions →
     ∃ top score,
       top ∈ removeOverlappingRegions regions
       ∧ region_faceScore top = Some score
       ∧ ∀ r s, r ∈ regions → region_faceScore r = Some s →
                (s <= score)%Q).
Proof.
  intros Hne. destruct (arraySort_head_max regions Hne)
    as (top & rest & Hsort & Hmax).
  assert (Hperm : top :: rest ≡ₚ regions).
  { rewrite <- Hsort. apply arraySort_perm. }
  assert (Htop : ∀ kept : list Region, top ∈ kept →
    Forall (λ r, is_Some (region_faceScore r)) regions →
    ∃ best score,
      best ∈ kept ∧ region_faceScore best = Some score
      ∧ ∀ r s, r ∈ regions → region_faceScore r = Some s → (s <= score)%Q).
  { intros kept Hin Hscored.
    assert (Hintop : top ∈ regions).
    { rewrite <- Hperm. apply list_elem_of_here. }
    rewrite Forall_forall in Hscored.
    destruct (Hscored top Hintop) as [score Hscore].
    exists top, score. split; [done|]. split; [done|].
    intros r s Hr Hs. specialize (Hmax r Hr).
    unfold scoreOrZero in Hmax. by rewrite Hs, Hscore in Hmax. }
  unfold removeOverlappingRegions.
  destruct (length regions <=? 1)%nat eqn:Hlen.
  - split; [done|]. split; [done|].
    apply Htop. rewrite <- Hperm. apply list_elem_of_here.
  - rewrite Hsort. simpl.
    change (acceptUnlessOverlap [] top) with [top].
    destruct (acceptUnlessOverlap_foldl [top] rest) as (added & -> & Hsub).
    split; [done|]. split.
    + rewrite <- Hperm. simpl. apply submseteq_skip.
      by apply sublist_submseteq.
    + apply Htop. apply list_elem_of_here.
Qed.

Lemma removeOverlappingRegions_keeps_top_witness :
  removeOverlappingRegions [regionA; regionB] ≠ []
  ∧ removeOverlappingRegions [regionA; regionB] ⊆+ [regionA; regionB]
  ∧ ∃ top score,
      top ∈ removeOverlappingRegions [regionA; regionB]
      ∧ region_faceScore top = Some score
      ∧ ∀ r s, r ∈ [regionA; regionB] → region_faceScore r = Some s →
               (s <= score)%Q.
Proof.
  destruct (removeOverlappingRegions_keeps_top [regionA; regionB])
    as (Hne & Hsub & Htop); [done|].
  split; [exact Hne|]. split; [exact Hsub|].
  apply Htop. apply Forall_cons. split; [by eexists|].
  apply Forall_cons. split; [by eexists|]. apply Forall_nil_2.
Defined.

Lemma calculateOverlapArea_comm a b :
  calculateOverlapArea a b = calculateOverlapArea b a.
Proof.
  unfold calculateOverlapArea.
  by rewrite (Z.max_comm (region_x a)), (Z.max_comm (region_y a)),
    (Z.min_comm (region_x a + _)), (Z.min_comm (region_y a + _)).
Qed.

Lemma overlapsTooMuch_comm a b : overlapsTooMuch a b = overlapsTooMuch b a.
Proof.
  unfold overlapsTooMuch.
  by rewrite calculateOverlapArea_comm, Z.min_comm.
Qed.

(** With a positive smaller area, the test [overlapArea / minArea > 0.3]
    is the strict inequality [3 minArea < 10 overlapArea]. *)
Lemma overlapsTooMuch_spec a b :
  0 < Z.min (regionArea a) (regionArea b) →
  overlapsTooMuch a b = true
  ↔ 3 * Z.min (regionArea a) (regionArea b) < 10 * calculateOverlapArea a b.
Proof.
  unfold overlapsTooMuch.
  generalize (calculateOverlapArea a b) (Z.min (regionArea a) (regionArea b)).
  intros o m Hm. unfold jsDiv.
  destruct (Qeq_bool (inject_Z m) 0) eqn:Hz.
  { apply Qeq_bool_iff in Hz. unfold Qeq in Hz. simpl in Hz. lia. }
  simpl. rewrite Qltb_lt.
  destruct m as [|p|p]; try lia.
  unfold Qlt, Qdiv, Qmult, Qinv, inject_Z. simpl. lia.
Qed.

Lemma removeOverlappingRegions_two a b :
  removeOverlappingRegions [a; b]
  = let '(first, second) :=
      if Qltb 0 (byScoreDescending a b) then (b, a) else (a, b) in
    if overlapsTooMuch a b then [first] else [first; second].
Proof.
  unfold removeOverlappingRegions. simpl.
  destruct (Qltb 0 (byScoreDescending a b)); simpl;
    unfold acceptUnlessOverlap; simpl;
    rewrite ?(overlapsTooMuch_comm b a);
    destruct (overlapsTooMuch a b); reflexivity.
Qed.

Lemma calculateOverlapArea_nonneg a b : 0 ≤ calculateOverlapArea a b.
Proof.
  unfold calculateOverlapArea. cbv zeta.
  destruct (_ && _) eqn:Hboth; [|done].
  apply andb_true_iff in Hboth as [Hx%Z.ltb_lt Hy%Z.ltb_lt]. nia.
Qed.

(** When the intersection is at most 30% of the smaller area, the test
    [overlapArea / minArea > 0.3] fails: the quotient is at most 0.3, or it
    is [NaN] when both areas are 0. *)
Lemma overlapsTooMuch_small a b :
  10 * calculateOverlapArea a b
  ≤ 3 * Z.min (regionArea a) (regionArea b) →
  overlapsTooMuch a b = false.
Proof.
  intros Hsmall. pose proof (calculateOverlapArea_nonneg a b) as Hnn.
  destruct (decide (0 < Z.min (regionArea a) (regionArea b))) as [Hpos|Hnot].
  - destruct (overlapsTooMuch a b) eqn:Hov; [|done].
    apply (overlapsTooMuch_spec a b Hpos) in Hov. lia.
  - assert (Hm : Z.min (regionArea a) (regionArea b) = 0) by lia.
    assert (Ho : calculateOverlapArea a b = 0) by lia.
    unfold overlapsTooMuch. cbv zeta. rewrite Hm, Ho. reflexivity.
Qed.

(** C3, as the code has it.  For two scored regions of positive width and
    height whose scores differ, when the intersection area is more than
    30% of the smaller area only the higher-scoring region is returned.
    For any two regions whose intersection area is at most 30% of the
    smaller area both are returned; when both are scored, the higher
    score comes first, and they keep their order when the scores are
    equal. *)
Theorem removeOverlappingRegions_pair a b :
  let overlap := calculateOverlapArea a b in
  let smaller := Z.min (regionArea a) (regionArea b) in
  (∀ sa sb,
     region_faceScore a = Some sa → region_faceScore b = Some sb →
     ¬ (sa == sb)%Q →
     0 < region_width a → 0 < region_height a →
     0 < region_width b → 0 < region_height b →
     3 * smaller < 10 * overlap →
     removeOverlappingRegions [a; b] = [if Qltb sa sb then b else a])
  ∧ (10 * overlap ≤ 3 * smaller →
     (removeOverlappingRegions [a; b] = [a; b]
      ∨ removeOverlappingRegions [a; b] = [b; a])
     ∧ ∀ sa sb,
         region_faceScore a = Some sa → region_faceScore b = Some sb →
         removeOverlappingRegions [a; b]
         = if Qltb sa sb then [b; a] else [a; b]).
Proof.
  intros overlap smaller. subst overlap smaller.
  assert (Hcmp : ∀ sa sb,
            region_faceScore a = Some sa → region_faceScore b = Some sb →
            Qltb 0 (byScoreDescending a b) = Qltb sa sb).
  { intros sa sb Ha Hb. unfold byScoreDescending, scoreOrZero.
    rewrite Ha, Hb. simpl.
    apply eq_true_iff_eq. rewrite !Qltb_lt. symmetry. apply Qlt_minus_iff. }
  split.
  - intros sa sb Ha Hb Hne Hwa Hha Hwb Hhb Hov.
    assert (Hpos : 0 < Z.min (regionArea a) (regionArea b)).
    { unfold regionArea. apply Z.min_glb_lt; by apply Z.mul_pos_pos. }
    apply (overlapsTooMuch_spec a b Hpos) in Hov.
    rewrite removeOverlappingRegions_two, (Hcmp sa sb Ha Hb), Hov.
    by destruct (Qltb sa sb).
  - intros Hsmall%overlapsTooMuch_small.
    rewrite removeOverlappingRegions_two, Hsmall. split.
    + destruct (Qltb 0 (byScoreDescending a b)); [by right|by left].
    + intros sa sb Ha Hb. rewrite (Hcmp sa sb Ha Hb).
      by destruct (Qltb sa sb).
Qed.

Lemma removeOverlappingRegions_pair_witness :
  removeOverlappingRegions [regionA; regionB] = [regionB]
  ∧ removeOverlappingRegions [regionA; regionC] = [regionC; regionA].
Proof.
  split.
  - apply (proj1 (removeOverlappingRegions_pair regionA regionB)
             (5 # 10) (9 # 10)); try done; vm_compute; congruence.
  - apply (proj2 (proj2 (removeOverlappingRegions_pair regionA regionC)
                    ltac:(vm_compute; congruence))
             (5 # 10) (9 # 10)); reflexivity.
Defined.

(** [regionD] intersects [regionA] in exactly 30% of the smaller area and
    their scores differ, and both are returned: at the boundary the
    lower-scoring region is not dropped. *)
Lemma overlap_of_exactly_30_percent_keeps_both :
  10 * calculateOverlapArea regionD regionA
  = 3 * Z.min (regionArea regionD) (regionArea regionA)
  ∧ region_faceScore regionD = Some (9 # 10)
  ∧ region_faceScore regionA = Some (5 # 10)
  ∧ ¬ (9 # 10 == 5 # 10)%Q
  ∧ removeOverlappingRegions [regionD; regionA] = [regionD; regionA]
  ∧ removeOverlappingRegions [regionA; regionD] = [regionD; regionA].
Proof. vm_compute. split_and!; congruence. Qed.


(** *** The detection passes and the pipeline *)

Lemma includes_here haystack needle :
  String.prefix needle haystack = true → includes haystack needle = true.
Proof. intros Hp. destruct haystack; cbn [includes]; by rewrite Hp. Qed.

Lemma includes_further c haystack needle :
  includes haystack needle = true →
  includes (String c haystack) needle = true.
Proof. intros Hp. cbn [includes]. rewrite Hp. apply orb_true_r. Qed.

Lemma prefix_append needle rest :
  String.prefix needle (needle +:+ rest) = true.
Proof.
  induction needle as [|c needle IH]; simpl; [by destruct rest|].
  destruct (Ascii.ascii_dec c c); [done|congruence].
Qed.

Lemma noFaceMessage_face : includes noFaceMessage "face" = true.
Proof. vm_compute. reflexivity. Qed.

Lemma multipleFacesMessage_face count :
  includes (multipleFacesMessage count) "face" = true.
Proof.
  unfold multipleFacesMessage.
  do 9 apply includes_further. apply includes_here.
  apply (prefix_append "face").
Qed.

Lemma outcome_tryCatch_await {A B} call (a : A) (k : A → Action B) handler :
  outcome (tryCatch (andThen (await call (Ok a)) k) handler)
  = outcome (tryCatch (k a) handler).
Proof.
  unfold await, andThen, tryCatch, outcome.
  by destruct (k a) as [calls [b|message]].
Qed.

Section PipelineProperties.
Context `{Sharp}.
Variable calculateFaceScore : list Z → Z → Z → Region → Q.

(** C4. [detectFacesInImage] tries the threshold pairs (40,25), (30,20),
    (20,15) in that order and stops at the first pass that returns a
    non-empty list of regions: the number of passes run is the position of
    that pass (3 when none succeeds).  It fails with the no-face message
    when all three passes return nothing, with the multiple-faces message
    carrying the count when the first non-empty pass returns more than one
    region, and returns the region when it returns exactly one. *)
Theorem detectFacesInImage_passes imageBuffer edgeBuffer :
  sharpEdges imageBuffer 400 400 = Ok edgeBuffer →
  let pass edgeThreshold regionThreshold :=
    findFaceRegions calculateFaceScore edgeBuffer 400 400
      edgeThreshold regionThreshold in
  let '(found, passesRun) :=
    if bool_decide (pass 40 25 ≠ []) then (pass 40 25, 1%nat)
    else if bool_decide (pass 30 20 ≠ []) then (pass 30 20, 2%nat)
    else (pass 20 15, 3%nat) in
  detectionPasses calculateFaceScore edgeBuffer 3 0 [] = (found, passesRun)
  ∧ outcome (detectFacesInImage calculateFaceScore imageBuffer)
    = match found with
      | [] =>
        Err "No face detected in the image. Please ensure a clear, front-facing photo with good lighting. Try adjusting brightness or contrast."
      | [region] => Ok region
      | _ :: _ :: _ =>
        Err ("Multiple faces detected ("
             +:+ showZ (Z.of_nat (length found))
             +:+ "). Please provide an image with only one person.")
      end.
Proof.
  intros Hedges pass.
  assert (Hpasses :
    detectionPasses calculateFaceScore edgeBuffer 3 0 []
    = if Nat.eqb (length (pass 40 25)) 0 then
        if Nat.eqb (length (pass 30 20)) 0 then (pass 20 15, 3%nat)
        else (pass 30 20, 2%nat)
      else (pass 40 25, 1%nat)) by reflexivity.
  assert (Hsettle : ∀ found : list Region,
    outcome (tryCatch
      (match found with
       | [] => reject noFaceMessage
       | first :: _ =>
         if (maxFaces <? length found)%nat
         then reject (multipleFacesMessage (length found))
         else resolve first
       end)
      (λ message,
         if includes message "face" then message
         else "Face detection failed: " +:+ message))
    = match found with
      | [] => Err noFaceMessage
      | [region] => Ok region
      | _ :: _ :: _ => Err (multipleFacesMessage (length found))
      end).
  { intros [|r [|r' rest]]; cbn [tryCatch outcome snd reject
      resolve length Nat.ltb Nat.leb maxFaces];
      by rewrite ?noFaceMessage_face, ?multipleFacesMessage_face. }
  unfold detectFacesInImage. rewrite Hedges, outcome_tryCatch_await.
  change (length edgeThresholds) with 3%nat. rewrite Hpasses.
  fold noFaceMessage.
  change (λ count : nat, "Multiple faces detected ("
             +:+ showZ (Z.of_nat count)
             +:+ "). Please provide an image with only one person.")
    with multipleFacesMessage.
  destruct (pass 40 25) as [|r1 rest1] eqn:H1; cbn [length Nat.eqb].
  2: { rewrite bool_decide_eq_true_2 by done.
       split; [done|]. exact (Hsettle (r1 :: rest1)). }
  rewrite bool_decide_eq_false_2 by auto.
  destruct (pass 30 20) as [|r2 rest2] eqn:H2; cbn [length Nat.eqb].
  2: { rewrite bool_decide_eq_true_2 by done.
       split; [done|]. exact (Hsettle (r2 :: rest2)). }
  rewrite bool_decide_eq_false_2 by auto.
  split; [done|]. exact (Hsettle (pass 20 15)).
Qed.

Lemma qualityChecks_low_resolution metadata byteLength w h :
  meta_width metadata = Some w → meta_height metadata = Some h →
  Z.min w h < 150 ∨ Z.max w h < 200 →
  ∃ reason, qualityChecks metadata byteLength = ([], Err reason).
Proof.
  intros Hw Hh Hlow. unfold qualityChecks. cbv zeta. rewrite Hw, Hh.
  destruct (meta_format metadata) as [format|]; cbn [andThen resolve reject];
    [|by eexists].
  destruct (negb (bool_decide (toLowerCase format ∈ supportedFormats)));
    cbn [throwIf andThen resolve reject]; [by eexists|].
  assert (Hres : dimBelow (dimMin (Some w) (Some h)) 150
                 || dimBelow (dimMax (Some w) (Some h)) 200 = true).
  { cbn. apply orb_true_iff. rewrite !Z.ltb_lt. done. }
  rewrite Hres. cbn [throwIf andThen resolve reject]. by eexists.
Qed.

Lemma validateImageQuality_low_resolution imageBuffer metadata w h :
  sharpMetadata imageBuffer = Ok metadata →
  meta_width metadata = Some w → meta_height metadata = Some h →
  Z.min w h < 150 ∨ Z.max w h < 200 →
  ∃ reason,
    validateImageQuality imageBuffer
    = ([CallMetadata], Err ("Image quality validation failed: " +:+ reason)).
Proof.
  intros Hmeta Hw Hh Hlow.
  destruct (qualityChecks_low_resolution metadata
              (Z.of_nat (length imageBuffer)) w h Hw Hh Hlow) as [reason Hq].
  exists reason. unfold validateImageQuality, await.
  rewrite Hmeta. cbn [andThen]. by rewrite Hq.
Qed.

(** C6. An image whose decoded width and height satisfy
    [min(width, height) < 150] or [max(width, height) < 200] is rejected by
    [validateImageQuality] with a [ValidationError]; [processFaceImage]
    then fails with the same error after the single [metadata()] call:
    no call that reads pixels (statistics, blur, edges, resize) is made. *)
Theorem low_resolution_rejected_first imageBuffer metadata w h :
  sharpMetadata imageBuffer = Ok metadata →
  meta_width metadata = Some w → meta_height metadata = Some h →
  Z.min w h < 150 ∨ Z.max w h < 200 →
  ∃ reason,
    outcome (validateImageQuality imageBuffer)
    = Err ("Image quality validation failed: " +:+ reason)
    ∧ outcome (processFaceImage calculateFaceScore imageBuffer)
      = Err ("Image quality validation failed: " +:+ reason)
    ∧ calls (processFaceImage calculateFaceScore imageBuffer)
      = [CallMetadata]
    ∧ Forall (λ call, readsPixels call = false)
        (calls (processFaceImage calculateFaceScore imageBuffer)).
Proof.
  intros Hmeta Hw Hh Hlow.
  destruct (validateImageQuality_low_resolution _ _ _ _ Hmeta Hw Hh Hlow)
    as [reason Hq].
  exists reason. unfold processFaceImage. rewrite Hq.
  cbn [andThen tryCatch outcome calls fst snd].
  split_and!; [done..|]. by repeat constructor.
Qed.
End PipelineProperties.


(** The first pass finds the two outlines of [twoOutlines]. *)
Lemma twoOutlines_found :
  findFaceRegions constantScore twoOutlines 400 400 40 25
  = [outlineLeft; outlineRight].
Proof. vm_compute. reflexivity. Qed.

(** Examples of the two theorems above on codecs with fixed answers. *)
Lemma detectFacesInImage_passes_witness :
  detectionPasses constantScore twoOutlines 3 0 []
  = ([outlineLeft; outlineRight], 1%nat)
  ∧ outcome (@detectFacesInImage twoFacesCodec constantScore [])
    = Err "Multiple faces detected (2). Please provide an image with only one person.".
Proof.
  pose proof (@detectFacesInImage_passes twoFacesCodec constantScore []
                twoOutlines eq_refl) as Hpasses.
  cbv beta zeta in Hpasses. rewrite twoOutlines_found in Hpasses.
  exact Hpasses.
Defined.

Lemma low_resolution_rejected_first_witness :
  ∃ reason,
    outcome (@validateImageQuality narrowCodec [])
    = Err ("Image quality validation failed: " +:+ reason)
    ∧ outcome (@processFaceImage narrowCodec constantScore [])
      = Err ("Image quality validation failed: " +:+ reason)
    ∧ calls (@processFaceImage narrowCodec constantScore []) = [CallMetadata]
    ∧ Forall (λ call, readsPixels call = false)
        (calls (@processFaceImage narrowCodec constantScore [])).
Proof.
  apply (@low_resolution_rejected_first narrowCodec constantScore []
           (mkMetadata (Some 120) (Some 300) (Some "png")) 120 300);
    [reflexivity.. | left; reflexivity].
Defined.

(** *** [preprocessImage] *)

Lemma preprocessImage_cases `{Sharp} imageBuffer metadata :
  sharpMetadata imageBuffer = Ok metadata →
  preprocessImage imageBuffer =
    if dimFalsy (meta_width metadata) || dimFalsy (meta_height metadata) then
      ([CallMetadata],
       Err "Image preprocessing failed: Invalid image: Unable to read dimensions")
    else if dimBelow (meta_width metadata) 50
            || dimBelow (meta_height metadata) 50 then
      ([CallMetadata],
       Err "Image preprocessing failed: Image too small: Minimum size is 50x50 pixels")
    else
      match sharpCover imageBuffer 112 112 with
      | Err message =>
        ([CallMetadata; CallCover 112 112],
         Err ("Image preprocessing failed: " +:+ message))
      | Ok processedImage =>
        if Z.of_nat (length processedImage) =? 112 * 112 * 3 then
          ([CallMetadata; CallCover 112 112], Ok processedImage)
        else
          ([CallMetadata; CallCover 112 112],
           Err ("Image preprocessing failed: "
                +:+ ("Processed image size mismatch. Expected "
                     +:+ showZ (112 * 112 * 3) +:+ ", got "
                     +:+ showZ (Z.of_nat (length processedImage)))))
      end.
Proof.
  intros Hmeta. unfold preprocessImage, await. rewrite Hmeta.
  cbn [andThen].
  destruct (dimFalsy (meta_width metadata) || dimFalsy (meta_height metadata));
    [reflexivity|].
  destruct (dimBelow (meta_width metadata) 50
            || dimBelow (meta_height metadata) 50); [reflexivity|].
  cbn [throwIf andThen resolve tryCatch app]. unfold targetSize.
  destruct (sharpCover imageBuffer 112 112) as [processedImage|message];
    [|reflexivity].
  destruct (Z.of_nat (length processedImage) =? 112 * 112 * 3); reflexivity.
Qed.

Lemma belowPreprocessFloor_spec metadata :
  belowPreprocessFloor metadata
  ↔ (dimFalsy (meta_width metadata) || dimFalsy (meta_height metadata))
    || (dimBelow (meta_width metadata) 50
        || dimBelow (meta_height metadata) 50) = true.
Proof.
  unfold belowPreprocessFloor, dimFalsy, dimBelow.
  destruct (meta_width metadata) as [w|], (meta_height metadata) as [h|];
    rewrite !orb_true_iff, ?Z.eqb_eq, ?Z.ltb_lt; naive_solver lia.
Qed.


Lemma qualityChecks_accepts metadata byteLength calls accepted :
  qualityChecks metadata byteLength = (calls, Ok accepted) →
  ∃ w h, meta_width metadata = Some w ∧ meta_height metadata = Some h
         ∧ 150 ≤ Z.min w h ∧ 200 ≤ Z.max w h.
Proof.
  unfold qualityChecks. cbv zeta.
  destruct (meta_format metadata) as [format|]; cbn [andThen resolve reject];
    [|done].
  repeat match goal with
         | |- context [throwIf ?failed _] =>
           destruct failed eqn:?; cbn [throwIf andThen resolve reject];
           [done|]
         end.
  intros _.
  repeat match goal with
         | Hc : _ || _ = false |- _ => apply orb_false_iff in Hc as [??]
         end.
  destruct (meta_width metadata) as [w|], (meta_height metadata) as [h|];
    try done.
  exists w, h. cbn in *. split_and!; [done..|lia|lia].
Qed.

Lemma validateImageQuality_accepts `{Sharp} imageBuffer accepted :
  outcome (validateImageQuality imageBuffer) = Ok accepted →
  ∃ metadata w h,
    sharpMetadata imageBuffer = Ok metadata
    ∧ meta_width metadata = Some w ∧ meta_height metadata = Some h
    ∧ 150 ≤ Z.min w h ∧ 200 ≤ Z.max w h.
Proof.
  unfold validateImageQuality, await, outcome.
  destruct (sharpMetadata imageBuffer) as [metadata|message]; [|done].
  cbn [andThen].
  destruct (qualityChecks metadata (Z.of_nat (length imageBuffer)))
    as [calls' [ok|message]] eqn:Hq; [|done].
  intros _. destruct (qualityChecks_accepts _ _ _ _ Hq) as (w & h & ?).
  by exists metadata, w, h.
Qed.

(** C10, as the code has it.  [preprocessImage] called on its own:
    - when the header decodes and the cover resize returns a buffer of
      112×112×3 bytes, it rejects exactly the images whose width or height
      could not be read or is below 50;
    - in general it returns a buffer exactly when the header decodes, the
      width and the height are read and at least 50, the cover resize
      succeeds and its buffer has 37632 bytes: it also rejects when the
      decoder or the resize fails or the resized buffer has another
      length;
    - whatever the codec does, a buffer it returns has 112×112×3 = 37632
      bytes;
    - the 50×50 floor is strictly weaker than the quality gate: an image
      the gate accepts passes it, and a 100×100 image passes it although the
      gate rejects it. *)
Theorem preprocessImage_floor :
  (∀ (codec : Sharp) imageBuffer metadata processedImage,
     sharpMetadata imageBuffer = Ok metadata →
     sharpCover imageBuffer 112 112 = Ok processedImage →
     Z.of_nat (length processedImage) = 112 * 112 * 3 →
     isOk (outcome (preprocessImage imageBuffer)) = false
     ↔ belowPreprocessFloor metadata)
  ∧ (∀ (codec : Sharp) imageBuffer,
       isOk (outcome (preprocessImage imageBuffer)) = true
       ↔ ∃ metadata processedImage,
           sharpMetadata imageBuffer = Ok metadata
           ∧ ¬ belowPreprocessFloor metadata
           ∧ sharpCover imageBuffer 112 112 = Ok processedImage
           ∧ Z.of_nat (length processedImage) = 37632)
  ∧ (∀ (codec : Sharp) imageBuffer processedImage,
       outcome (preprocessImage imageBuffer) = Ok processedImage →
       Z.of_nat (length processedImage) = 37632)
  ∧ (∀ (codec : Sharp) imageBuffer processedImage,
       outcome (validateImageQuality imageBuffer) = Ok true →
       sharpCover imageBuffer 112 112 = Ok processedImage →
       Z.of_nat (length processedImage) = 112 * 112 * 3 →
       outcome (preprocessImage imageBuffer) = Ok processedImage)
  ∧ (isOk (outcome (@preprocessImage smallCodec
                      (replicate (Z.to_nat 4096) 0))) = true
     ∧ isOk (outcome (@validateImageQuality smallCodec
                        (replicate (Z.to_nat 4096) 0))) = false).
Proof.
  split; [|split; [|split; [|split]]].
  - intros codec imageBuffer metadata processedImage Hmeta Hcover Hlen.
    rewrite (preprocessImage_cases _ _ Hmeta), belowPreprocessFloor_spec.
    rewrite Hcover, Hlen, Z.eqb_refl.
    destruct (dimFalsy _ || dimFalsy _); [done|].
    by destruct (dimBelow _ 50 || dimBelow _ 50).
  - intros codec imageBuffer.
    destruct (sharpMetadata imageBuffer) as [metadata|message] eqn:Hmeta.
    2:{ unfold preprocessImage, await. rewrite Hmeta. split; [done|].
        by intros (? & ? & ? & _). }
    rewrite (preprocessImage_cases _ _ Hmeta).
    pose proof (belowPreprocessFloor_spec metadata) as Hfloor.
    destruct (dimFalsy _ || dimFalsy _) eqn:Hfalsy.
    { split; [done|]. intros (? & ? & [= <-] & Hnot & _).
      by destruct Hnot; apply Hfloor. }
    destruct (dimBelow _ 50 || dimBelow _ 50) eqn:Hbelow.
    { split; [done|]. intros (? & ? & [= <-] & Hnot & _).
      by destruct Hnot; apply Hfloor. }
    destruct (sharpCover imageBuffer 112 112) as [processed|?] eqn:Hcover.
    2:{ split; [done|]. by intros (? & ? & _ & _ & ? & _). }
    destruct (Z.eqb_spec (Z.of_nat (length processed)) (112 * 112 * 3))
      as [Hlen|Hlen].
    + split; [|done]. intros _. exists metadata, processed.
      split_and!; [done| |done|done]. intros Hbelow'%Hfloor. done.
    + split; [done|]. intros (? & ? & _ & _ & [= <-] & ?). done.
  - intros codec imageBuffer processedImage.
    destruct (sharpMetadata imageBuffer) as [metadata|message] eqn:Hmeta.
    + rewrite (preprocessImage_cases _ _ Hmeta).
      destruct (dimFalsy _ || dimFalsy _); [done|].
      destruct (dimBelow _ 50 || dimBelow _ 50); [done|].
      destruct (sharpCover imageBuffer 112 112) as [processed|?]; [|done].
      destruct (Z.eqb_spec (Z.of_nat (length processed)) (112 * 112 * 3));
        [|done].
      intros [= <-]. done.
    + unfold preprocessImage, await. by rewrite Hmeta.
  - intros codec imageBuffer processedImage Hgate Hcover Hlen.
    destruct (validateImageQuality_accepts _ _ Hgate)
      as (metadata & w & h & Hmeta & Hw & Hh & Hmin & Hmax).
    rewrite (preprocessImage_cases _ _ Hmeta), Hw, Hh, Hcover, Hlen.
    cbn [dimFalsy dimBelow].
    destruct (Z.eqb_spec w 0), (Z.eqb_spec h 0),
      (Z.ltb_spec w 50), (Z.ltb_spec h 50); (done || lia).
  - vm_compute. done.
Qed.

Lemma preprocessImage_floor_witness :
  (isOk (outcome (@preprocessImage largeCodec [])) = false
   ↔ belowPreprocessFloor (mkMetadata (Some 640) (Some 480) (Some "jpeg")))
  ∧ (isOk (outcome (@preprocessImage largeCodec [])) = true
     ↔ ∃ metadata processedImage,
         @sharpMetadata largeCodec [] = Ok metadata
         ∧ ¬ belowPreprocessFloor metadata
         ∧ @sharpCover largeCodec [] 112 112 = Ok processedImage
         ∧ Z.of_nat (length processedImage) = 37632)
  ∧ (outcome (@preprocessImage largeCodec [])
     = Ok (replicate (Z.to_nat 37632) 0) →
     Z.of_nat (length (replicate (Z.to_nat 37632) 0)) = 37632).
Proof.
  split; [|split].
  - apply (proj1 preprocessImage_floor largeCodec []
             (mkMetadata (Some 640) (Some 480) (Some "jpeg"))
             (replicate (Z.to_nat 37632) 0)); [reflexivity | reflexivity |].
    vm_compute. reflexivity.
  - apply (proj1 (proj2 preprocessImage_floor) largeCodec []).
  - apply (proj1 (proj2 (proj2 preprocessImage_floor)) largeCodec []).
Defined.

(** A 640×480 image is not below the floor, and [preprocessImage] rejects
    it all the same when the resized buffer has one byte per pixel, or
    when the resize fails. *)
Lemma preprocessImage_rejects_above_floor :
  ¬ belowPreprocessFloor (mkMetadata (Some 640) (Some 480) (Some "jpeg"))
  ∧ @preprocessImage greyCodec []
    = ([CallMetadata; CallCover 112 112],
       Err "Image preprocessing failed: Processed image size mismatch. Expected 37632, got 12544")
  ∧ @preprocessImage truncatedCodec []
    = ([CallMetadata; CallCover 112 112],
       Err "Image preprocessing failed: Input buffer has corrupt header").
Proof.
  split.
  - unfold belowPreprocessFloor. cbn.
    intros [?|[?|[(w & [= <-] & ?)|(h & [= <-] & ?)]]]; (done || lia).
  - split; vm_compute; reflexivity.
Qed.


(** *** Stored embeddings *)

(** C1, as the code has it.  ["[1,2,3]"] parses to the array [[1,2,3]],
    which [parseStoredEmbedding] rejects with an [EmbeddingFormatError]
    because 3 is below the minimum length 64; ["[1,\"x\",3]"] is rejected
    with an [EmbeddingFormatError] for its non-numeric element. *)
Theorem parseStoredEmbedding_examples :
  JSON_parse "[1,2,3]"
  = Some (JArray [JNumber 1%float; JNumber 2%float; JNumber 3%float])
  ∧ parseStoredEmbedding (JString "[1,2,3]")
    = Err "Invalid embedding format: Unusual embedding size: 3. Expected between 64-2048 dimensions."
  ∧ EmbeddingFormatError (parseStoredEmbedding (JString "[1,2,3]"))
  ∧ parseStoredEmbedding (JString textWithString)
    = Err "Invalid embedding format: Embedding contains non-numeric values"
  ∧ EmbeddingFormatError (parseStoredEmbedding (JString textWithString)).
Proof.
  assert (H1 : parseStoredEmbedding (JString "[1,2,3]")
    = Err "Invalid embedding format: Unusual embedding size: 3. Expected between 64-2048 dimensions.")
    by (vm_compute; reflexivity).
  assert (H2 : parseStoredEmbedding (JString textWithString)
    = Err "Invalid embedding format: Embedding contains non-numeric values")
    by (vm_compute; reflexivity).
  split_and!.
  - vm_compute. reflexivity.
  - exact H1.
  - rewrite H1. by eexists.
  - exact H2.
  - rewrite H2. by eexists.
Qed.

(** [parseStoredEmbedding("[1,2,3]")] does not return [[1,2,3]]. *)
Lemma parseStoredEmbedding_short_text_rejected :
  parseStoredEmbedding (JString "[1,2,3]")
  ≠ Ok [JNumber 1%float; JNumber 2%float; JNumber 3%float].
Proof. vm_compute. discriminate. Qed.

(** What [parseStoredEmbedding] returns on an array value. *)
Lemma parseStoredEmbedding_array items :
  parseStoredEmbedding (JArray items)
  = if (0 <? length (List.filter notNumeric items))%nat then
      Err "Invalid embedding format: Embedding contains non-numeric values"
    else if (length items <? 64)%nat || (2048 <? length items)%nat then
      Err ("Invalid embedding format: "
           +:+ ("Unusual embedding size: " +:+ showZ (Z.of_nat (length items))
                +:+ ". Expected between 64-2048 dimensions."))
    else Ok items.
Proof.
  unfold parseStoredEmbedding. cbn [rbind].
  destruct (0 <? length (List.filter notNumeric items))%nat; [done|].
  by destruct ((length items <? 64)%nat || (2048 <? length items)%nat).
Qed.

Lemma parseStoredEmbedding_cases input :
  match parsedSequence input with
  | Some items => parseStoredEmbedding input = parseStoredEmbedding (JArray items)
  | None => EmbeddingFormatError (parseStoredEmbedding input)
  end.
Proof.
  destruct input as [| |b|n|text|items|fields]; cbn [parsedSequence];
    try (by eexists).
  unfold parseStoredEmbedding.
  destruct (JSON_parse text) as [[| |b|n|s|items|fields]|]; cbn [rbind];
    by eexists.
Qed.

Lemma filter_notNumeric_nil items :
  List.filter notNumeric items = [] ↔ Forall (λ v, notNumeric v = false) items.
Proof.
  induction items as [|v items IH]; simpl; [by split; constructor|].
  destruct (notNumeric v) eqn:Hv.
  - split; [done|]. intros Hall. inv Hall. congruence.
  - rewrite IH. split; [by constructor|]. intros Hall. by inv Hall.
Qed.

(** C5, as the code has it.  [parseStoredEmbedding] fails with an
    [EmbeddingFormatError] whenever an element of the parsed sequence is not
    a number or is [NaN]; every element of an embedding it returns is a
    number other than [NaN] (it can be an infinity), and the embedding has
    between 64 and 2048 elements. *)
Theorem parseStoredEmbedding_numeric input :
  (∀ items, parsedSequence input = Some items →
            Exists (λ v, notNumeric v = true) items →
            EmbeddingFormatError (parseStoredEmbedding input))
  ∧ (∀ embedding, parseStoredEmbedding input = Ok embedding →
       parsedSequence input = Some embedding
       ∧ Forall (λ v, ∃ n, v = JNumber n ∧ is_nan n = false) embedding
       ∧ (64 ≤ length embedding ≤ 2048)%nat).
Proof.
  pose proof (parseStoredEmbedding_cases input) as Hcases.
  destruct (parsedSequence input) as [items|].
  2: { split; [done|]. intros embedding Hok.
       destruct Hcases as [message Herr]. congruence. }
  rewrite Hcases, parseStoredEmbedding_array.
  split.
  - intros ? [= <-] Hbad.
    destruct (List.filter notNumeric items) as [|v rest] eqn:Hfilter.
    { apply filter_notNumeric_nil in Hfilter.
      apply Exists_exists in Hbad as (v & Hin & Hv).
      rewrite Forall_forall in Hfilter.
      apply Hfilter in Hin. congruence. }
    change (0 <? length (v :: rest))%nat with true. cbv iota. by eexists.
  - intros embedding.
    destruct (List.filter notNumeric items) as [|v rest] eqn:Hfilter.
    2: { change (0 <? length (v :: rest))%nat with true. done. }
    change (0 <? length (@nil (JSValue float)))%nat with false. cbv iota.
    destruct (length items <? 64)%nat eqn:Hmin; [done|].
    destruct (2048 <? length items)%nat eqn:Hmax; [done|].
    intros [= <-]. split; [done|]. split.
    + apply filter_notNumeric_nil in Hfilter.
      eapply Forall_impl; [exact Hfilter|].
      intros [| |b|n|s|l|f] Hv; try discriminate. by exists n.
    + apply Nat.ltb_ge in Hmin, Hmax. lia.
Qed.

Lemma parseStoredEmbedding_numeric_witness :
  parsedSequence (JArray withInfinity) = Some withInfinity
  ∧ Forall (λ v, ∃ n, v = JNumber n ∧ is_nan n = false) withInfinity
  ∧ (64 ≤ length withInfinity ≤ 2048)%nat.
Proof.
  apply (proj2 (parseStoredEmbedding_numeric (JArray withInfinity))).
  vm_compute. reflexivity.
Defined.

(** An embedding with an infinite element is accepted, given as an array
    or as JSON text: not every element of a returned embedding is a finite
    number. *)
Lemma parseStoredEmbedding_accepts_infinity :
  parseStoredEmbedding (JArray withInfinity) = Ok withInfinity
  ∧ parseStoredEmbedding (JString textWithInfinity) = Ok withInfinity
  ∧ Exists (λ v, ∃ n, v = JNumber n ∧ is_finite n = false) withInfinity.
Proof.
  split_and!; [vm_compute; reflexivity..|].
  apply Exists_cons_hd. exists infinity. split; [done|]. vm_compute. done.
Qed.


(** *** Cosine similarity *)

(** Facts about binary64 operations, from their specification in
    [FloatAxioms]. *)
Lemma SFmul_comm prec emax x y : SFmul prec emax x y = SFmul prec emax y x.
Proof.
  destruct x as [sx|sx| |sx mx ex], y as [sy|sy| |sy my ey]; simpl;
    try reflexivity; try (by rewrite xorb_comm).
  by rewrite (xorb_comm sx sy), (Pos.mul_comm mx my), (Z.add_comm ex ey).
Qed.

Lemma float_mul_comm (x y : float) : (x * y = y * x)%float.
Proof. apply Prim2SF_inj. rewrite !FloatAxioms.mul_spec. apply SFmul_comm. Qed.

Lemma SFcompare_antisym x y :
  SFcompare y x = CompOpp <$> SFcompare x y.
Proof.
  destruct x as [s1|s1| |s1 m1 e1], y as [s2|s2| |s2 m2 e2];
    repeat match goal with s : bool |- _ => destruct s end;
    simpl; try reflexivity;
    rewrite (Z.compare_antisym e1 e2); destruct (e1 ?= e2); simpl;
    try reflexivity;
    rewrite (Pos.compare_cont_antisym m1 m2); simpl;
    by destruct (Pos.compare_cont Eq m1 m2).
Qed.

Lemma is_nan_false x : is_nan x = false → Prim2SF x ≠ S754_nan.
Proof.
  unfold is_nan. rewrite FloatAxioms.eqb_spec. intros Hnan Heq.
  rewrite Heq in Hnan. done.
Qed.

Lemma SFcompare_defined x y :
  x ≠ S754_nan → y ≠ S754_nan → is_Some (SFcompare x y).
Proof. destruct x, y; simpl; eauto; done. Qed.

Lemma float_ltb_leb (x y : float) :
  (x <? y)%float = true → (x <=? y)%float = true.
Proof.
  rewrite FloatAxioms.ltb_spec, FloatAxioms.leb_spec. unfold SFltb, SFleb.
  by destruct (SFcompare (Prim2SF x) (Prim2SF y)) as [[]|].
Qed.

Lemma float_not_ltb_leb (x y : float) :
  is_nan x = false → is_nan y = false →
  (y <? x)%float = false → (x <=? y)%float = true.
Proof.
  intros Hx%is_nan_false Hy%is_nan_false.
  rewrite FloatAxioms.ltb_spec, FloatAxioms.leb_spec. unfold SFltb, SFleb.
  rewrite (SFcompare_antisym (Prim2SF x) (Prim2SF y)).
  destruct (SFcompare_defined _ _ Hx Hy) as [c ->]. by destruct c.
Qed.

(** [Math.max(-1, Math.min(1, s))] is [NaN] or lies between -1 and 1. *)
Lemma clamp_range (s : float) :
  let r := floatMax (-1)%float (floatMin 1%float s) in
  is_nan r = true ∨ ((-1 <=? r)%float = true ∧ (r <=? 1)%float = true).
Proof.
  intros r. subst r.
  destruct (is_nan s) eqn:Hs.
  { left. unfold floatMin, floatMax. rewrite Hs.
    rewrite orb_true_r. reflexivity. }
  right.
  assert (Hm : ∃ m, floatMin 1%float s = m ∧ is_nan m = false
                    ∧ (m <=? 1)%float = true).
  { unfold floatMin. rewrite Hs.
    change (is_nan 1%float || false) with false. cbv iota.
    change (get_sign 1%float) with false. cbv iota.
    destruct (1 <? s)%float eqn:H1; [by exists 1%float|].
    exists s. split; [by destruct (s <? 1)%float|]. split; [done|].
    by apply float_not_ltb_leb. }
  destruct Hm as (m & -> & Hm & Hle).
  unfold floatMax. rewrite Hm.
  change (is_nan (-1)%float || false) with false. cbv iota.
  change (get_sign (-1)%float) with true. cbv iota.
  destruct (-1 <? m)%float eqn:H1.
  { split; [by apply float_ltb_leb|done]. }
  destruct (m <? -1)%float eqn:H2; [done|].
  split; [|done]. by apply float_not_ltb_leb.
Qed.

Lemma dotProductLoop_float_comm i (a b : list (JSValue float)) acc :
  dotProductLoop i a b acc = dotProductLoop i b a acc.
Proof.
  revert i b acc. induction a as [|x a IH]; intros i [|y b] acc; try done.
  cbn [dotProductLoop].
  destruct x, y; try done.
  cbn [numMul floatArith]. by rewrite float_mul_comm, IH.
Qed.

(** *** Rounding to nearest in binary64 *)

Lemma digits2_pos_size p : digits2_pos p = Pos.size p.
Proof. induction p as [p IH|p IH|]; simpl; by rewrite ?IH. Qed.

(** [Zdigits2 m] is the number of binary digits of [m]. *)
Lemma Zdigits2_bounds m :
  0 < m → 2 ^ (Zdigits2 m - 1) ≤ m < 2 ^ Zdigits2 m.
Proof.
  destruct m as [|p|p]; try lia. intros _. simpl. rewrite digits2_pos_size.
  pose proof (Pos.size_gt p) as Hgt. pose proof (Pos.size_le p) as Hle.
  apply Pos2Z.pos_lt_pos in Hgt. apply Pos2Z.pos_le_pos in Hle.
  rewrite Pos2Z.inj_pow in Hgt, Hle. rewrite (Pos2Z.inj_xO p) in Hle.
  split; [|done].
  replace (Z.pos (Pos.size p)) with (Z.pos (Pos.size p) - 1 + 1) in Hle
    by lia.
  rewrite Z.pow_add_r in Hle by lia. change (2 ^ 1) with 2 in Hle. lia.
Qed.

Lemma Zdigits2_unique m d :
  2 ^ (d - 1) ≤ m < 2 ^ d → 0 < d → Zdigits2 m = d.
Proof.
  intros Hm Hd.
  assert (Hpos : 0 < m).
  { pose proof (Z.pow_pos_nonneg 2 (d - 1)). lia. }
  pose proof (Zdigits2_bounds m Hpos) as Hb.
  assert (Hdig : 0 < Zdigits2 m).
  { clear Hb Hm. destruct m; try lia. simpl. lia. }
  assert (Z.log2 m = d - 1) as H1.
  { apply Z.log2_unique; [lia|]. by replace (Z.succ (d - 1)) with d by lia. }
  assert (Z.log2 m = Zdigits2 m - 1) as H2.
  { apply Z.log2_unique; [lia|].
    by replace (Z.succ (Zdigits2 m - 1)) with (Zdigits2 m) by lia. }
  lia.
Qed.

Lemma bpow_pos e : (0 < bpow e)%R.
Proof. apply powerRZ_lt. lra. Qed.

Lemma bpow_add a b : bpow (a + b) = (bpow a * bpow b)%R.
Proof. apply powerRZ_add. lra. Qed.

Lemma bpow_1 : bpow 1 = 2%R.
Proof. unfold bpow. simpl. lra. Qed.

Lemma bpow_0 : bpow 0 = 1%R.
Proof. reflexivity. Qed.

Lemma bpow_IZR n : 0 ≤ n → bpow n = IZR (2 ^ n).
Proof.
  intros Hn. unfold bpow. rewrite <- (Z2Nat.id n Hn).
  rewrite <- pow_powerRZ, <- pow_IZR. reflexivity.
Qed.

Lemma bpow_le a b : a ≤ b → (bpow a <= bpow b)%R.
Proof.
  intros Hab. replace b with (a + (b - a)) by lia. rewrite bpow_add.
  assert (1 <= bpow (b - a))%R.
  { rewrite bpow_IZR by lia. apply IZR_le.
    pose proof (Z.pow_pos_nonneg 2 (b - a)). lia. }
  pose proof (bpow_pos a). nra.
Qed.

(** Shifting a record to the right halves the number it locates. *)
Lemma located_shr_1 u mrs :
  0 ≤ shr_m mrs → located u mrs →
  located (u / 2) (shr_1 mrs) ∧ 0 ≤ shr_m (shr_1 mrs).
Proof.
  destruct mrs as [m r s]. unfold located. cbn [shr_m shr_r shr_s].
  intros Hm [Hin Hloc].
  destruct m as [|[p|p|]|p]; [| | | |lia]; cbn [shr_1 shr_m shr_r shr_s];
    rewrite ?(Pos2Z.inj_xI p), ?(Pos2Z.inj_xO p), ?plus_IZR, ?mult_IZR
      in Hin, Hloc;
    (split; [|lia]);
    destruct r, s; cbn [orb]; lra.
Qed.

Lemma located_iter n : ∀ u mrs,
  0 ≤ shr_m mrs → located u mrs →
  located (u / 2 ^ Pos.to_nat n) (SpecFloat.iter_pos shr_1 n mrs)
  ∧ 0 ≤ shr_m (SpecFloat.iter_pos shr_1 n mrs).
Proof.
  induction n as [n IH|n IH|]; intros u mrs Hm Hloc; cbn [SpecFloat.iter_pos].
  - destruct (located_shr_1 u mrs Hm Hloc) as [H1 Hm1].
    destruct (IH _ _ Hm1 H1) as [H2 Hm2].
    destruct (IH _ _ Hm2 H2) as [H3 Hm3]. split; [|done].
    replace (u / 2 ^ Pos.to_nat n~1)%R
      with (u / 2 / 2 ^ Pos.to_nat n / 2 ^ Pos.to_nat n)%R; [done|].
    rewrite Pos2Nat.inj_xI. rewrite <- tech_pow_Rmult.
    replace (2 * Pos.to_nat n)%nat with (Pos.to_nat n + Pos.to_nat n)%nat
      by lia.
    rewrite pow_add. pose proof (pow_lt 2 (Pos.to_nat n)). field. lra.
  - destruct (IH _ _ Hm Hloc) as [H2 Hm2].
    destruct (IH _ _ Hm2 H2) as [H3 Hm3]. split; [|done].
    replace (u / 2 ^ Pos.to_nat n~0)%R
      with (u / 2 ^ Pos.to_nat n / 2 ^ Pos.to_nat n)%R; [done|].
    rewrite Pos2Nat.inj_xO.
    replace (2 * Pos.to_nat n)%nat with (Pos.to_nat n + Pos.to_nat n)%nat
      by lia.
    rewrite pow_add. pose proof (pow_lt 2 (Pos.to_nat n)). field. lra.
  - destruct (located_shr_1 u mrs Hm Hloc) as [H1 Hm1]. split; [|done].
    replace (u / 2 ^ Pos.to_nat 1)%R with (u / 2)%R; [done|].
    simpl. field.
Qed.

Lemma located_shr u mrs e n :
  0 ≤ n → 0 ≤ shr_m mrs → located u mrs →
  snd (shr mrs e n) = e + n
  ∧ located (u / bpow n) (fst (shr mrs e n))
  ∧ 0 ≤ shr_m (fst (shr mrs e n)).
Proof.
  intros Hn Hm Hloc. destruct n as [|n|n]; [| |lia]; cbn [shr fst snd].
  - split; [lia|]. split; [|done].
    replace (u / bpow 0)%R with u; [done|]. rewrite bpow_0. field.
  - split; [done|]. destruct (located_iter n u mrs Hm Hloc) as [H1 H2].
    split; [|done]. exact H1.
Qed.

Lemma fexp_normal z : -1021 ≤ z → fexp prec emax z = z - 53.
Proof. unfold fexp, SpecFloat.emin, prec, emax. lia. Qed.

Lemma shr_m_of_loc m l : shr_m (shr_record_of_loc m l) = m.
Proof. by destruct l as [|[]]. Qed.

(** Rounding to nearest moves a located number by at most a half. *)
Lemma round_nearest_even_close u mrs :
  located u mrs →
  (u - / 2
   <= IZR (round_nearest_even (shr_m mrs) (loc_of_shr_record mrs))
   <= u + / 2)%R
  ∧ shr_m mrs ≤ round_nearest_even (shr_m mrs) (loc_of_shr_record mrs)
    ≤ shr_m mrs + 1.
Proof.
  destruct mrs as [m r s]. unfold located. cbn [shr_m shr_r shr_s].
  intros [Hin Hloc].
  destruct r, s; cbn [loc_of_shr_record round_nearest_even];
    try destruct (Z.even m); rewrite ?plus_IZR;
    (split; [lra|lia]).
Qed.

(** [binary_round_aux], which ends every operation, on a mantissa of at
    least 53 digits that locates [x / 2^ex], when the result is in the
    normal range: the result is a normal double within half a unit in the
    last place of [x]. *)
Lemma binary_round_aux_correct mx ex lx x :
  0 < mx →
  53 ≤ Zdigits2 mx →
  -1074 ≤ ex + Zdigits2 mx - 53 →
  ex + Zdigits2 mx ≤ 1023 →
  located (x / bpow ex) (shr_record_of_loc mx lx) →
  ∃ M E,
    binary_round_aux prec emax false mx ex lx = S754_finite false M E
    ∧ 2 ^ 52 ≤ Z.pos M < 2 ^ 53
    ∧ ex + Zdigits2 mx - 53 ≤ E ≤ ex + Zdigits2 mx - 52
    ∧ (x - bpow E / 2 <= IZR (Z.pos M) * bpow E <= x + bpow E / 2)%R.
Proof.
  intros Hpos Hdig Hlow Hhigh Hloc.
  pose proof (Zdigits2_bounds mx Hpos) as Hmx.
  set (d := Zdigits2 mx) in *.
  unfold binary_round_aux, shr_fexp. fold d.
  rewrite fexp_normal by lia.
  replace (d + ex - 53 - ex) with (d - 53) by lia.
  destruct (located_shr (x / bpow ex) (shr_record_of_loc mx lx) ex (d - 53))
    as (He & Hloc1 & Hm1); [lia|rewrite shr_m_of_loc; lia|done|].
  destruct (shr (shr_record_of_loc mx lx) ex (d - 53)) as [mrs1 e1].
  cbn [fst snd] in He, Hloc1, Hm1. subst e1.
  set (u1 := (x / bpow ex / bpow (d - 53))%R) in *.
  (* the mantissa after the shift has 53 digits *)
  assert (Hrange : (IZR (2 ^ 52) <= u1 < IZR (2 ^ 53))%R).
  { destruct Hloc as [Hin _]. rewrite shr_m_of_loc in Hin.
    assert (Hlo : (IZR (2 ^ (d - 1)) <= x / bpow ex)%R).
    { eapply Rle_trans; [apply IZR_le, Hmx|apply Hin]. }
    assert (Hhi : (x / bpow ex < IZR (2 ^ d))%R).
    { eapply Rlt_le_trans; [apply Hin|].
      rewrite <- plus_IZR. apply IZR_le. lia. }
    replace (2 ^ (d - 1)) with (2 ^ 52 * 2 ^ (d - 53)) in Hlo
      by (rewrite <- Z.pow_add_r by lia; f_equal; lia).
    replace (2 ^ d) with (2 ^ 53 * 2 ^ (d - 53)) in Hhi
      by (rewrite <- Z.pow_add_r by lia; f_equal; lia).
    rewrite mult_IZR, <- (bpow_IZR (d - 53)) in Hlo by lia.
    rewrite mult_IZR, <- (bpow_IZR (d - 53)) in Hhi by lia.
    pose proof (bpow_pos (d - 53)) as Hb. pose proof (bpow_pos ex) as Hb'.
    unfold u1. split.
    - apply Rmult_le_reg_r with (bpow (d - 53)); [done|].
      replace (x / bpow ex / bpow (d - 53) * bpow (d - 53))%R
        with (x / bpow ex)%R by (field; lra). done.
    - apply Rmult_lt_reg_r with (bpow (d - 53)); [done|].
      replace (x / bpow ex / bpow (d - 53) * bpow (d - 53))%R
        with (x / bpow ex)%R by (field; lra). done. }
  destruct (round_nearest_even_close u1 mrs1 Hloc1) as [Hclose Hm2].
  set (m2 := round_nearest_even (shr_m mrs1) (loc_of_shr_record mrs1)) in *.
  assert (Hm1' : 2 ^ 52 ≤ shr_m mrs1 + 1 ∧ shr_m mrs1 < 2 ^ 53).
  { destruct Hloc1 as [Hin _]. split.
    - assert (IZR (2 ^ 52) < IZR (shr_m mrs1 + 1))%R as Hlt
        by (rewrite plus_IZR; lra).
      apply lt_IZR in Hlt. lia.
    - apply lt_IZR. lra. }
  assert (Hm2' : 2 ^ 52 ≤ m2 ≤ 2 ^ 53).
  { split; [|lia].
    destruct (decide (2 ^ 52 ≤ shr_m mrs1)) as [|Hsmall]; [lia|].
    assert (Heq : shr_m mrs1 = 2 ^ 52 - 1) by lia.
    (* [u1] is at least 2^52: the rounding goes up *)
    assert (Hup : (IZR (2 ^ 52) - / 2 <= IZR m2)%R).
    { lra. }
    assert (IZR (2 ^ 52 - 1) < IZR m2)%R as Hlt.
    { rewrite minus_IZR. lra. }
    apply lt_IZR in Hlt. lia. }
  assert (Hx : x = (u1 * bpow (ex + (d - 53)))%R).
  { unfold u1. rewrite bpow_add.
    pose proof (bpow_pos ex). pose proof (bpow_pos (d - 53)). field. lra. }
  cbn [shr_record_of_loc].
  destruct (decide (m2 = 2 ^ 53)) as [Hcarry|Hnocarry].
  - rewrite Hcarry.
    change (Zdigits2 (2 ^ 53)) with 54.
    rewrite fexp_normal by lia.
    replace (54 + (ex + (d - 53)) - 53 - (ex + (d - 53))) with 1 by lia.
    change (2 ^ 53) with 9007199254740992.
    cbn [shr SpecFloat.iter_pos shr_1 shr_m].
    assert (Hleb : (ex + (d - 53) + 1 <=? emax - prec) = true).
    { apply Z.leb_le. unfold emax, prec. lia. }
    rewrite Hleb.
    exists 4503599627370496%positive, (ex + (d - 53) + 1).
    split; [reflexivity|]. split; [done|]. split; [lia|].
    rewrite (bpow_add _ 1), bpow_1. rewrite Hx.
    pose proof (bpow_pos (ex + (d - 53))) as Hb.
    rewrite Hcarry in Hclose.
    change (2 ^ 53) with 9007199254740992 in Hclose.
    split; nra.
  - assert (Hd2 : Zdigits2 m2 = 53).
    { apply Zdigits2_unique; [|lia]. change (53 - 1) with 52. lia. }
    rewrite Hd2. rewrite fexp_normal by lia.
    replace (53 + (ex + (d - 53)) - 53 - (ex + (d - 53))) with 0 by lia.
    cbn [shr shr_m].
    destruct m2 as [|M|M] eqn:Hm2eq; [lia| |lia].
    assert (Hleb : (ex + (d - 53) <=? emax - prec) = true).
    { apply Z.leb_le. unfold emax, prec. lia. }
    rewrite Hleb.
    exists M, (ex + (d - 53)). split; [reflexivity|]. split; [lia|].
    split; [lia|]. rewrite Hx.
    pose proof (bpow_pos (ex + (d - 53))) as Hb.
    split; nra.
Qed.

Lemma Zdigits2_between m a b :
  0 ≤ a → 2 ^ a ≤ m < 2 ^ b → a < Zdigits2 m ≤ b.
Proof.
  intros Ha Hm.
  assert (Hpos : 0 < m) by (pose proof (Z.pow_pos_nonneg 2 a); lia).
  pose proof (Zdigits2_bounds m Hpos) as Hd.
  assert (Hdig : 0 < Zdigits2 m).
  { clear Hd Hm. destruct m; try lia. simpl. lia. }
  split.
  - destruct (decide (a < Zdigits2 m)) as [|Hnot]; [done|].
    pose proof (Z.pow_le_mono_r 2 (Zdigits2 m) a). lia.
  - destruct (decide (Zdigits2 m ≤ b)) as [|Hnot]; [done|].
    destruct (decide (0 ≤ b)) as [Hb|Hb].
    + pose proof (Z.pow_le_mono_r 2 b (Zdigits2 m - 1)). lia.
    + rewrite (Z.pow_neg_r 2 b) in Hm by lia. lia.
Qed.

(** *** Multiplication *)

(** The product of two normal doubles, away from overflow and underflow,
    is the exact product rounded to nearest. *)
Lemma SFmul_correct m1 e1 m2 e2 :
  2 ^ 52 ≤ Z.pos m1 < 2 ^ 53 → 2 ^ 52 ≤ Z.pos m2 < 2 ^ 53 →
  -1126 ≤ e1 + e2 → e1 + e2 ≤ 917 →
  ∃ M E,
    SFmul prec emax (S754_finite false m1 e1) (S754_finite false m2 e2)
    = S754_finite false M E
    ∧ 2 ^ 52 ≤ Z.pos M < 2 ^ 53
    ∧ e1 + e2 + 52 ≤ E ≤ e1 + e2 + 54
    ∧ (let x := (IZR (Z.pos m1) * bpow e1 * (IZR (Z.pos m2) * bpow e2))%R in
       x - bpow E / 2 <= IZR (Z.pos M) * bpow E <= x + bpow E / 2)%R.
Proof.
  intros H1 H2 Hlow Hhigh. cbn [SFmul xorb].
  assert (Hprod : 2 ^ 104 ≤ Z.pos (m1 * m2) < 2 ^ 106).
  { rewrite Pos2Z.inj_mul.
    change (2 ^ 104) with (2 ^ 52 * 2 ^ 52).
    change (2 ^ 106) with (2 ^ 53 * 2 ^ 53). nia. }
  pose proof (Zdigits2_between _ 104 106 ltac:(lia) Hprod) as Hd.
  destruct (binary_round_aux_correct (Z.pos (m1 * m2)) (e1 + e2) loc_Exact
              (IZR (Z.pos m1) * bpow e1 * (IZR (Z.pos m2) * bpow e2)))
    as (M & E & Hround & HM & HE & Hclose); [lia|lia|lia|lia| |].
  { unfold located. cbn [shr_record_of_loc shr_m shr_r shr_s].
    assert (Hval : (IZR (Z.pos m1) * bpow e1 * (IZR (Z.pos m2) * bpow e2)
                    / bpow (e1 + e2))%R = IZR (Z.pos (m1 * m2))).
    { rewrite Pos2Z.inj_mul, mult_IZR, bpow_add.
      pose proof (bpow_pos e1). pose proof (bpow_pos e2). field. lra. }
    rewrite Hval. split; [lra|done]. }
  exists M, E. split; [done|]. split; [done|]. split; [lia|].
  done.
Qed.

(** *** Square root *)

(** The square root of a normal double is the exact root rounded to
    nearest. *)
Lemma SFsqrt_correct m e x :
  2 ^ 52 ≤ Z.pos m < 2 ^ 53 → -1074 ≤ e → e ≤ 971 →
  (0 <= x)%R → (x * x = IZR (Z.pos m) * bpow e)%R →
  ∃ M E,
    SFsqrt prec emax (S754_finite false m e) = S754_finite false M E
    ∧ 2 ^ 52 ≤ Z.pos M < 2 ^ 53
    ∧ Z.div2 e - 26 ≤ E ≤ Z.div2 e - 25
    ∧ (x - bpow E / 2 <= IZR (Z.pos M) * bpow E <= x + bpow E / 2)%R.
Proof.
  intros Hm Hlow Hhigh Hx Hxx. cbn [SFsqrt]. unfold SFsqrt_core_binary.
  rewrite (Zdigits2_unique (Z.pos m) 53) by (change (53 - 1) with 52; lia).
  pose proof (Zdiv2_odd_eqn e) as Hodd.
  assert (Hdiv : 2 * Z.div2 e ≤ e ≤ 2 * Z.div2 e + 1)
    by (destruct (Z.odd e); lia).
  assert (Hhalf : Z.div2 (53 + e + 1) = Z.div2 e + 27).
  { pose proof (Zdiv2_odd_eqn (53 + e + 1)) as Hodd'.
    destruct (Z.odd e), (Z.odd (53 + e + 1)); lia. }
  rewrite Hhalf. rewrite fexp_normal by lia.
  replace (Z.min (Z.div2 e + 27 - 53) (Z.div2 e)) with (Z.div2 e - 26)
    by lia.
  set (e' := Z.div2 e - 26).
  set (s := e - 2 * e').
  assert (Hs : s = 52 ∨ s = 53).
  { unfold s, e'. lia. }
  assert (Hshift : match s with
                   | Z.pos _ => Z.shiftl (Z.pos m) s
                   | 0 => Z.pos m
                   | Z.neg _ => 0
                   end = Z.pos m * 2 ^ s).
  { destruct Hs as [-> | ->]; by rewrite Z.shiftl_mul_pow2. }
  rewrite Hshift. set (m' := Z.pos m * 2 ^ s).
  assert (Hm' : 2 ^ 104 ≤ m' < 2 ^ 106).
  { unfold m'. destruct Hs as [-> | ->].
    - change (2 ^ 104) with (2 ^ 52 * 2 ^ 52).
      change (2 ^ 106) with (2 ^ 54 * 2 ^ 52). lia.
    - change (2 ^ 104) with (2 ^ 51 * 2 ^ 53).
      change (2 ^ 106) with (2 ^ 53 * 2 ^ 53). lia. }
  pose proof (Z.sqrtrem_spec m' ltac:(lia)) as Hspec.
  destruct (Z.sqrtrem m') as [q r]. destruct Hspec as [Hqr Hr].
  assert (Hq : 2 ^ 52 ≤ q < 2 ^ 53).
  { change (2 ^ 104) with (2 ^ 52 * 2 ^ 52) in Hm'.
    change (2 ^ 106) with (2 ^ 53 * 2 ^ 53) in Hm'. nia. }
  (* the scaled root *)
  set (t := (x / bpow e')%R).
  assert (Ht : (0 <= t)%R).
  { unfold t. pose proof (bpow_pos e'). apply Rle_mult_inv_pos; lra. }
  assert (Htt : (t * t = IZR q * IZR q + IZR r)%R).
  { unfold t. rewrite <- mult_IZR, <- plus_IZR, <- Hqr. unfold m'.
    rewrite mult_IZR, <- bpow_IZR by lia.
    replace (x / bpow e' * (x / bpow e'))%R
      with (x * x / (bpow e' * bpow e'))%R
      by (pose proof (bpow_pos e'); field; lra).
    rewrite Hxx.
    assert (Hsplit : bpow e = (bpow s * (bpow e' * bpow e'))%R).
    { rewrite <- !bpow_add. f_equal. unfold s. lia. }
    rewrite Hsplit. pose proof (bpow_pos e'). field. lra. }
  assert (Hq0 : (0 <= IZR q)%R) by (apply IZR_le; lia).
  assert (Hr0 : (0 <= IZR r <= 2 * IZR q)%R).
  { rewrite <- mult_IZR. split; apply IZR_le; lia. }
  destruct (binary_round_aux_correct q e'
              (if r =? 0 then loc_Exact
               else loc_Inexact (if r <=? q then Lt else Gt)) x)
    as (M & E & Hround & HM & HE & Hclose).
  - lia.
  - rewrite (Zdigits2_unique q 53) by (change (53 - 1) with 52; lia). lia.
  - rewrite (Zdigits2_unique q 53) by (change (53 - 1) with 52; lia).
    unfold e'. lia.
  - rewrite (Zdigits2_unique q 53) by (change (53 - 1) with 52; lia).
    unfold e'. lia.
  - fold t. unfold located.
    destruct (Z.eqb_spec r 0) as [Hr'|Hr'].
    + cbn [shr_record_of_loc shr_m shr_r shr_s].
      rewrite Hr' in Htt. assert (t = IZR q) by nra. lra.
    + assert (Hrpos : (1 <= IZR r)%R) by (apply IZR_le; lia).
      destruct (Z.leb_spec r q) as [Hle|Hgt];
        cbn [shr_record_of_loc shr_m shr_r shr_s].
      * assert (Hle' : (IZR r <= IZR q)%R) by by apply IZR_le.
        split; split; nra.
      * assert (Hgt' : (IZR q + 1 <= IZR r)%R).
        { rewrite <- plus_IZR. apply IZR_le. lia. }
        split; [split|]; nra.
  - exists M, E. split; [done|]. split; [done|].
    rewrite (Zdigits2_unique q 53) in HE by (change (53 - 1) with 52; lia).
    split; [unfold e' in HE; lia|done].
Qed.

(** *** Division *)

(** The location that a division computes from its remainder. *)
Lemma new_location_located (divisor q r : Z) (t : R) :
  0 < divisor → 0 ≤ r < divisor →
  (t * IZR divisor = IZR q * IZR divisor + IZR r)%R →
  located t (shr_record_of_loc q (new_location divisor r)).
Proof.
  intros Hd Hr Ht.
  assert (Hd' : (0 < IZR divisor)%R) by by apply IZR_lt.
  assert (Hr' : (0 <= IZR r < IZR divisor)%R).
  { split; [apply IZR_le|apply IZR_lt]; lia. }
  assert (Hin : (IZR q <= t < IZR q + 1)%R) by (split; nra).
  assert (Hexact : r = 0 → located t (shr_record_of_loc q loc_Exact)).
  { intros Hr0. assert (t = IZR q) by (rewrite Hr0 in Ht; nra).
    split; [exact Hin|assumption]. }
  unfold new_location, new_location_even, new_location_odd.
  destruct (Z.even divisor) eqn:Heven;
    (destruct (Z.eqb_spec r 0) as [Hr0|Hr0]; [by apply Hexact|]);
    assert (Hrpos : (1 <= IZR r)%R) by (apply IZR_le; lia);
    unfold located.
  - destruct (Z.compare_spec (2 * r) divisor) as [Heq|Hlt|Hgt];
      cbn [shr_record_of_loc shr_m shr_r shr_s].
    + assert (2 * IZR r = IZR divisor)%R
        by (rewrite <- mult_IZR; by f_equal).
      split; [done|]. nra.
    + assert (2 * IZR r < IZR divisor)%R
        by (rewrite <- mult_IZR; by apply IZR_lt).
      split; [done|]. split; nra.
    + assert (IZR divisor < 2 * IZR r)%R
        by (rewrite <- mult_IZR; by apply IZR_lt).
      split; [done|]. nra.
  - assert (Hne : 2 * r ≠ divisor).
    { intros <-. rewrite Z.even_mul in Heven. done. }
    destruct (Z.compare_spec (2 * r + 1) divisor) as [Heq|Hlt|Hgt];
      cbn [shr_record_of_loc shr_m shr_r shr_s].
    + assert (2 * IZR r < IZR divisor)%R
        by (rewrite <- mult_IZR; apply IZR_lt; lia).
      split; [done|]. split; nra.
    + assert (2 * IZR r < IZR divisor)%R
        by (rewrite <- mult_IZR; apply IZR_lt; lia).
      split; [done|]. split; nra.
    + assert (IZR divisor < 2 * IZR r)%R
        by (rewrite <- mult_IZR; apply IZR_lt; lia).
      split; [done|]. nra.
Qed.

(** The quotient of two normal doubles, away from overflow and underflow,
    is the exact quotient rounded to nearest. *)
Lemma SFdiv_correct m1 e1 m2 e2 :
  2 ^ 52 ≤ Z.pos m1 < 2 ^ 53 → 2 ^ 52 ≤ Z.pos m2 < 2 ^ 53 →
  -1021 ≤ e1 - e2 → e1 - e2 ≤ 1022 →
  ∃ M E,
    SFdiv prec emax (S754_finite false m1 e1) (S754_finite false m2 e2)
    = S754_finite false M E
    ∧ 2 ^ 52 ≤ Z.pos M < 2 ^ 53
    ∧ (let x := (IZR (Z.pos m1) * bpow e1 / (IZR (Z.pos m2) * bpow e2))%R in
       x - bpow E / 2 <= IZR (Z.pos M) * bpow E <= x + bpow E / 2)%R.
Proof.
  intros H1 H2 Hlow Hhigh. cbn [SFdiv xorb]. unfold SFdiv_core_binary.
  rewrite (Zdigits2_unique (Z.pos m1) 53) by (change (53 - 1) with 52; lia).
  rewrite (Zdigits2_unique (Z.pos m2) 53) by (change (53 - 1) with 52; lia).
  replace (53 + e1 - (53 + e2)) with (e1 - e2) by lia.
  rewrite fexp_normal by lia.
  replace (Z.min (e1 - e2 - 53) (e1 - e2)) with (e1 - e2 - 53) by lia.
  replace (e1 - e2 - (e1 - e2 - 53)) with 53 by lia.
  rewrite Z.shiftl_mul_pow2 by lia.
  set (e' := e1 - e2 - 53). set (m' := Z.pos m1 * 2 ^ 53).
  pose proof (Z_div_mod m' (Z.pos m2) ltac:(lia)) as Hspec.
  destruct (Z.div_eucl m' (Z.pos m2)) as [q r]. destruct Hspec as [Hqr Hr].
  assert (Hq : 2 ^ 52 ≤ q < 2 ^ 54).
  { unfold m' in Hqr. change (2 ^ 54) with (2 * 2 ^ 53).
    change (2 ^ 53) with (2 * 2 ^ 52) in *. nia. }
  pose proof (Zdigits2_between q 52 54 ltac:(lia) Hq) as Hd.
  set (x := (IZR (Z.pos m1) * bpow e1 / (IZR (Z.pos m2) * bpow e2))%R).
  assert (Hm2 : (0 < IZR (Z.pos m2))%R) by (apply IZR_lt; lia).
  assert (Ht : (x / bpow e' * IZR (Z.pos m2)
                = IZR q * IZR (Z.pos m2) + IZR r)%R).
  { rewrite <- mult_IZR, <- plus_IZR.
    replace (q * Z.pos m2 + r) with m' by lia. unfold m'.
    rewrite mult_IZR, <- bpow_IZR by lia. unfold x.
    assert (Hsplit : bpow e1 = (bpow 53 * bpow e' * bpow e2)%R).
    { rewrite <- !bpow_add. f_equal. unfold e'. lia. }
    rewrite Hsplit. pose proof (bpow_pos e'). pose proof (bpow_pos e2).
    field. lra. }
  destruct (binary_round_aux_correct q e' (new_location (Z.pos m2) r) x)
    as (M & E & Hround & HM & HE & Hclose);
    [lia|lia|unfold e'; lia|unfold e'; lia| |].
  { apply new_location_located; [lia|lia|done]. }
  exists M, E. done.
Qed.

(** *** Doubles between 2^-1000 and 2^1000 *)

(** A double between 2^-1000 and 2^1000 is positive and normal. *)
Lemma float_in_range (s : float) :
  (0x1p-1000 <=? s)%float = true → (s <=? 0x1p1000)%float = true →
  ∃ m e, Prim2SF s = S754_finite false m e
         ∧ 2 ^ 52 ≤ Z.pos m < 2 ^ 53 ∧ -1052 ≤ e ≤ 948.
Proof.
  rewrite !FloatAxioms.leb_spec.
  change (Prim2SF 0x1p-1000) with (S754_finite false 4503599627370496 (-1052)).
  change (Prim2SF 0x1p1000) with (S754_finite false 4503599627370496 948).
  pose proof (Prim2SF_valid s) as Hvalid.
  destruct (Prim2SF s) as [sign|sign| |sign m e]; try done.
  { by destruct sign. }
  unfold SFleb, SFcompare. destruct sign; [done|].
  intros Hlow Hhigh.
  assert (He : -1052 ≤ e ≤ 948).
  { destruct (Z.compare_spec (-1052) e), (Z.compare_spec e 948);
      (done || lia). }
  exists m, e. split; [done|]. split; [|done].
  unfold valid_binary, bounded, canonical_mantissa in Hvalid.
  apply andb_true_iff in Hvalid as [Hcanon _].
  apply Z.eqb_eq in Hcanon.
  unfold fexp, SpecFloat.emin, prec, emax in Hcanon.
  assert (Hdig : Zdigits2 (Z.pos m) = 53) by (simpl; lia).
  pose proof (Zdigits2_bounds (Z.pos m) ltac:(lia)) as Hb.
  rewrite Hdig in Hb. exact Hb.
Qed.

(** The rounding error of a normal result is at most 2^-53 of it. *)
Lemma relative_error (M : positive) (E : Z) (x : R) :
  2 ^ 52 ≤ Z.pos M < 2 ^ 53 →
  (x - bpow E / 2 <= IZR (Z.pos M) * bpow E <= x + bpow E / 2)%R →
  (0 < IZR (Z.pos M) * bpow E)%R
  ∧ (IZR (Z.pos M) * bpow E * (1 - / 9007199254740992) <= x
     <= IZR (Z.pos M) * bpow E * (1 + / 9007199254740992))%R.
Proof.
  intros HM Hclose. pose proof (bpow_pos E) as HB.
  assert (HM' : (4503599627370496 <= IZR (Z.pos M))%R).
  { apply IZR_le. change (2 ^ 52) with 4503599627370496 in HM. lia. }
  split; [nra|]. split; nra.
Qed.

(** With three roundings of relative error at most [u], the quotient of
    [S] by the rounded square of its rounded root is within [8 u] of 1. *)
Lemma quotient_near_one (S R P Q x u : R) :
  (0 < u <= / 100)%R →
  (0 < R)%R → (0 < P)%R → (0 < Q)%R →
  (0 <= x)%R → (x * x = S)%R →
  (R * (1 - u) <= x <= R * (1 + u))%R →
  (P * (1 - u) <= R * R <= P * (1 + u))%R →
  (Q * (1 - u) <= S / P <= Q * (1 + u))%R →
  (1 - 8 * u <= Q <= 1 + 8 * u)%R.
Proof.
  intros Hu HR HP HQ Hx Hxx Hroot Hsquare Hquot.
  assert (H1 : (x * x <= R * R * ((1 + u) * (1 + u)))%R).
  { replace (R * R * ((1 + u) * (1 + u)))%R
      with (R * (1 + u) * (R * (1 + u)))%R by ring.
    destruct Hroot as [_ Hhi]. generalize dependent (R * (1 + u))%R.
    intros y Hy. nra. }
  assert (H2 : (R * R * ((1 - u) * (1 - u)) <= x * x)%R).
  { replace (R * R * ((1 - u) * (1 - u)))%R
      with (R * (1 - u) * (R * (1 - u)))%R by ring.
    destruct Hroot as [Hlo _].
    assert (Hy0 : (0 <= R * (1 - u))%R) by nra.
    generalize dependent (R * (1 - u))%R. intros y Hy Hy0. nra. }
  assert (Hp2 : (0 <= (1 + u) * (1 + u))%R) by nra.
  assert (Hm2 : (0 <= (1 - u) * (1 - u))%R) by nra.
  assert (H3 : (S <= P * ((1 + u) * ((1 + u) * (1 + u))))%R).
  { rewrite <- Hxx. eapply Rle_trans; [exact H1|]. nra. }
  assert (H4 : (P * ((1 - u) * ((1 - u) * (1 - u))) <= S)%R).
  { rewrite <- Hxx. eapply Rle_trans; [|exact H2]. nra. }
  set (ratio := (S / P)%R) in *.
  assert (Hratio : (ratio * P = S)%R) by (unfold ratio; field; lra).
  assert (H5 : (ratio <= (1 + u) * ((1 + u) * (1 + u)))%R) by nra.
  assert (H6 : ((1 - u) * ((1 - u) * (1 - u)) <= ratio)%R) by nra.
  assert (Hup : ((1 + u) * ((1 + u) * (1 + u)) <= (1 + 8 * u) * (1 - u))%R)
    by nra.
  assert (Hdown : ((1 - 8 * u) * (1 + u) <= (1 - u) * ((1 - u) * (1 - u)))%R)
    by nra.
  split; nra.
Qed.

Lemma bpow_neg_IZR n : n ≤ 0 → (bpow n * IZR (2 ^ (- n)) = 1)%R.
Proof.
  intros Hn. rewrite <- bpow_IZR, <- bpow_add by lia.
  replace (n + - n) with 0 by lia. apply bpow_0.
Qed.

(** A normal double within 8 * 2^-53 of 1 is one of the eight doubles
    below 1, or lies in [[1, 2)]. *)
Lemma near_one_exponent (M : positive) (E : Z) :
  2 ^ 52 ≤ Z.pos M < 2 ^ 53 →
  (1 - 8 * / 9007199254740992 <= IZR (Z.pos M) * bpow E
   <= 1 + 8 * / 9007199254740992)%R →
  (E = -53 ∧ 2 ^ 53 - 8 ≤ Z.pos M) ∨ E = -52.
Proof.
  intros HM Hnear.
  assert (HM' : (4503599627370496 <= IZR (Z.pos M) < 9007199254740992)%R).
  { change (2 ^ 52) with 4503599627370496 in HM.
    change (2 ^ 53) with 9007199254740992 in HM.
    split; [apply IZR_le|apply IZR_lt]; lia. }
  pose proof (bpow_pos E) as HB.
  assert (Hmul : (4503599627370496 * bpow E <= IZR (Z.pos M) * bpow E
                  < 9007199254740992 * bpow E)%R).
  { split; [apply Rmult_le_compat_r|apply Rmult_lt_compat_r]; lra. }
  assert (Hhigh : E ≤ -52).
  { destruct (decide (E ≤ -52)) as [|Hnot]; [done|]. exfalso.
    pose proof (bpow_le (-51) E ltac:(lia)) as Hle.
    pose proof (bpow_neg_IZR (-51) ltac:(lia)) as H51.
    change (2 ^ (- -51)) with 2251799813685248 in H51. lra. }
  assert (Hlow : -53 ≤ E).
  { destruct (decide (-53 ≤ E)) as [|Hnot]; [done|]. exfalso.
    pose proof (bpow_le E (-54) ltac:(lia)) as Hle.
    pose proof (bpow_neg_IZR (-54) ltac:(lia)) as H54.
    change (2 ^ (- -54)) with 18014398509481984 in H54. lra. }
  destruct (decide (E = -52)) as [|Hne]; [by right|]. left.
  assert (E = -53) as -> by lia. split; [done|].
  pose proof (bpow_neg_IZR (-53) ltac:(lia)) as H53.
  change (2 ^ (- -53)) with 9007199254740992 in H53.
  apply le_IZR. change (2 ^ 53 - 8) with 9007199254740984.
  generalize dependent (bpow (-53)). intros b Hnear Hb Hmul Hb53. nra.
Qed.

(** *** The quotient of a double by the square of its root *)

(** For a double [s] between 2^-1000 and 2^1000, the root is not 0 and
    [s / (sqrt s * sqrt s)], with its three roundings, is one of the eight
    doubles below 1, or lies in [[1, 2)]. *)
Lemma self_quotient (s : float) :
  (0x1p-1000 <=? s)%float = true → (s <=? 0x1p1000)%float = true →
  (PrimFloat.sqrt s =? 0)%float = false
  ∧ ∃ M E,
      Prim2SF (s / (PrimFloat.sqrt s * PrimFloat.sqrt s))%float
      = S754_finite false M E
      ∧ 2 ^ 52 ≤ Z.pos M < 2 ^ 53
      ∧ ((E = -53 ∧ 2 ^ 53 - 8 ≤ Z.pos M) ∨ E = -52).
Proof.
  intros Hlow Hhigh.
  destruct (float_in_range s Hlow Hhigh) as (m & e & Hs & Hm & He).
  pose proof (Zdiv2_odd_eqn e) as Hodd.
  assert (Hdiv : 2 * Z.div2 e ≤ e ≤ 2 * Z.div2 e + 1)
    by (destruct (Z.odd e); lia).
  set (S := (IZR (Z.pos m) * bpow e)%R).
  assert (HS : (0 < S)%R).
  { unfold S. apply Rmult_lt_0_compat; [apply IZR_lt; lia|apply bpow_pos]. }
  set (x := R_sqrt.sqrt S).
  assert (Hx : (0 <= x)%R) by apply sqrt_pos.
  assert (Hxx : (x * x = S)%R) by (apply sqrt_sqrt; lra).
  (* the root *)
  destruct (SFsqrt_correct m e x Hm ltac:(lia) ltac:(lia) Hx Hxx)
    as (Mr & Er & Hroot & HMr & HEr & Hcr).
  assert (Hr : Prim2SF (PrimFloat.sqrt s) = S754_finite false Mr Er).
  { rewrite FloatAxioms.sqrt_spec, Hs. exact Hroot. }
  destruct (relative_error Mr Er x HMr Hcr) as [HR Hrel_r].
  (* its square *)
  destruct (SFmul_correct Mr Er Mr Er HMr HMr ltac:(lia) ltac:(lia))
    as (Mp & Ep & Hsquare & HMp & HEp & Hcp).
  assert (Hp : Prim2SF (PrimFloat.sqrt s * PrimFloat.sqrt s)%float
               = S754_finite false Mp Ep).
  { rewrite FloatAxioms.mul_spec, Hr. exact Hsquare. }
  cbv zeta in Hcp.
  destruct (relative_error Mp Ep _ HMp Hcp) as [HP Hrel_p].
  (* the quotient *)
  destruct (SFdiv_correct m e Mp Ep Hm HMp ltac:(lia) ltac:(lia))
    as (Mq & Eq & Hquot & HMq & Hcq).
  assert (Hq : Prim2SF (s / (PrimFloat.sqrt s * PrimFloat.sqrt s))%float
               = S754_finite false Mq Eq).
  { rewrite FloatAxioms.div_spec, Hs, Hp. exact Hquot. }
  cbv zeta in Hcq. fold S in Hcq.
  destruct (relative_error Mq Eq _ HMq Hcq) as [HQ Hrel_q].
  split.
  { rewrite FloatAxioms.eqb_spec, Hr. reflexivity. }
  exists Mq, Eq. split; [done|]. split; [done|].
  apply near_one_exponent; [done|].
  apply (quotient_near_one S (IZR (Z.pos Mr) * bpow Er)
           (IZR (Z.pos Mp) * bpow Ep) (IZR (Z.pos Mq) * bpow Eq) x
           (/ 9007199254740992)); try done; lra.
Qed.

Lemma SFcompare_same_exponent M1 M2 E :
  SFcompare (S754_finite false M1 E) (S754_finite false M2 E)
  = Some (Pos.compare M1 M2).
Proof. unfold SFcompare. by rewrite Z.compare_refl. Qed.

(** The clamp [Math.max(-1, Math.min(1, q))] of a double [q] that is one
    of the eight doubles below 1, or lies in [[1, 2)]. *)
Lemma clamp_near_one (q : float) M E :
  Prim2SF q = S754_finite false M E →
  2 ^ 52 ≤ Z.pos M < 2 ^ 53 →
  (E = -53 ∧ 2 ^ 53 - 8 ≤ Z.pos M) ∨ E = -52 →
  (0x1.ffffffffffff8p-1 <=? floatMax (-1) (floatMin 1 q))%float = true
  ∧ (floatMax (-1) (floatMin 1 q) <=? 1)%float = true.
Proof.
  intros Hq HM Hcases.
  assert (Hnan : is_nan q = false).
  { unfold is_nan. rewrite FloatAxioms.eqb_spec, Hq. unfold SFeqb.
    by rewrite SFcompare_same_exponent, Pos.compare_refl. }
  assert (Hone : (0x1.ffffffffffff8p-1 <=? floatMax (-1) 1)%float = true
                 ∧ (floatMax (-1) 1 <=? 1)%float = true).
  { split; vm_compute; reflexivity. }
  assert (Hone_sf : Prim2SF 1 = S754_finite false 4503599627370496 (-52))
    by reflexivity.
  destruct Hcases as [[-> Hbig]| ->].
  - (* below 1: the clamp returns [q] *)
    assert (Hlt1 : (1 <? q)%float = false).
    { rewrite FloatAxioms.ltb_spec, Hq, Hone_sf. reflexivity. }
    assert (Hlt2 : (q <? 1)%float = true).
    { rewrite FloatAxioms.ltb_spec, Hq, Hone_sf. reflexivity. }
    assert (Hminq : floatMin 1 q = q).
    { unfold floatMin. rewrite Hnan, Hlt1, Hlt2.
      change (is_nan 1%float || false) with false. reflexivity. }
    assert (Hmaxq : floatMax (-1) q = q).
    { unfold floatMax. rewrite Hnan.
      change (is_nan (-1)%float || false) with false. cbv iota.
      assert (Hneg : (-1 <? q)%float = true).
      { rewrite FloatAxioms.ltb_spec, Hq.
        change (Prim2SF (-1)) with (S754_finite true 4503599627370496 (-52)).
        reflexivity. }
      by rewrite Hneg. }
    rewrite Hminq, Hmaxq. split.
    + rewrite FloatAxioms.leb_spec, Hq.
      change (Prim2SF 0x1.ffffffffffff8p-1)
        with (S754_finite false 9007199254740984 (-53)).
      unfold SFleb. rewrite SFcompare_same_exponent.
      change (2 ^ 53 - 8) with (Z.pos 9007199254740984) in Hbig.
      destruct (Pos.compare_spec 9007199254740984 M) as [_|_|Hlt];
        [reflexivity|reflexivity|].
      exfalso. apply Pos2Z.pos_lt_pos in Hlt. lia.
    + rewrite FloatAxioms.leb_spec, Hq, Hone_sf. reflexivity.
  - (* at least 1: the clamp returns 1 *)
    assert (Hcmp1 : (1 <? q)%float
                    = match Pos.compare 4503599627370496 M with
                      | Lt => true | _ => false end).
    { rewrite FloatAxioms.ltb_spec, Hq, Hone_sf. unfold SFltb.
      by rewrite SFcompare_same_exponent. }
    assert (Hcmp2 : (q <? 1)%float = false).
    { rewrite FloatAxioms.ltb_spec, Hq, Hone_sf. unfold SFltb.
      rewrite SFcompare_same_exponent.
      destruct (Pos.compare_spec M 4503599627370496) as [_|Hlt|_];
        [reflexivity| |reflexivity].
      exfalso. apply Pos2Z.pos_lt_pos in Hlt.
      change (2 ^ 52) with (Z.pos 4503599627370496) in HM. lia. }
    assert (Hmin : floatMin 1 q = 1%float).
    { unfold floatMin. rewrite Hnan, Hcmp1, Hcmp2.
      change (is_nan 1%float || false) with false. cbv iota.
      change (get_sign 1%float) with false. cbv iota.
      destruct (Pos.compare_spec 4503599627370496 M) as [<-|_|Hlt];
        [|reflexivity|].
      - apply Prim2SF_inj. by rewrite Hq.
      - exfalso. apply Pos2Z.pos_lt_pos in Hlt.
        change (2 ^ 52) with (Z.pos 4503599627370496) in HM. lia. }
    rewrite Hmin. exact Hone.
Qed.

(** *** The similarity of a vector with itself *)

(** The two loops of [cosine(a, a)] compute the same sum. *)
Lemma dotProductLoop_same {N} `{JsArith N} i (a : list N) acc :
  dotProductLoop i (JNumber <$> a) (JNumber <$> a) acc
  = Ok (sumOfSquares (JNumber <$> a) acc).
Proof.
  revert i acc. induction a as [|x a IH]; intros i acc; [done|].
  cbn [fmap list_fmap dotProductLoop sumOfSquares]. apply IH.
Qed.




(** * Further properties *)

(** *** Region growing on any buffer *)

Section GrowAny.
Variables (buffer : list Z) (width height threshold : Z).

(** What the loop does from any state: [seen] lists the pixels it admits. *)
Lemma growLoop_admits fuel stack visited region result visited' :
  growLoop fuel buffer width height threshold stack visited region
  = Some (result, visited') →
  ∃ seen : list (Z * Z),
    NoDup ((pixelIndex width) <$> seen)
    ∧ (∀ p, p ∈ seen →
         (0 ≤ p.1 < width ∧ 0 ≤ p.2 < height)
         ∧ (pixelIndex width p ∉ visited)
         ∧ bufferBelow buffer (pixelIndex width p) threshold = false)
    ∧ (∀ i, i ∈ visited' ↔ i ∈ visited ∨ i ∈ (pixelIndex width) <$> seen)
    ∧ gsize result = gsize region + Z.of_nat (length seen)
    ∧ (minX result ≤ minX region ∧ maxX region ≤ maxX result
       ∧ minY result ≤ minY region ∧ maxY region ≤ maxY result)
    ∧ (∀ p, p ∈ seen →
         minX result ≤ p.1 ≤ maxX result ∧ minY result ≤ p.2 ≤ maxY result)
    ∧ ((minX result = minX region ∨ ∃ p, p ∈ seen ∧ minX result = p.1)
       ∧ (maxX result = maxX region ∨ ∃ p, p ∈ seen ∧ maxX result = p.1)
       ∧ (minY result = minY region ∨ ∃ p, p ∈ seen ∧ minY result = p.2)
       ∧ (maxY result = maxY region ∨ ∃ p, p ∈ seen ∧ maxY result = p.2)).
Proof.
  revert stack visited region.
  induction fuel as [|fuel IH]; intros stack visited region;
    destruct stack as [|[x y] rest]; cbn [growLoop]; try done.
  1,2: intros [= <- <-]; exists []; cbn [fmap list_fmap length];
       split_and!;
       [ simpl; apply NoDup_nil_2 | intros p Hp; inv Hp
       | intros i; rewrite elem_of_nil; tauto | lia | lia | lia | lia | lia
       | intros p Hp; inv Hp | by left | by left | by left | by left ].
  destruct (bool_decide _ || _ || _ || _ || _) eqn:Hskip; [by apply IH|].
  destruct (bufferBelow _ _ _) eqn:Hbelow; [by apply IH|].
  apply skip_false in Hskip as (Hnew & Hx & Hy).
  intros (seen & Hnodup & Hseen & Hvis & Hsize & Hbox & Hcover & Hhit)%IH.
  cbn [admitPixel gsize minX maxX minY maxY] in *.
  exists ((x, y) :: seen).
  assert (Hfresh : ∀ p, p ∈ seen → pixelIndex width p ≠ pixelIndex width (x, y)).
  { intros p Hp Heq. destruct (Hseen p Hp) as (_ & Hnot & _).
    apply Hnot. rewrite Heq. unfold pixelIndex. simpl. set_solver. }
  destruct Hhit as (H1 & H2 & H3 & H4).
  split_and!.
  - cbn [fmap list_fmap]. constructor; [|done].
    intros (p & Heq & Hp)%list_elem_of_fmap. by apply (Hfresh p).
  - intros p [->|Hp]%elem_of_cons;
      [unfold pixelIndex; simpl; split_and!; (done || lia)|].
    destruct (Hseen p Hp) as (Hin & Hnot & Hnb).
    split; [done|]. split; [|done].
    intros Hv. apply Hnot. set_solver.
  - intros i. rewrite Hvis. cbn [fmap list_fmap]. rewrite elem_of_cons.
    rewrite elem_of_union, elem_of_singleton. unfold pixelIndex at 2.
    simpl. tauto.
  - cbn [length]. lia.
  - lia.
  - lia.
  - lia.
  - lia.
  - intros p [->|Hp]%elem_of_cons; [simpl; lia|by apply Hcover].
  - destruct H1 as [H1|(p & Hp & H1)];
      [|right; exists p; split; [by apply elem_of_cons; right|done]].
    destruct (Z.min_spec (minX region) x) as [[_ Hm]|[_ Hm]];
      [left; lia | right; exists (x, y); split; [apply elem_of_cons; by left| simpl; lia]].
  - destruct H2 as [H2|(p & Hp & H2)];
      [|right; exists p; split; [by apply elem_of_cons; right|done]].
    destruct (Z.max_spec (maxX region) x) as [[_ Hm]|[_ Hm]];
      [right; exists (x, y); split; [apply elem_of_cons; by left| simpl; lia] | left; lia].
  - destruct H3 as [H3|(p & Hp & H3)];
      [|right; exists p; split; [by apply elem_of_cons; right|done]].
    destruct (Z.min_spec (minY region) y) as [[_ Hm]|[_ Hm]];
      [left; lia | right; exists (x, y); split; [apply elem_of_cons; by left| simpl; lia]].
  - destruct H4 as [H4|(p & Hp & H4)];
      [|right; exists p; split; [by apply elem_of_cons; right|done]].
    destruct (Z.max_spec (maxY region) y) as [[_ Hm]|[_ Hm]];
      [right; exists (x, y); split; [apply elem_of_cons; by left| simpl; lia] | left; lia].
Qed.

End GrowAny.

Lemma growLoop_nil fuel buffer width height threshold visited region :
  growLoop fuel buffer width height threshold [] visited region
  = Some (region, visited).
Proof. by destruct fuel. Qed.

(** Distinct pixels inside a box are at most as many as the box has. *)
Lemma length_le_box (pixels : list (Z * Z)) a b c d :
  a ≤ b → c ≤ d → NoDup pixels →
  (∀ p, p ∈ pixels → a ≤ p.1 ≤ b ∧ c ≤ p.2 ≤ d) →
  Z.of_nat (length pixels) ≤ (b - a + 1) * (d - c + 1).
Proof.
  intros Hab Hcd Hnodup Hin.
  assert (Hsub : pixels ⊆+ rectCells a c (b - a + 1) (d - c + 1)).
  { apply NoDup_submseteq; [done|]. intros p Hp.
    apply list_elem_of_In. unfold rectCells. destruct p as [x y].
    apply in_prod_iff. rewrite <- !list_elem_of_In, !elem_of_seqZ.
    specialize (Hin _ Hp). simpl in Hin. lia. }
  apply submseteq_length in Hsub. unfold rectCells in Hsub.
  rewrite length_prod, !length_seqZ in Hsub. nia.
Qed.

Lemma growRegion_marks buffer width height startX startY visited
    threshold :
  let '(region, visited') :=
    growRegion buffer width height startX startY visited threshold in
  visited ⊆ visited'
  ∧ gsize region = Z.of_nat (size (visited' ∖ visited))
  ∧ ∀ i, i ∈ visited' ∖ visited →
      0 ≤ i < width * height ∧ bufferBelow buffer i threshold = false.
Proof.
  pose proof (growRegion_runs buffer width height startX startY visited
                threshold) as Hrun.
  destruct (growRegion _ _ _ _ _ _ _) as [region visited'].
  apply growLoop_admits in Hrun
    as (seen & Hnodup & Hseen & Hvis & Hsize & _).
  assert (Hnew : visited' ∖ visited
                 = list_to_set ((pixelIndex width) <$> seen)).
  { apply set_eq. intros i.
    rewrite elem_of_difference, Hvis, elem_of_list_to_set. split.
    - intros [[?|?] ?]; done.
    - intros Hi. split; [by right|].
      apply list_elem_of_fmap in Hi as (p & -> & Hp).
      by destruct (Hseen p Hp) as (_ & ? & _). }
  split_and!.
  - intros i Hi. apply Hvis. by left.
  - rewrite Hnew, size_list_to_set, length_fmap by done.
    cbn [growStart gsize] in Hsize. lia.
  - intros i. rewrite Hnew, elem_of_list_to_set.
    intros (p & -> & Hp)%list_elem_of_fmap.
    destruct (Hseen p Hp) as ((Hx & Hy) & _ & Hnb). split; [|done].
    unfold pixelIndex. by apply index_in_bounds.
Qed.

(** X1. The region counts exactly the pixels it marks: the set of visited
    indices only grows, the size of the region is the number of indices
    added, and each of them is an index of the image whose value is not
    below the threshold. *)
Theorem growRegion_counts_marked buffer width height startX startY visited
    threshold :
  let '(region, visited') :=
    growRegion buffer width height startX startY visited threshold in
  visited ⊆ visited'
  ∧ gsize region = Z.of_nat (size (visited' ∖ visited))
  ∧ ∀ i, i ∈ visited' ∖ visited →
      0 ≤ i < width * height ∧ bufferBelow buffer i threshold = false.
Proof.
  exact (growRegion_marks buffer width height startX startY visited
           threshold).
Qed.

Lemma growRegion_box buffer width height startX startY visited
    threshold :
  let region :=
    (growRegion buffer width height startX startY visited threshold).1 in
  0 ≤ gsize region
  ∧ (minX region ≤ startX ≤ maxX region ∧ minY region ≤ startY ≤ maxY region)
  ∧ (0 < gsize region →
     (0 ≤ minX region ∧ maxX region < width
      ∧ 0 ≤ minY region ∧ maxY region < height)
     ∧ gsize region
       ≤ (maxX region - minX region + 1) * (maxY region - minY region + 1)).
Proof.
  pose proof (growRegion_runs buffer width height startX startY visited
                threshold) as Hrun.
  destruct (growRegion _ _ _ _ _ _ _) as [region visited']. simpl.
  unfold growFuel in Hrun. cbn [growLoop] in Hrun.
  destruct (bool_decide _ || _ || _ || _ || _) eqn:Hskip.
  { rewrite growLoop_nil in Hrun. injection Hrun as <- <-. simpl. lia. }
  destruct (bufferBelow _ _ _) eqn:Hbelow.
  { rewrite growLoop_nil in Hrun. injection Hrun as <- <-. simpl. lia. }
  apply skip_false in Hskip as (Hnew & Hx & Hy).
  apply growLoop_admits in Hrun
    as (seen & Hnodup & Hseen & Hvis & Hsize & Hbox & Hcover & Hhit).
  cbn [admitPixel growStart gsize minX maxX minY maxY] in *.
  destruct Hhit as (H1 & H2 & H3 & H4).
  assert (Hin : ∀ p, p ∈ seen → 0 ≤ p.1 < width ∧ 0 ≤ p.2 < height).
  { intros p Hp. by destruct (Hseen p Hp) as (? & _). }
  split; [lia|]. split; [lia|]. intros _. split.
  - split_and!.
    + destruct H1 as [H1|(p & Hp%Hin & H1)]; lia.
    + destruct H2 as [H2|(p & Hp%Hin & H2)]; lia.
    + destruct H3 as [H3|(p & Hp%Hin & H3)]; lia.
    + destruct H4 as [H4|(p & Hp%Hin & H4)]; lia.
  - replace (0 + 1 + Z.of_nat (length seen))
      with (Z.of_nat (length ((startX, startY) :: seen)))
      in Hsize by (cbn [length]; lia).
    rewrite Hsize. apply length_le_box; [lia | lia | |].
    + constructor.
      * intros Hs. destruct (Hseen _ Hs) as (_ & Hnot & _).
        apply Hnot. unfold pixelIndex. simpl. set_solver.
      * by apply NoDup_fmap_1 in Hnodup.
    + intros p [->|Hp]%elem_of_cons; [simpl; lia|by apply Hcover].
Qed.

(** X2. The bounding box contains the seed; when a pixel was admitted the
    box lies inside the image and holds at least as many pixels as were
    counted. *)
Theorem growRegion_bounding_box buffer width height startX startY visited
    threshold :
  let region :=
    (growRegion buffer width height startX startY visited threshold).1 in
  0 ≤ gsize region
  ∧ (minX region ≤ startX ≤ maxX region ∧ minY region ≤ startY ≤ maxY region)
  ∧ (0 < gsize region →
     (0 ≤ minX region ∧ maxX region < width
      ∧ 0 ≤ minY region ∧ maxY region < height)
     ∧ gsize region
       ≤ (maxX region - minX region + 1) * (maxY region - minY region + 1)).
Proof.
  exact (growRegion_box buffer width height startX startY visited threshold).
Qed.

Lemma growRegion_bounding_box_witness :
  (0 ≤ minX grownSquare ∧ maxX grownSquare < 12
   ∧ 0 ≤ minY grownSquare ∧ maxY grownSquare < 12)
  ∧ gsize grownSquare
    ≤ (maxX grownSquare - minX grownSquare + 1)
      * (maxY grownSquare - minY grownSquare + 1).
Proof.
  apply (growRegion_bounding_box (squareBuffer 12 12 3 4 5) 12 12 5 6 ∅ 100).
  vm_compute. reflexivity.
Defined.

(** X3. A seed that is already marked, outside the image or below the
    threshold gives the empty region and marks nothing; any other seed is
    counted. *)
Theorem growRegion_rejected_seed buffer width height startX startY visited
    threshold :
  let rejected :=
    startY * width + startX ∈ visited
    ∨ ¬ (0 ≤ startX < width ∧ 0 ≤ startY < height)
    ∨ bufferBelow buffer (startY * width + startX) threshold = true in
  (rejected →
   growRegion buffer width height startX startY visited threshold
   = (growStart startX startY, visited))
  ∧ (¬ rejected →
     0 < gsize (growRegion buffer width height startX startY visited
                  threshold).1
     ∧ startY * width + startX
       ∈ (growRegion buffer width height startX startY visited threshold).2).
Proof.
  pose proof (growRegion_runs buffer width height startX startY visited
                threshold) as Hrun.
  destruct (growRegion _ _ _ _ _ _ _) as [region visited']. simpl.
  unfold growFuel in Hrun. cbn [growLoop] in Hrun.
  destruct (bool_decide _ || _ || _ || _ || _) eqn:Hskip.
  { rewrite growLoop_nil in Hrun. injection Hrun as <- <-.
    split; [done|]. intros Hnot. exfalso.
    apply Hnot.
    rewrite !orb_true_iff, bool_decide_eq_true, !Z.geb_leb, !Z.ltb_lt,
      !Z.leb_le in Hskip.
    destruct_or! Hskip; [by left|right; left; lia..]. }
  apply skip_false in Hskip as (Hnew & Hx & Hy).
  destruct (bufferBelow _ _ _) eqn:Hbelow.
  { rewrite growLoop_nil in Hrun. injection Hrun as <- <-.
    split; [done|]. intros Hnot. exfalso.
    apply Hnot. by right; right. }
  apply growLoop_admits in Hrun
    as (seen & Hnodup & Hseen & Hvis & Hsize & _).
  cbn [admitPixel growStart gsize] in Hsize. split.
  - intros [?|[?|?]]; [done|tauto|done].
  - intros _. split; [lia|]. apply Hvis. left. set_solver.
Qed.

Lemma growRegion_rejected_seed_witness :
  growRegion (squareBuffer 12 12 3 4 5) 12 12 0 0 ∅ 100
  = (growStart 0 0, ∅)
  ∧ 0 < gsize (growRegion (squareBuffer 12 12 3 4 5) 12 12 5 6 ∅ 100).1.
Proof.
  split.
  - apply (growRegion_rejected_seed (squareBuffer 12 12 3 4 5) 12 12 0 0 ∅ 100).
    right. right. vm_compute. reflexivity.
  - apply (growRegion_rejected_seed (squareBuffer 12 12 3 4 5) 12 12 5 6 ∅ 100).
    intros [Hin|[Hout|Hbelow]].
    + by apply not_elem_of_empty in Hin.
    + apply Hout. lia.
    + vm_compute in Hbelow. discriminate.
Defined.

(** *** The sizes of the candidates *)

Lemma totalSize_app regions regions' :
  totalSize (regions ++ regions')
  = totalSize regions + totalSize regions'.
Proof.
  unfold totalSize.
  induction regions as [|r regions IH]; simpl; [done|]. rewrite IH. lia.
Qed.

(** X4. The sizes of the candidates of the seeding step add up to at most
    the number of pixels of the image, [width * height] (0 when that is
    negative). *)
Theorem seedRegions_sizes_bounded edgeBuffer width height edgeThreshold
    regionThreshold :
  totalSize (seedRegions edgeBuffer width height edgeThreshold
                regionThreshold)
  ≤ Z.max 0 (width * height).
Proof.
  unfold seedRegions.
  set (step := seedStep _ _ _ _ _ _).
  generalize (y ← strideRange (minRegionSizeOf width)
                    (height - minRegionSizeOf width);
              x ← strideRange (minRegionSizeOf width)
                    (width - minRegionSizeOf width);
              [(x, y)]).
  intros seeds.
  assert (Hall : ∀ state : gset Z * list Region,
            state.1 ⊆ cellSet width height →
            totalSize state.2 ≤ Z.of_nat (size state.1) →
            (foldl step state seeds).1 ⊆ cellSet width height
            ∧ totalSize (foldl step state seeds).2
              ≤ Z.of_nat (size (foldl step state seeds).1)).
  { induction seeds as [|[x y] seeds IH]; intros state Hsub Hsum; [done|].
    simpl. apply IH; destruct state as [visited regions];
      unfold step, seedStep; cbn [fst snd] in *;
      (destruct (bool_decide _ || _); [done|]);
      pose proof (growRegion_marks edgeBuffer width height x y visited
                    regionThreshold) as Hmarks;
      destruct (growRegion _ _ _ _ _ _ _) as [region visited'];
      destruct Hmarks as (Hmono & Hcount & Hnew); cbn [fst snd].
    - intros i Hi. destruct (decide (i ∈ visited)) as [?|Hnot];
        [by apply Hsub|].
      apply elem_of_cellSet, Hnew. set_solver.
    - assert (Hsize : size visited' = (size visited
                                       + size (visited' ∖ visited))%nat).
      { rewrite <- size_union by set_solver. f_equal.
        apply set_eq. intros i. rewrite elem_of_union, elem_of_difference.
        destruct (decide (i ∈ visited)); set_solver. }
      destruct (largeEnough _ _); [|lia].
      rewrite totalSize_app. cbn [totalSize foldr candidateOf region_size].
      lia. }
  destruct (Hall (∅, [])) as [Hsub Hsum]; [set_solver|done|].
  etrans; [exact Hsum|].
  apply subseteq_size in Hsub. rewrite size_cellSet in Hsub. lia.
Qed.

(** *** The candidates of the seeding step *)

Lemma largeEnough_positive minRegionSize region :
  largeEnough minRegionSize region = true → 0 < gsize region.
Proof.
  unfold largeEnough. intros Hlt%Qltb_lt.
  assert (Hpos : (0 <= inject_Z (minRegionSize * minRegionSize) * (8 # 100))%Q).
  { apply Qmult_le_0_compat; [|done].
    change 0%Q with (inject_Z 0). rewrite <- Zle_Qle. nia. }
  assert (Hq : (inject_Z 0 < inject_Z (gsize region))%Q).
  { eapply Qle_lt_trans; [exact Hpos|exact Hlt]. }
  by rewrite <- Zlt_Qlt in Hq.
Qed.

Lemma seedRegions_candidates edgeBuffer width height edgeThreshold
    regionThreshold candidate :
  candidate ∈ seedRegions edgeBuffer width height edgeThreshold
                regionThreshold →
  (0 ≤ region_x candidate ∧ 0 ≤ region_width candidate
   ∧ region_x candidate + region_width candidate < width)
  ∧ (0 ≤ region_y candidate ∧ 0 ≤ region_height candidate
     ∧ region_y candidate + region_height candidate < height)
  ∧ (inject_Z (minRegionSizeOf width * minRegionSizeOf width) * (8 # 100)
     < inject_Z (region_size candidate))%Q
  ∧ 0 < region_size candidate
      ≤ (region_width candidate + 1) * (region_height candidate + 1)
  ∧ region_faceScore candidate = None.
Proof.
  unfold seedRegions.
  set (step := seedStep _ _ _ _ _ _).
  set (P := λ c : Region,
    (0 ≤ region_x c ∧ 0 ≤ region_width c
     ∧ region_x c + region_width c < width)
    ∧ (0 ≤ region_y c ∧ 0 ≤ region_height c
       ∧ region_y c + region_height c < height)
    ∧ (inject_Z (minRegionSizeOf width * minRegionSizeOf width) * (8 # 100)
       < inject_Z (region_size c))%Q
    ∧ 0 < region_size c ≤ (region_width c + 1) * (region_height c + 1)
    ∧ region_faceScore c = None).
  generalize (y ← strideRange (minRegionSizeOf width)
                    (height - minRegionSizeOf width);
              x ← strideRange (minRegionSizeOf width)
                    (width - minRegionSizeOf width);
              [(x, y)]).
  intros seeds.
  assert (Hall : ∀ state, Forall P state.2 →
                 Forall P (foldl step state seeds).2).
  { induction seeds as [|[x y] seeds IH]; intros state Hstate; [done|].
    simpl. apply IH. destruct state as [visited regions].
    unfold step, seedStep.
    destruct (bool_decide _ || _); [done|].
    pose proof (growRegion_box edgeBuffer width height x y visited
                  regionThreshold) as Hbox.
    destruct (growRegion _ _ _ _ _ _ _) as [region visited'].
    cbn [fst snd] in *.
    destruct (largeEnough _ _) eqn:Hlarge; [|done].
    apply Forall_app. split; [done|]. apply Forall_singleton.
    pose proof (largeEnough_positive _ _ Hlarge) as Hpos.
    destruct Hbox as (_ & Hseed & Hin). specialize (Hin Hpos).
    unfold P, candidateOf. cbn.
    destruct Hin as ((? & ? & ? & ?) & ?).
    split_and!; try lia; try done.
    unfold largeEnough in Hlarge. by apply Qltb_lt in Hlarge. }
  intros Hin. specialize (Hall (∅, []) (Forall_nil_2 _)).
  rewrite Forall_forall in Hall. by apply Hall.
Qed.

(** X5. Every candidate pushed by the seeding step lies inside the image,
    holds more than 8% of [minRegionSize²] pixels, at most as many as its
    box with both borders counted, and carries no score yet. *)
Theorem seedRegions_candidates_inside edgeBuffer width height edgeThreshold
    regionThreshold candidate :
  candidate ∈ seedRegions edgeBuffer width height edgeThreshold
                regionThreshold →
  (0 ≤ region_x candidate ∧ 0 ≤ region_width candidate
   ∧ region_x candidate + region_width candidate < width)
  ∧ (0 ≤ region_y candidate ∧ 0 ≤ region_height candidate
     ∧ region_y candidate + region_height candidate < height)
  ∧ (inject_Z (minRegionSizeOf width * minRegionSizeOf width) * (8 # 100)
     < inject_Z (region_size candidate))%Q
  ∧ 0 < region_size candidate
      ≤ (region_width candidate + 1) * (region_height candidate + 1)
  ∧ region_faceScore candidate = None.
Proof.
  exact (seedRegions_candidates edgeBuffer width height edgeThreshold
           regionThreshold candidate).
Qed.

Lemma seedRegions_candidates_inside_witness :
  (0 ≤ region_x ringCandidate ∧ 0 ≤ region_width ringCandidate
   ∧ region_x ringCandidate + region_width ringCandidate < 40)
  ∧ (0 ≤ region_y ringCandidate ∧ 0 ≤ region_height ringCandidate
     ∧ region_y ringCandidate + region_height ringCandidate < 40)
  ∧ (inject_Z (minRegionSizeOf 40 * minRegionSizeOf 40) * (8 # 100)
     < inject_Z (region_size ringCandidate))%Q
  ∧ 0 < region_size ringCandidate
      ≤ (region_width ringCandidate + 1) * (region_height ringCandidate + 1)
  ∧ region_faceScore ringCandidate = None.
Proof.
  apply (seedRegions_candidates_inside (ringBuffer 40 40 4 4 12 2) 40 40 40
           25 ringCandidate).
  replace (seedRegions (ringBuffer 40 40 4 4 12 2) 40 40 40 25)
    with [ringCandidate] by (vm_compute; reflexivity).
  apply list_elem_of_here.
Defined.

(** *** Overlap resolution: order, separation, idempotence *)

Lemma StronglySorted_sublist {A} (R : relation A) (l k : list A) :
  l `sublist_of` k → StronglySorted R k → StronglySorted R l.
Proof.
  induction 1 as [|x l k Hsub IH|x l k Hsub IH]; [done|..].
  - rewrite !StronglySorted_cons. intros [Hall Hsorted].
    split; [|by apply IH]. rewrite Forall_forall in *.
    intros y Hy. apply Hall. eapply elem_of_submseteq; [done|].
    by apply sublist_submseteq.
  - rewrite StronglySorted_cons. intros [_ Hsorted]. by apply IH.
Qed.

Lemma StronglySorted_lookup {A} (R : relation A) (l : list A) i j a b :
  StronglySorted R l → (i < j)%nat →
  l !! i = Some a → l !! j = Some b → R a b.
Proof.
  intros Hsorted Hij Ha Hb. rewrite <- (take_drop j l) in Hsorted.
  eapply StronglySorted_app_1_elem_of; [done| |].
  - apply list_elem_of_lookup. exists i. by rewrite lookup_take_lt.
  - apply list_elem_of_lookup. exists 0%nat.
    by rewrite lookup_drop, Nat.add_0_r.
Qed.

Lemma insertSorted_sorted a sorted :
  StronglySorted (λ x y, (scoreOrZero y <= scoreOrZero x)%Q) sorted →
  StronglySorted (λ x y, (scoreOrZero y <= scoreOrZero x)%Q)
    (insertSorted byScoreDescending a sorted).
Proof.
  induction sorted as [|b rest IH]; simpl.
  { intros _. repeat constructor. }
  rewrite StronglySorted_cons. intros [Hall Hsorted].
  destruct (Qltb 0 (byScoreDescending a b)) eqn:Hcmp.
  - apply byScoreDescending_pos in Hcmp.
    apply StronglySorted_cons. split; [|by apply IH].
    rewrite (insertSorted_perm byScoreDescending a rest).
    constructor; [by apply Qlt_le_weak|done].
  - assert (Hle : (scoreOrZero b <= scoreOrZero a)%Q).
    { apply Qnot_lt_le. intros Hlt%byScoreDescending_pos. congruence. }
    apply StronglySorted_cons. split; [|by apply StronglySorted_cons].
    constructor; [done|]. rewrite Forall_forall in *. intros y Hy.
    eapply Qle_trans; [by apply Hall|done].
Qed.

Lemma arraySort_sorted regions :
  StronglySorted (λ x y, (scoreOrZero y <= scoreOrZero x)%Q)
    (arraySort byScoreDescending regions).
Proof.
  induction regions as [|a regions IH]; [constructor|].
  by apply insertSorted_sorted.
Qed.

(** Sorting an array that is in order leaves it as it is. *)
Lemma arraySort_of_sorted regions :
  StronglySorted (λ x y, (scoreOrZero y <= scoreOrZero x)%Q) regions →
  arraySort byScoreDescending regions = regions.
Proof.
  induction regions as [|a regions IH]; [done|].
  rewrite StronglySorted_cons. intros [Hall Hsorted].
  change (arraySort byScoreDescending (a :: regions))
    with (insertSorted byScoreDescending a
            (arraySort byScoreDescending regions)).
  rewrite IH by done. destruct regions as [|b rest]; [done|]. simpl.
  destruct (Qltb 0 (byScoreDescending a b)) eqn:Hcmp; [|done].
  apply byScoreDescending_pos in Hcmp. apply Forall_cons in Hall as [Hba _].
  exfalso. by apply (Qlt_not_le _ _ Hcmp).
Qed.

Lemma acceptUnlessOverlap_separated accepted regions :
  StronglySorted separated accepted →
  StronglySorted separated (foldl acceptUnlessOverlap accepted regions).
Proof.
  revert accepted. induction regions as [|r regions IH]; intros accepted Hacc;
    [done|].
  simpl. apply IH. unfold acceptUnlessOverlap.
  destruct (existsb _ _) eqn:Hex; [done|].
  apply StronglySorted_app_2; [|done|repeat constructor].
  intros e r' He ->%list_elem_of_singleton. unfold separated.
  destruct (overlapsTooMuch r e) eqn:Hov; [|done].
  assert (existsb (overlapsTooMuch r) accepted = true); [|congruence].
  apply existsb_exists. exists e. split; [by apply list_elem_of_In|done].
Qed.

(** On an array whose elements are pairwise separated, the greedy loop
    accepts everything. *)
Lemma acceptUnlessOverlap_of_separated accepted regions :
  StronglySorted separated (accepted ++ regions) →
  foldl acceptUnlessOverlap accepted regions = accepted ++ regions.
Proof.
  revert accepted. induction regions as [|r regions IH]; intros accepted Hsep.
  { by rewrite app_nil_r. }
  simpl. unfold acceptUnlessOverlap at 2.
  destruct (existsb _ _) eqn:Hex.
  - apply existsb_exists in Hex as (e & He%list_elem_of_In & Hov).
    assert (separated e r); [|unfold separated in *; congruence].
    eapply StronglySorted_app_1_elem_of; [done..|]. by left.
  - rewrite IH; [by rewrite <- app_assoc|]. by rewrite <- app_assoc.
Qed.

Lemma removeOverlappingRegions_sublist regions :
  removeOverlappingRegions regions
    `sublist_of` arraySort byScoreDescending regions
  ∨ (length regions ≤ 1)%nat ∧ removeOverlappingRegions regions = regions.
Proof.
  unfold removeOverlappingRegions.
  destruct (length regions <=? 1)%nat eqn:Hlen.
  { right. by apply Nat.leb_le in Hlen. }
  left. by destruct (acceptUnlessOverlap_foldl [] (arraySort byScoreDescending regions))
    as (added & -> & Hsub).
Qed.

Lemma short_list_sorted {A} (R : relation A) (l : list A) :
  (length l ≤ 1)%nat → StronglySorted R l.
Proof.
  destruct l as [|a [|b l]]; simpl; [repeat constructor..|lia].
Qed.

Lemma removeOverlappingRegions_ordered regions :
  StronglySorted (λ x y, (scoreOrZero y <= scoreOrZero x)%Q)
    (removeOverlappingRegions regions).
Proof.
  destruct (removeOverlappingRegions_sublist regions) as [Hsub|[Hlen ->]].
  - eapply StronglySorted_sublist; [done|]. apply arraySort_sorted.
  - by apply short_list_sorted.
Qed.

Lemma removeOverlappingRegions_separated regions :
  StronglySorted separated (removeOverlappingRegions regions).
Proof.
  unfold removeOverlappingRegions.
  destruct (length regions <=? 1)%nat eqn:Hlen.
  - apply short_list_sorted. by apply Nat.leb_le.
  - apply acceptUnlessOverlap_separated. constructor.
Qed.

(** X6. The regions that are kept appear in order of score, highest
    first. *)
Theorem removeOverlappingRegions_by_score regions i j a b :
  (i < j)%nat →
  removeOverlappingRegions regions !! i = Some a →
  removeOverlappingRegions regions !! j = Some b →
  (scoreOrZero b <= scoreOrZero a)%Q.
Proof.
  intros Hij Ha Hb.
  exact (StronglySorted_lookup _ _ i j a b
           (removeOverlappingRegions_ordered regions) Hij Ha Hb).
Qed.

Lemma removeOverlappingRegions_by_score_witness :
  (scoreOrZero regionA <= scoreOrZero regionC)%Q.
Proof.
  apply (removeOverlappingRegions_by_score [regionA; regionC] 0 1 regionC
           regionA); [lia | vm_compute; reflexivity..].
Defined.

(** X7. No two of the regions that are kept overlap by more than 30% of the
    smaller one. *)
Theorem removeOverlappingRegions_no_overlap regions i j a b :
  i ≠ j →
  removeOverlappingRegions regions !! i = Some a →
  removeOverlappingRegions regions !! j = Some b →
  overlapsTooMuch a b = false.
Proof.
  intros Hij Ha Hb.
  pose proof (removeOverlappingRegions_separated regions) as Hsep.
  destruct (decide (i < j)%nat) as [Hlt|Hge].
  - rewrite overlapsTooMuch_comm.
    exact (StronglySorted_lookup _ _ i j a b Hsep Hlt Ha Hb).
  - assert (Hlt : (j < i)%nat) by lia.
    exact (StronglySorted_lookup _ _ j i b a Hsep Hlt Hb Ha).
Qed.

Lemma removeOverlappingRegions_no_overlap_witness :
  overlapsTooMuch regionC regionA = false.
Proof.
  apply (removeOverlappingRegions_no_overlap [regionA; regionC] 0 1 regionC
           regionA); [lia | vm_compute; reflexivity..].
Defined.

(** X8. Resolving overlaps a second time changes nothing. *)
Theorem removeOverlappingRegions_idempotent regions :
  removeOverlappingRegions (removeOverlappingRegions regions)
  = removeOverlappingRegions regions.
Proof.
  pose proof (removeOverlappingRegions_ordered regions) as Hord.
  pose proof (removeOverlappingRegions_separated regions) as Hsep.
  generalize dependent (removeOverlappingRegions regions). intros kept ??.
  unfold removeOverlappingRegions.
  destruct (length kept <=? 1)%nat; [done|].
  rewrite arraySort_of_sorted by done.
  by apply (acceptUnlessOverlap_of_separated []).
Qed.

(** X9. The overlap of two regions of non-negative width and height is
    between 0 and the area of the smaller one, it does not depend on the
    order of the two, and a region overlaps itself on its whole area. *)
Theorem calculateOverlapArea_bounds a b :
  0 ≤ region_width a → 0 ≤ region_height a →
  0 ≤ region_width b → 0 ≤ region_height b →
  0 ≤ calculateOverlapArea a b ≤ Z.min (regionArea a) (regionArea b)
  ∧ calculateOverlapArea a b = calculateOverlapArea b a
  ∧ calculateOverlapArea a a = regionArea a.
Proof.
  intros Hwa Hha Hwb Hhb. unfold calculateOverlapArea, regionArea.
  split_and!.
  - destruct (_ && _) eqn:Hcond; [|nia].
    apply andb_true_iff in Hcond as [Hx%Z.ltb_lt Hy%Z.ltb_lt]. nia.
  - destruct (_ && _) eqn:Hcond; [|nia].
    apply andb_true_iff in Hcond as [Hx%Z.ltb_lt Hy%Z.ltb_lt].
    apply Z.min_glb; nia.
  - by rewrite (Z.max_comm (region_x a)), (Z.min_comm (region_x a + _)),
      (Z.max_comm (region_y a)), (Z.min_comm (region_y a + _)).
  - rewrite !Z.max_id, !Z.min_id.
    destruct (_ && _) eqn:Hcond.
    + f_equal; lia.
    + apply andb_false_iff in Hcond as [Hx%Z.ltb_ge|Hy%Z.ltb_ge]; nia.
Qed.

Lemma calculateOverlapArea_bounds_witness :
  0 ≤ calculateOverlapArea regionA regionB
    ≤ Z.min (regionArea regionA) (regionArea regionB)
  ∧ calculateOverlapArea regionA regionB
    = calculateOverlapArea regionB regionA
  ∧ calculateOverlapArea regionA regionA = regionArea regionA.
Proof.
  apply (calculateOverlapArea_bounds regionA regionB); vm_compute; discriminate.
Defined.

(** *** What [findFaceRegions] returns *)

Lemma removeOverlappingRegions_elem regions r :
  r ∈ removeOverlappingRegions regions → r ∈ regions.
Proof.
  destruct (removeOverlappingRegions_sublist regions) as [Hsub|[_ ->]];
    [|done].
  intros Hr. rewrite <- (arraySort_perm byScoreDescending regions).
  eapply elem_of_submseteq; [done|]. by apply sublist_submseteq.
Qed.

(** X10. Every region that [findFaceRegions] returns is a candidate of the
    seeding step that passed the geometric filter, with the score that
    [calculateFaceScore] gave it, which is above 0.3.  Its width and height
    are positive and its density is strictly between 0.1 and 0.8. *)
Theorem findFaceRegions_returns_validated
    (calculateFaceScore : list Z → Z → Z → Region → Q)
    edgeBuffer width height edgeThreshold regionThreshold region :
  region ∈ findFaceRegions calculateFaceScore edgeBuffer width height
             edgeThreshold regionThreshold →
  (∃ candidate,
     candidate ∈ seedRegions edgeBuffer width height edgeThreshold
                   regionThreshold
     ∧ geometricOk (minRegionSizeOf width) candidate = true
     ∧ region_faceScore region
       = Some (calculateFaceScore edgeBuffer width height candidate)
     ∧ (region_x region, region_y region, region_width region,
        region_height region, region_size region, region_centerX region,
        region_centerY region, region_density region)
       = (region_x candidate, region_y candidate, region_width candidate,
          region_height candidate, region_size candidate,
          region_centerX candidate, region_centerY candidate,
          region_density candidate))
  ∧ (3 # 10 < scoreOrZero region)%Q
  ∧ 0 < region_width region ∧ 0 < region_height region
  ∧ jsGt (region_density region) (1 # 10) = true
  ∧ jsLt (region_density region) (8 # 10) = true.
Proof.
  unfold findFaceRegions.
  intros Hin%removeOverlappingRegions_elem.
  apply list_elem_of_omap in Hin as (candidate & Hcand & Hvalid).
  apply list_elem_of_filter in Hcand as [Hgeo Hseed].
  apply Is_true_true in Hgeo.
  unfold faceValidate in Hvalid.
  destruct (Qltb _ _) eqn:Hscore; [|done]. injection Hvalid as <-.
  apply Qltb_lt in Hscore.
  pose proof (seedRegions_candidates _ _ _ _ _ _ Hseed)
    as ((Hx & Hw & Hxw) & (Hy & Hh & Hyh) & _).
  pose proof Hgeo as Hgeo'. unfold geometricOk in Hgeo'.
  rewrite !andb_true_iff in Hgeo'.
  destruct Hgeo' as ((((((Hasp & Hasp') & _) & _) & _) & Hlow) & Hhigh).
  cbn. split_and!; try done.
  - by exists candidate.
  - destruct (decide (region_width candidate = 0)) as [Hw0|]; [|lia].
    exfalso. rewrite Hw0 in Hasp. unfold jsDiv in Hasp.
    destruct (Qeq_bool _ 0); [by vm_compute in Hasp|].
    simpl in Hasp. apply Qltb_lt in Hasp.
    assert (Hz : (inject_Z 0 / inject_Z (region_height candidate) == 0)%Q)
      by (unfold Qdiv; ring).
    rewrite Hz in Hasp. by apply (Qlt_not_le _ _ Hasp).
  - destruct (decide (region_height candidate = 0)) as [Hh0|]; [|lia].
    exfalso. rewrite Hh0 in Hasp, Hasp'. unfold jsDiv in Hasp, Hasp'.
    change (Qeq_bool (inject_Z 0) 0) with true in Hasp, Hasp'.
    cbn iota in Hasp, Hasp'.
    by destruct (inject_Z (region_width candidate) ?= 0)%Q.
Qed.

Lemma findFaceRegions_returns_validated_witness :
  (3 # 10 < scoreOrZero ringRegion)%Q
  ∧ 0 < region_width ringRegion ∧ 0 < region_height ringRegion
  ∧ jsGt (region_density ringRegion) (1 # 10) = true
  ∧ jsLt (region_density ringRegion) (8 # 10) = true.
Proof.
  apply (findFaceRegions_returns_validated constantScore
           (ringBuffer 40 40 4 4 12 2) 40 40 40 25 ringRegion).
  replace (findFaceRegions constantScore (ringBuffer 40 40 4 4 12 2) 40 40
             40 25)
    with [ringRegion] by (vm_compute; reflexivity).
  apply list_elem_of_here.
Defined.

(** *** A blank edge image *)

Lemma elem_of_strideRange lo hi v : v ∈ strideRange lo hi → lo ≤ v < hi.
Proof.
  unfold strideRange. intros (k & -> & Hk%elem_of_seqZ)%list_elem_of_fmap.
  pose proof (Z.mul_div_le (hi - lo + 7) 8). lia.
Qed.

Lemma seedStep_skips edgeBuffer width height edgeThreshold regionThreshold
    minRegionSize seeds state :
  (∀ x y, (x, y) ∈ seeds →
          bufferBelow edgeBuffer (y * width + x) edgeThreshold = true) →
  foldl (seedStep edgeBuffer width height edgeThreshold regionThreshold
           minRegionSize) state seeds = state.
Proof.
  revert state. induction seeds as [|[x y] seeds IH]; intros state Hall;
    [done|].
  simpl. rewrite IH.
  - destruct state as [visited regions]. unfold seedStep.
    rewrite (Hall x y) by by left. by rewrite orb_true_r.
  - intros x' y' Hin. apply Hall. by right.
Qed.

Lemma seedRegions_blank edgeBuffer width height edgeThreshold
    regionThreshold :
  0 ≤ width →
  (∀ i, 0 ≤ i < width * height →
        bufferBelow edgeBuffer i edgeThreshold = true) →
  seedRegions edgeBuffer width height edgeThreshold regionThreshold = [].
Proof.
  intros Hwidth Hblank. unfold seedRegions. rewrite seedStep_skips; [done|].
  intros x y (y' & (x' & [= -> ->]%list_elem_of_singleton
                       & Hx%elem_of_strideRange)%list_elem_of_bind
                 & Hy%elem_of_strideRange)%list_elem_of_bind.
  apply Hblank, index_in_bounds.
  - assert (0 ≤ minRegionSizeOf width); [|lia].
    unfold minRegionSizeOf. apply Qfloor_resp_le with (x := 0%Q).
    apply Qmult_le_0_compat; [|done].
    change 0%Q with (inject_Z 0). by rewrite <- Zle_Qle.
  - assert (0 ≤ minRegionSizeOf width); [|lia].
    unfold minRegionSizeOf. apply Qfloor_resp_le with (x := 0%Q).
    apply Qmult_le_0_compat; [|done].
    change 0%Q with (inject_Z 0). by rewrite <- Zle_Qle.
Qed.

Lemma bufferBelow_weaken buffer i low high :
  low ≤ high → bufferBelow buffer i low = true →
  bufferBelow buffer i high = true.
Proof.
  unfold bufferBelow. destruct (bufferAt buffer i); [|done].
  rewrite !Z.ltb_lt. lia.
Qed.

Lemma bufferBelow_of_Forall buffer i bound :
  Forall (λ v, v < bound) buffer → 0 ≤ i < Z.of_nat (length buffer) →
  bufferBelow buffer i bound = true.
Proof.
  intros Hall Hi. unfold bufferBelow, bufferAt.
  destruct (i <? 0) eqn:Hneg; [apply Z.ltb_lt in Hneg; lia|].
  destruct (lookup_lt_is_Some_2 buffer (Z.to_nat i)) as [v Hv]; [lia|].
  rewrite Hv. apply Z.ltb_lt.
  rewrite Forall_forall in Hall. apply Hall.
  by apply list_elem_of_lookup_2 in Hv.
Qed.

Section BlankImage.
Context `{Sharp}.
Variable calculateFaceScore : list Z → Z → Z → Region → Q.

Lemma blank_edge_image imageBuffer edgeBuffer :
  sharpEdges imageBuffer 400 400 = Ok edgeBuffer →
  Z.of_nat (length edgeBuffer) = 160000 →
  Forall (λ v, v < 20) edgeBuffer →
  detectionPasses calculateFaceScore edgeBuffer 3 0 [] = ([], 3%nat)
  ∧ detectFacesInImage calculateFaceScore imageBuffer
    = ([CallEdges 400 400], Err noFaceMessage).
Proof.
  intros Hedges Hlen Hblank.
  assert (Hnone : ∀ edgeThreshold regionThreshold, 20 ≤ edgeThreshold →
            findFaceRegions calculateFaceScore edgeBuffer 400 400
              edgeThreshold regionThreshold = []).
  { intros edgeThreshold regionThreshold Hthr. unfold findFaceRegions.
    rewrite seedRegions_blank; [done|lia|].
    intros i Hi. apply (bufferBelow_weaken _ _ 20); [done|].
    apply bufferBelow_of_Forall; [done|]. rewrite Hlen. lia. }
  assert (Hpasses : detectionPasses calculateFaceScore edgeBuffer 3 0 []
                    = ([], 3%nat)).
  { cbn [detectionPasses length Nat.eqb].
    change (thresholdAt edgeThresholds 0) with 40.
    rewrite Hnone by lia. cbn [detectionPasses length Nat.eqb].
    change (thresholdAt edgeThresholds 1) with 30.
    rewrite Hnone by lia. cbn [detectionPasses length Nat.eqb].
    change (thresholdAt edgeThresholds 2) with 20.
    by rewrite Hnone by lia. }
  split; [done|].
  unfold detectFacesInImage, await. rewrite Hedges.
  cbn [andThen length edgeThresholds]. rewrite Hpasses.
  cbn [fst reject tryCatch app]. by rewrite noFaceMessage_face.
Qed.

(** X11. When no value of the 400×400 edge image reaches 20, the lowest edge
    threshold, all three passes run and find nothing, and the image is
    answered with the no-face error after the single codec call. *)
Theorem detectFacesInImage_blank imageBuffer edgeBuffer :
  sharpEdges imageBuffer 400 400 = Ok edgeBuffer →
  Z.of_nat (length edgeBuffer) = 160000 →
  Forall (λ v, v < 20) edgeBuffer →
  detectionPasses calculateFaceScore edgeBuffer 3 0 [] = ([], 3%nat)
  ∧ detectFacesInImage calculateFaceScore imageBuffer
    = ([CallEdges 400 400], Err noFaceMessage).
Proof. exact (blank_edge_image imageBuffer edgeBuffer). Qed.
End BlankImage.

Lemma detectFacesInImage_blank_witness :
  detectionPasses constantScore (replicate (Z.to_nat 160000) 0) 3 0 []
  = ([], 3%nat)
  ∧ @detectFacesInImage blankCodec constantScore faceFile
    = ([CallEdges 400 400], Err noFaceMessage).
Proof.
  apply (@detectFacesInImage_blank blankCodec constantScore faceFile
           (replicate (Z.to_nat 160000) 0)).
  - reflexivity.
  - rewrite length_replicate. lia.
  - apply Forall_replicate. lia.
Defined.

(** *** The blur check on a short buffer *)

Lemma float_add_nan (x : float) : (x + nan)%float = nan.
Proof.
  apply Prim2SF_inj. rewrite add_spec.
  change (Prim2SF nan) with S754_nan. by destruct (Prim2SF x).
Qed.

Lemma float_nan_mul (x : float) : (nan * x)%float = nan.
Proof.
  apply Prim2SF_inj. rewrite FloatAxioms.mul_spec.
  change (Prim2SF nan) with S754_nan. by destruct (Prim2SF x).
Qed.

Lemma float_nan_div (x : float) : (nan / x)%float = nan.
Proof.
  apply Prim2SF_inj. rewrite div_spec.
  change (Prim2SF nan) with S754_nan. by destruct (Prim2SF x).
Qed.

Lemma seqZ_snoc m n : 0 < n → seqZ m n = seqZ m (n - 1) ++ [m + n - 1].
Proof.
  intros Hn. replace n with ((n - 1) + 1) at 1 by lia.
  rewrite seqZ_app by lia. f_equal.
  replace (m + (n - 1)) with (m + n - 1) by lia. done.
Qed.

Lemma bufferNumber_beyond buffer index :
  Z.of_nat (length buffer) ≤ index → bufferNumber buffer index = nan.
Proof.
  intros Hlen. unfold bufferNumber, bufferAt.
  destruct (index <? 0) eqn:Hneg; [done|].
  rewrite lookup_ge_None_2; [done|]. apply Z.ltb_ge in Hneg. lia.
Qed.

Lemma calculateLaplacianVariance_short buffer width height :
  2 < width → 2 < height →
  Z.of_nat (length buffer) < width * height →
  calculateLaplacianVariance buffer width height = nan.
Proof.
  intros Hwidth Hheight Hlen. unfold calculateLaplacianVariance. cbv zeta.
  rewrite (seqZ_snoc 1 (height - 2)) by lia. rewrite foldl_app.
  cbn [foldl].
  rewrite (seqZ_snoc 1 (width - 2)) by lia. rewrite foldl_app.
  cbn [foldl].
  match goal with
  | |- context [foldl ?inner ?acc (seqZ 1 (width - 2 - 1))] =>
    destruct (foldl inner acc (seqZ 1 (width - 2 - 1))) as [variance count]
  end.
  rewrite (bufferNumber_beyond buffer
             ((1 + (height - 2) - 1 + 1) * width
              + (1 + (width - 2) - 1 + 1))) by nia.
  rewrite float_nan_mul, float_add_nan, float_nan_mul, float_add_nan.
  apply float_nan_div.
Qed.

Section ShortBuffer.
Context `{Sharp}.

(** X12. A greyscale buffer shorter than 300×300 bytes makes the blur
    variance [NaN], which is not below the threshold: the sharpness check
    does not reject it. *)
Theorem validateImageSharpness_short_buffer imageBuffer grayBuffer :
  sharpGreyscale imageBuffer 300 300 = Ok grayBuffer →
  Z.of_nat (length grayBuffer) < 90000 →
  calculateLaplacianVariance grayBuffer 300 300 = nan
  ∧ validateImageSharpness imageBuffer = ([CallGreyscale 300 300], Ok tt).
Proof.
  intros Hgrey Hlen.
  assert (Hnan : calculateLaplacianVariance grayBuffer 300 300 = nan)
    by (apply calculateLaplacianVariance_short; lia).
  split; [done|]. unfold validateImageSharpness, await.
  rewrite Hgrey. cbn [andThen]. by rewrite Hnan.
Qed.
End ShortBuffer.

Lemma validateImageSharpness_short_buffer_witness :
  calculateLaplacianVariance [] 300 300 = nan
  ∧ @validateImageSharpness faceCodec faceFile
    = ([CallGreyscale 300 300], Ok tt).
Proof.
  apply (@validateImageSharpness_short_buffer faceCodec faceFile []).
  - reflexivity.
  - simpl. lia.
Defined.

(** *** The quality gate, in full *)


Lemma qualityChecks_no_calls metadata byteLength :
  calls (qualityChecks metadata byteLength) = [].
Proof.
  unfold qualityChecks. cbv zeta.
  destruct (meta_format metadata) as [format|]; cbn [andThen resolve reject];
    [|done].
  repeat match goal with
         | |- context [throwIf ?failed _] =>
           destruct failed; cbn [throwIf andThen resolve reject]; [done|]
         end.
  done.
Qed.

(** [w / h] against a fraction, for a positive [h]. *)
Lemma ratio_lt w h (a : Z) (b : positive) :
  0 < h → Qltb (inject_Z w / inject_Z h) (a # b) = true ↔ w * Zpos b < a * h.
Proof.
  intros Hh. rewrite Qltb_lt. destruct h as [|h|h]; try lia.
  unfold Qlt, Qdiv, Qmult, Qinv, inject_Z. simpl. lia.
Qed.

Lemma ratio_gt w h (a : Z) (b : positive) :
  0 < h → Qltb (a # b) (inject_Z w / inject_Z h) = true ↔ a * h < w * Zpos b.
Proof.
  intros Hh. rewrite Qltb_lt. destruct h as [|h|h]; try lia.
  unfold Qlt, Qdiv, Qmult, Qinv, inject_Z. simpl. lia.
Qed.

Lemma jsDiv_finite a b : b ≠ 0 → jsDiv (inject_Z a) (inject_Z b)
                                 = Fin (inject_Z a / inject_Z b).
Proof.
  intros Hb. unfold jsDiv. destruct (Qeq_bool _ _) eqn:Heq; [|done].
  apply Qeq_bool_iff in Heq. unfold Qeq in Heq. simpl in Heq. lia.
Qed.

Lemma qualityChecks_accepts_iff metadata byteLength :
  outcome (qualityChecks metadata byteLength) = Ok true
  ↔ ∃ format w h,
      meta_format metadata = Some format
      ∧ meta_width metadata = Some w ∧ meta_height metadata = Some h
      ∧ toLowerCase format ∈ supportedFormats
      ∧ (150 ≤ Z.min w h ∧ 200 ≤ Z.max w h ∧ w ≤ 4000 ∧ h ≤ 4000)
      ∧ (h ≤ 2 * w ∧ w ≤ 2 * h)
      ∧ 2048 ≤ byteLength ≤ 10 * 1024 * 1024.
Proof.
  unfold qualityChecks. cbv zeta. split.
  - destruct (meta_format metadata) as [format|];
      cbn [andThen resolve reject]; [|done].
    repeat match goal with
           | |- context [throwIf ?failed _] =>
             destruct failed eqn:?; cbn [throwIf andThen resolve reject];
             [done|]
           end.
    intros _.
    repeat match goal with
           | Hc : _ || _ = false |- _ => apply orb_false_iff in Hc as [??]
           end.
    destruct (meta_width metadata) as [w|], (meta_height metadata) as [h|];
      try done.
    exists format, w, h. cbn in *.
    assert (Hh : 0 < h) by lia.
    rewrite jsDiv_finite in * by lia. cbn [jsLt jsGt] in *.
    repeat match goal with
           | Hc : Qltb (_ / _) _ = false |- _ =>
             apply not_true_iff_false in Hc;
             rewrite (ratio_lt _ _ _ _ Hh) in Hc
           | Hc : Qltb _ (_ / _) = false |- _ =>
             apply not_true_iff_false in Hc;
             rewrite (ratio_gt _ _ _ _ Hh) in Hc
           end.
    split_and!; try done; try lia.
    match goal with
    | Hc : negb (bool_decide _) = false |- _ =>
      apply negb_false_iff, bool_decide_eq_true in Hc; exact Hc
    end.
  - intros (format & w & h & -> & -> & -> & Hformat & Hres & Hratio & Hsize).
    cbn [andThen resolve reject].
    rewrite (bool_decide_eq_true_2 _ Hformat).
    cbn [negb throwIf andThen resolve reject dimMin dimMax mbind option_bind
         dimBelow dimAbove].
    assert (Hh : 0 < h) by lia.
    replace (Z.min w h <? 150) with false by (symmetry; apply Z.ltb_ge; lia).
    replace (Z.max w h <? 200) with false by (symmetry; apply Z.ltb_ge; lia).
    replace (4000 <? w) with false by (symmetry; apply Z.ltb_ge; lia).
    replace (4000 <? h) with false by (symmetry; apply Z.ltb_ge; lia).
    cbn [orb throwIf andThen resolve reject dimRatio].
    rewrite jsDiv_finite by lia. cbn [jsLt jsGt].
    replace (Qltb (inject_Z w / inject_Z h) (5 # 10)) with false.
    2:{ symmetry. apply not_true_iff_false.
        rewrite (ratio_lt _ _ _ _ Hh). lia. }
    replace (Qltb 2 (inject_Z w / inject_Z h)) with false.
    2:{ symmetry. apply not_true_iff_false.
        change 2%Q with (2 # 1). rewrite (ratio_gt _ _ _ _ Hh). lia. }
    cbn [orb throwIf andThen resolve reject].
    replace (10 * 1024 * 1024 <? byteLength) with false
      by (symmetry; apply Z.ltb_ge; lia).
    cbn [orb throwIf andThen resolve reject].
    replace (byteLength <? 2048) with false
      by (symmetry; apply Z.ltb_ge; lia).
    cbn [orb throwIf andThen resolve reject dimFalsy].
    replace (w =? 0) with false by (symmetry; apply Z.eqb_neq; lia).
    replace (h =? 0) with false by (symmetry; apply Z.eqb_neq; lia).
    done.
Qed.

Section QualityGate.
Context `{Sharp}.

(** X13. The quality gate accepts an image exactly when its format, compared
    without regard to case, is one of the four supported ones, its smaller
    side is at least 150 and its larger side at least 200, no side exceeds
    4000, neither side is more than twice the other, and the file has
    between 2048 bytes and 10 MiB. *)
Theorem validateImageQuality_accepts_iff imageBuffer metadata :
  sharpMetadata imageBuffer = Ok metadata →
  outcome (validateImageQuality imageBuffer) = Ok true
  ↔ ∃ format w h,
      meta_format metadata = Some format
      ∧ meta_width metadata = Some w ∧ meta_height metadata = Some h
      ∧ toLowerCase format ∈ supportedFormats
      ∧ (150 ≤ Z.min w h ∧ 200 ≤ Z.max w h ∧ w ≤ 4000 ∧ h ≤ 4000)
      ∧ (h ≤ 2 * w ∧ w ≤ 2 * h)
      ∧ 2048 ≤ Z.of_nat (length imageBuffer) ≤ 10 * 1024 * 1024.
Proof.
  intros Hmeta. rewrite <- qualityChecks_accepts_iff.
  unfold validateImageQuality, await, outcome. rewrite Hmeta.
  cbn [andThen].
  by destruct (qualityChecks metadata (Z.of_nat (length imageBuffer)))
    as [calls' [ok|message]].
Qed.

End QualityGate.

Lemma validateImageQuality_accepts_iff_witness :
  outcome (@validateImageQuality faceCodec faceFile) = Ok true
  ↔ ∃ format w h,
      Some "JPEG" = Some format
      ∧ Some 640 = Some w ∧ Some 480 = Some h
      ∧ toLowerCase format ∈ supportedFormats
      ∧ (150 ≤ Z.min w h ∧ 200 ≤ Z.max w h ∧ w ≤ 4000 ∧ h ≤ 4000)
      ∧ (h ≤ 2 * w ∧ w ≤ 2 * h)
      ∧ 2048 ≤ Z.of_nat (length faceFile) ≤ 10 * 1024 * 1024.
Proof.
  apply (@validateImageQuality_accepts_iff faceCodec faceFile
           (mkMetadata (Some 640) (Some 480) (Some "JPEG"))).
  reflexivity.
Defined.

(** *** The whole pipeline *)


Lemma andThen_cases {A B} (m : Action A) (k : A → Action B) :
  (∃ message, outcome m = Err message
              ∧ andThen m k = (calls m, Err message))
  ∨ (∃ a, outcome m = Ok a
          ∧ andThen m k = (calls m ++ calls (k a), outcome (k a))).
Proof.
  destruct m as [c [a|message]]; cbn [andThen outcome calls fst snd].
  - right. exists a. split; [done|]. by destruct (k a).
  - left. by exists message.
Qed.

Lemma calls_tryCatch {A} (m : Action A) handler :
  calls (tryCatch m handler) = calls m.
Proof. by destruct m as [c [a|message]]. Qed.

Lemma outcome_tryCatch {A} (m : Action A) handler :
  outcome (tryCatch m handler)
  = match outcome m with
    | Ok a => Ok a
    | Err message => Err (handler message)
    end.
Proof. by destruct m as [c [a|message]]. Qed.

Section WholePipeline.
Context `{Sharp}.
Variable calculateFaceScore : list Z → Z → Z → Region → Q.

Lemma calls_analyzeImageStats imageBuffer :
  calls (analyzeImageStats imageBuffer) = [CallGreyscale 224 224].
Proof.
  unfold analyzeImageStats, await.
  by destruct (sharpGreyscale imageBuffer 224 224).
Qed.

Lemma calls_validateLightingConditions brightness contrast :
  calls (validateLightingConditions brightness contrast) = [].
Proof.
  unfold validateLightingConditions. cbv zeta.
  repeat match goal with
         | |- context [throwIf ?failed _] =>
           destruct failed; cbn [throwIf andThen resolve reject]; [done|]
         end.
  done.
Qed.

Lemma calls_validateImageSharpness imageBuffer :
  calls (validateImageSharpness imageBuffer) = [CallGreyscale 300 300].
Proof.
  unfold validateImageSharpness, await.
  destruct (sharpGreyscale imageBuffer 300 300); cbn [andThen]; [|done].
  by destruct (_ <? _)%float.
Qed.

Lemma calls_detectFacesInImage imageBuffer :
  calls (detectFacesInImage calculateFaceScore imageBuffer)
  = [CallEdges 400 400].
Proof.
  unfold detectFacesInImage, await.
  destruct (sharpEdges imageBuffer 400 400); cbn [andThen]; [|done].
  destruct (detectionPasses _ _ _ _ _).1; [done|].
  by destruct (_ <? _)%nat.
Qed.

Lemma calls_validateFaceCharacteristics imageBuffer :
  calls (validateFaceCharacteristics imageBuffer) = [CallMetadata].
Proof.
  unfold validateFaceCharacteristics, await.
  by destruct (sharpMetadata imageBuffer).
Qed.

Lemma calls_preprocessImage imageBuffer :
  calls (preprocessImage imageBuffer)
    `prefix_of` [CallMetadata; CallCover 112 112]
  ∧ (isOk (outcome (preprocessImage imageBuffer)) = true →
     calls (preprocessImage imageBuffer) = [CallMetadata; CallCover 112 112])
  ∧ (isOk (outcome (preprocessImage imageBuffer)) = false →
     ∃ reason, outcome (preprocessImage imageBuffer)
               = Err ("Image preprocessing failed: " +:+ reason)).
Proof.
  destruct (sharpMetadata imageBuffer) as [metadata|message] eqn:Hmeta.
  - rewrite (preprocessImage_cases _ _ Hmeta).
    destruct (dimFalsy _ || dimFalsy _).
    { split_and!; [by exists [CallCover 112 112]|done|by eexists]. }
    destruct (dimBelow _ 50 || dimBelow _ 50).
    { split_and!; [by exists [CallCover 112 112]|done|by eexists]. }
    destruct (sharpCover imageBuffer 112 112) as [processedImage|message].
    2:{ split_and!; [by exists []|done|by eexists]. }
    destruct (Z.of_nat (length processedImage) =? 112 * 112 * 3).
    + split_and!; [by exists []|done|done].
    + split_and!; [by exists []|done|by eexists].
  - unfold preprocessImage, await. rewrite Hmeta. cbn [andThen tryCatch].
    split_and!; [by exists [CallCover 112 112]|done|by eexists].
Qed.

Lemma validateImageQuality_settles imageBuffer :
  calls (validateImageQuality imageBuffer) = [CallMetadata]
  ∧ (outcome (validateImageQuality imageBuffer) = Ok true
     ∨ ValidationError (outcome (validateImageQuality imageBuffer))).
Proof.
  unfold validateImageQuality, await, ValidationError, outcome, calls.
  destruct (sharpMetadata imageBuffer) as [metadata|message];
    cbn [andThen tryCatch fst snd]; [|split; [done|right; by eexists]].
  pose proof (qualityChecks_no_calls metadata
                (Z.of_nat (length imageBuffer))) as Hcalls.
  destruct (qualityChecks metadata (Z.of_nat (length imageBuffer)))
    as [calls' [ok|message]] eqn:Hq; cbn [calls fst] in Hcalls; subst calls';
    cbn [tryCatch fst snd app]; (split; [done|]); [|right; by eexists].
  left. f_equal.
  revert Hq. unfold qualityChecks. cbv zeta.
  destruct (meta_format metadata) as [format|]; cbn [andThen resolve reject];
    [|done].
  repeat match goal with
         | |- context [throwIf ?failed _] =>
           destruct failed; cbn [throwIf andThen resolve reject]; [done|]
         end.
  by intros [=].
Qed.

Lemma detectFace_settles imageBuffer :
  (calls (detectFace calculateFaceScore imageBuffer)
     `prefix_of` [CallGreyscale 224 224; CallGreyscale 300 300;
                  CallEdges 400 400; CallMetadata])
  ∧ ((outcome (detectFace calculateFaceScore imageBuffer) = Ok true
      ∧ calls (detectFace calculateFaceScore imageBuffer)
        = [CallGreyscale 224 224; CallGreyscale 300 300;
           CallEdges 400 400; CallMetadata]
      ∧ isOk (outcome (detectFacesInImage calculateFaceScore imageBuffer))
        = true)
     ∨ ∃ reason, outcome (detectFace calculateFaceScore imageBuffer)
                 = Err ("Face detection failed: " +:+ reason)).
Proof.
  unfold detectFace. rewrite calls_tryCatch, outcome_tryCatch.
  unfold sharpBasedFaceDetection.
  repeat match goal with
  | |- context [andThen ?m ?k] =>
    destruct (andThen_cases m k) as [(? & ? & ->)|(? & ? & ->)];
    cbn [calls outcome fst snd]
  end;
  rewrite ?calls_analyzeImageStats, ?calls_validateLightingConditions,
    ?calls_validateImageSharpness, ?calls_detectFacesInImage,
    ?calls_validateFaceCharacteristics;
  cbn [calls outcome fst snd resolve app];
  (split; [by eexists|]);
  [right; by eexists..|].
  left. split_and!; [done..|].
  match goal with
  | Hd : outcome (detectFacesInImage _ _) = Ok _ |- _ => by rewrite Hd
  end.
Qed.

Lemma processFaceImage_stages imageBuffer :
  (∃ reason,
     outcome (validateImageQuality imageBuffer)
     = Err ("Image quality validation failed: " +:+ reason)
     ∧ outcome (processFaceImage calculateFaceScore imageBuffer)
       = Err ("Image quality validation failed: " +:+ reason)
     ∧ calls (processFaceImage calculateFaceScore imageBuffer)
       = [CallMetadata])
  ∨ (outcome (validateImageQuality imageBuffer) = Ok true
     ∧ ((∃ reason, outcome (processFaceImage calculateFaceScore imageBuffer)
                   = Err ("Face detection failed: " +:+ reason))
        ∧ (∃ reason, outcome (detectFace calculateFaceScore imageBuffer)
                     = Err ("Face detection failed: " +:+ reason))
        ∧ calls (processFaceImage calculateFaceScore imageBuffer)
          = CallMetadata :: calls (detectFace calculateFaceScore imageBuffer)
        ∨ outcome (detectFace calculateFaceScore imageBuffer) = Ok true
          ∧ isOk (outcome (detectFacesInImage calculateFaceScore
                             imageBuffer)) = true
          ∧ outcome (processFaceImage calculateFaceScore imageBuffer)
            = outcome (preprocessImage imageBuffer)
          ∧ calls (processFaceImage calculateFaceScore imageBuffer)
            = [CallMetadata; CallGreyscale 224 224; CallGreyscale 300 300;
               CallEdges 400 400; CallMetadata]
              ++ calls (preprocessImage imageBuffer))).
Proof.
  destruct (validateImageQuality_settles imageBuffer) as [Hqc Hq].
  destruct (detectFace_settles imageBuffer) as [_ Hd].
  unfold processFaceImage. rewrite calls_tryCatch, outcome_tryCatch.
  destruct Hq as [Hq|Hq].
  2:{ left. destruct Hq as [reason Hq].
      destruct (andThen_cases (validateImageQuality imageBuffer)
        (λ _, let* _ := detectFace calculateFaceScore imageBuffer in
              let* processedImage := preprocessImage imageBuffer in
              resolve processedImage)) as [(? & ? & ->)|(? & ? & ->)];
        [|congruence].
      cbn [calls outcome fst snd]. exists reason.
      split_and!; [done|congruence|done]. }
  right. split; [done|].
  destruct (andThen_cases (validateImageQuality imageBuffer)
    (λ _, let* _ := detectFace calculateFaceScore imageBuffer in
          let* processedImage := preprocessImage imageBuffer in
          resolve processedImage)) as [(? & ? & ->)|(? & ? & ->)];
    [congruence|].
  cbn [calls outcome fst snd]. rewrite Hqc.
  destruct Hd as [(Hd & Hdc & Hface)|[reason Hd]].
  - right.
    destruct (andThen_cases (detectFace calculateFaceScore imageBuffer)
      (λ _, let* processedImage := preprocessImage imageBuffer in
            resolve processedImage)) as [(? & ? & ->)|(? & ? & ->)];
      [congruence|].
    cbn [calls outcome fst snd]. rewrite Hdc.
    destruct (andThen_cases (preprocessImage imageBuffer)
      (λ processedImage, resolve processedImage))
      as [(? & Hp & ->)|(? & Hp & ->)];
      cbn [calls outcome fst snd resolve]; rewrite Hp, ?app_nil_r;
      by split_and!.
  - left.
    destruct (andThen_cases (detectFace calculateFaceScore imageBuffer)
      (λ _, let* processedImage := preprocessImage imageBuffer in
            resolve processedImage)) as [(? & ? & ->)|(? & ? & ->)];
      [|congruence].
    cbn [calls outcome fst snd]. split_and!; [|by eexists|done].
    exists reason. congruence.
Qed.

Lemma preprocessImage_returns imageBuffer processedImage :
  outcome (preprocessImage imageBuffer) = Ok processedImage →
  sharpCover imageBuffer 112 112 = Ok processedImage
  ∧ Z.of_nat (length processedImage) = 37632.
Proof.
  destruct (sharpMetadata imageBuffer) as [metadata|message] eqn:Hmeta.
  - rewrite (preprocessImage_cases _ _ Hmeta).
    destruct (dimFalsy _ || dimFalsy _); [done|].
    destruct (dimBelow _ 50 || dimBelow _ 50); [done|].
    destruct (sharpCover imageBuffer 112 112) as [cover|message]; [|done].
    destruct (Z.of_nat (length cover) =? 112 * 112 * 3) eqn:Hlen; [|done].
    intros [= ->]. split; [done|]. apply Z.eqb_eq in Hlen. lia.
  - unfold preprocessImage, await. by rewrite Hmeta.
Qed.

Lemma detectFacesInImage_returns imageBuffer :
  isOk (outcome (detectFacesInImage calculateFaceScore imageBuffer)) = true →
  ∃ edgeBuffer region,
    sharpEdges imageBuffer 400 400 = Ok edgeBuffer
    ∧ (detectionPasses calculateFaceScore edgeBuffer 3 0 []).1 = [region]
    ∧ outcome (detectFacesInImage calculateFaceScore imageBuffer)
      = Ok region.
Proof.
  unfold detectFacesInImage, await.
  destruct (sharpEdges imageBuffer 400 400) as [edgeBuffer|message];
    cbn [andThen tryCatch outcome snd isOk]; [|done].
  change (length edgeThresholds) with 3%nat.
  destruct (detectionPasses _ _ _ _ _).1 as [|region [|second rest]]
    eqn:Hfound;
    cbn [length maxFaces Nat.ltb Nat.leb reject resolve tryCatch outcome snd
         isOk]; [done| |done].
  intros _. by exists edgeBuffer, region.
Qed.

(** X14. The codec is called in one fixed order.  A run that fails stops
    early, so its calls are the beginning of the seven calls of a
    successful run; no pixel is decoded unless the quality gate has
    accepted the image. *)
Theorem processFaceImage_codec_calls imageBuffer :
  let run := processFaceImage calculateFaceScore imageBuffer in
  let fullRun :=
    [CallMetadata; CallGreyscale 224 224; CallGreyscale 300 300;
     CallEdges 400 400; CallMetadata; CallMetadata; CallCover 112 112] in
  calls run `prefix_of` fullRun
  ∧ (isOk (outcome run) = true → calls run = fullRun)
  ∧ (Exists (λ call, readsPixels call = true) (calls run) →
     outcome (validateImageQuality imageBuffer) = Ok true).
Proof.
  cbv zeta.
  destruct (processFaceImage_stages imageBuffer)
    as [(reason & Hq & -> & ->)
       |(Hq & [((reason & ->) & _ & ->)|(Hd & _ & -> & ->)])].
  - split_and!; [by eexists|done|].
    intros [Hcall|Hnone%Exists_nil]%Exists_cons; done.
  - destruct (detectFace_settles imageBuffer) as [[rest Hrest] _].
    split_and!; [|done..].
    exists (rest ++ [CallMetadata; CallCover 112 112]).
    simpl. f_equal. by rewrite app_assoc, <- Hrest.
  - destruct (calls_preprocessImage imageBuffer) as ([rest Hpre] & Hok & _).
    split_and!; [|by intros ->%Hok|done].
    exists rest. by rewrite <- app_assoc, <- Hpre.
Qed.

(** X15. When the pipeline returns a buffer, the quality gate accepted the
    image, face detection found exactly one region, and the buffer is what
    the cover resize to 112×112 gave, of 37632 bytes. *)
Theorem processFaceImage_success imageBuffer processedImage :
  outcome (processFaceImage calculateFaceScore imageBuffer)
  = Ok processedImage →
  outcome (validateImageQuality imageBuffer) = Ok true
  ∧ outcome (detectFace calculateFaceScore imageBuffer) = Ok true
  ∧ (∃ edgeBuffer region,
       sharpEdges imageBuffer 400 400 = Ok edgeBuffer
       ∧ (detectionPasses calculateFaceScore edgeBuffer 3 0 []).1
         = [region])
  ∧ sharpCover imageBuffer 112 112 = Ok processedImage
  ∧ Z.of_nat (length processedImage) = 37632.
Proof.
  destruct (processFaceImage_stages imageBuffer)
    as [(reason & Hq & -> & _)
       |(Hq & [((reason & ->) & _)|(Hd & Hface & -> & _)])]; [done..|].
  intros (Hcover & Hlen)%preprocessImage_returns.
  destruct (detectFacesInImage_returns _ Hface)
    as (edgeBuffer & region & ? & ? & _).
  split_and!; [done..| |done|done]. by exists edgeBuffer, region.
Qed.

(** X16. The text of a failure names the stage that failed: the quality
    gate, after its single metadata read; face detection, once the gate
    has accepted; or preprocessing, once both have passed. *)
Theorem processFaceImage_failure imageBuffer message :
  outcome (processFaceImage calculateFaceScore imageBuffer) = Err message →
  (∃ reason,
     message = "Image quality validation failed: " +:+ reason
     ∧ calls (processFaceImage calculateFaceScore imageBuffer)
       = [CallMetadata])
  ∨ (∃ reason,
       message = "Face detection failed: " +:+ reason
       ∧ outcome (validateImageQuality imageBuffer) = Ok true)
  ∨ (∃ reason,
       message = "Image preprocessing failed: " +:+ reason
       ∧ outcome (validateImageQuality imageBuffer) = Ok true
       ∧ outcome (detectFace calculateFaceScore imageBuffer) = Ok true).
Proof.
  destruct (processFaceImage_stages imageBuffer)
    as [(reason & Hq & -> & Hcalls)
       |(Hq & [((reason & ->) & _)|(Hd & Hface & -> & _)])].
  - intros [= <-]. left. by exists reason.
  - intros [= <-]. right. left. by exists reason.
  - intros Hfail. right. right.
    destruct (calls_preprocessImage imageBuffer) as (_ & _ & Hpre).
    destruct Hpre as [reason Hpre]; [by rewrite Hfail|].
    exists reason. split; [congruence|done].
Qed.
End WholePipeline.

(** The run of the pipeline on the example image, stage by stage. *)
Lemma faceCodec_quality :
  @validateImageQuality faceCodec faceFile = ([CallMetadata], Ok true).
Proof. vm_compute. reflexivity. Qed.

Lemma faceCodec_detection :
  @detectFacesInImage faceCodec constantScore faceFile
  = ([CallEdges 400 400], Ok ringFace).
Proof. vm_compute. reflexivity. Qed.

Lemma faceCodec_preprocess :
  @preprocessImage faceCodec faceFile
  = ([CallMetadata; CallCover 112 112], Ok (replicate (Z.to_nat 37632) 0)).
Proof. reflexivity. Qed.

Lemma faceCodec_runs :
  @processFaceImage faceCodec constantScore faceFile
  = (completeRun, Ok (replicate (Z.to_nat 37632) 0)).
Proof.
  unfold processFaceImage, detectFace, sharpBasedFaceDetection.
  rewrite faceCodec_quality, faceCodec_detection, faceCodec_preprocess.
  unfold validateImageSharpness at 1, await.
  change (sharpGreyscale faceFile 300 300) with (Ok (@nil Z)).
  cbn [andThen].
  rewrite (calculateLaplacianVariance_short [] 300 300) by (simpl; lia).
  reflexivity.
Qed.

Lemma processFaceImage_success_witness :
  outcome (@validateImageQuality faceCodec faceFile) = Ok true
  ∧ outcome (@detectFace faceCodec constantScore faceFile) = Ok true
  ∧ (∃ edgeBuffer region,
       @sharpEdges faceCodec faceFile 400 400 = Ok edgeBuffer
       ∧ (detectionPasses constantScore edgeBuffer 3 0 []).1 = [region])
  ∧ @sharpCover faceCodec faceFile 112 112
    = Ok (replicate (Z.to_nat 37632) 0)
  ∧ Z.of_nat (length (replicate (Z.to_nat 37632) 0)) = 37632.
Proof.
  apply (@processFaceImage_success faceCodec constantScore faceFile).
  rewrite faceCodec_runs. reflexivity.
Defined.

Lemma processFaceImage_failure_witness :
  (∃ reason,
     "Image quality validation failed: Image file too small: 0 bytes. Minimum size: 2KB. The image may be corrupted or of very poor quality."
     = "Image quality validation failed: " +:+ reason
     ∧ calls (@processFaceImage largeCodec constantScore [])
       = [CallMetadata])
  ∨ (∃ reason,
       "Image quality validation failed: Image file too small: 0 bytes. Minimum size: 2KB. The image may be corrupted or of very poor quality."
       = "Face detection failed: " +:+ reason
       ∧ outcome (@validateImageQuality largeCodec []) = Ok true)
  ∨ (∃ reason,
       "Image quality validation failed: Image file too small: 0 bytes. Minimum size: 2KB. The image may be corrupted or of very poor quality."
       = "Image preprocessing failed: " +:+ reason
       ∧ outcome (@validateImageQuality largeCodec []) = Ok true
       ∧ outcome (@detectFace largeCodec constantScore []) = Ok true).
Proof.
  apply (@processFaceImage_failure largeCodec constantScore []).
  vm_compute. reflexivity.
Defined.

(** *** Distances: symmetry *)

Lemma binary_round_aux_opp prec emax s m e l :
  binary_round_aux prec emax (negb s) m e l
  = SFopp (binary_round_aux prec emax s m e l).
Proof.
  unfold binary_round_aux.
  destruct (shr_fexp prec emax m e l) as [mrs' e'].
  destruct (shr_fexp prec emax _ e' loc_Exact) as [mrs'' e''].
  destruct (shr_m mrs''); [done| |done]. by destruct (_ <=? _).
Qed.

Lemma binary_round_opp prec emax s m e :
  binary_round prec emax (negb s) m e
  = SFopp (binary_round prec emax s m e).
Proof.
  unfold binary_round. destruct (shl_align _ _ _).
  apply binary_round_aux_opp.
Qed.

Lemma binary_normalize_opp prec emax m e :
  mirrored (binary_normalize prec emax m e false)
    (binary_normalize prec emax (- m) e false).
Proof.
  destruct m as [|p|p]; cbn [binary_normalize Z.opp].
  - right. split; [done|]. right. by exists false.
  - left. apply (binary_round_opp prec emax false).
  - left. rewrite <- (binary_round_opp prec emax true). done.
Qed.

Lemma SFsub_mirrored prec emax x y :
  mirrored (SFsub prec emax x y) (SFsub prec emax y x).
Proof.
  destruct x as [sx|sx| |sx mx ex], y as [sy|sy| |sy my ey];
    cbn [SFsub];
    repeat match goal with s : bool |- _ => destruct s end;
    try (left; reflexivity);
    try (right; split; [reflexivity|]; (by left) || (right; by eexists)).
  all: rewrite (Z.min_comm ey ex).
  all: match goal with
       | |- mirrored (binary_normalize _ _ ?a _ _)
                      (binary_normalize _ _ ?b _ _) =>
         replace b with (- a) by (cbn [cond_Zopp]; lia)
       end.
  all: apply binary_normalize_opp.
Qed.

Lemma SFmul_mirrored prec emax d d' :
  mirrored d d' → SFmul prec emax d' d' = SFmul prec emax d d.
Proof.
  intros [->|[-> _]]; [|done].
  destruct d as [s|s| |s m e]; cbn [SFopp SFmul]; try done;
    by destruct s.
Qed.

Lemma SFabs_mirrored d d' : mirrored d d' → SFabs d' = SFabs d.
Proof.
  intros [->|[-> _]]; [|done]. by destruct d.
Qed.

Lemma float_square_difference (x y : float) :
  ((x - y) * (x - y) = (y - x) * (y - x))%float.
Proof.
  apply Prim2SF_inj. rewrite !FloatAxioms.mul_spec, !sub_spec.
  symmetry. apply SFmul_mirrored, SFsub_mirrored.
Qed.

Lemma float_abs_difference (x y : float) :
  (abs (x - y) = abs (y - x))%float.
Proof.
  apply Prim2SF_inj. rewrite !abs_spec, !sub_spec.
  symmetry. apply SFabs_mirrored, SFsub_mirrored.
Qed.

Lemma squaredDifferences_comm i a b sum :
  squaredDifferences i a b sum = squaredDifferences i b a sum.
Proof.
  revert i b sum. induction a as [|x a IH]; intros i [|y b] sum; try done.
  cbn [squaredDifferences].
  destruct x, y; try done. cbv zeta.
  rewrite (float_square_difference n n0). apply IH.
Qed.

Lemma absoluteDifferences_comm i a b sum :
  absoluteDifferences i a b sum = absoluteDifferences i b a sum.
Proof.
  revert i b sum. induction a as [|x a IH]; intros i [|y b] sum; try done.
  cbn [absoluteDifferences].
  destruct x, y; try done.
  rewrite (float_abs_difference n n0). apply IH.
Qed.

(** X17. For arrays of equal length the Euclidean and the Manhattan distance
    do not depend on the order of the two vectors: the same number, or the
    same error. *)
Theorem distances_symmetric (a b : list (JSValue float)) :
  length a = length b →
  calculateEuclideanDistance (JArray a) (JArray b)
  = calculateEuclideanDistance (JArray b) (JArray a)
  ∧ calculateManhattanDistance (JArray a) (JArray b)
    = calculateManhattanDistance (JArray b) (JArray a).
Proof.
  intros Hlen. unfold calculateEuclideanDistance, calculateManhattanDistance.
  rewrite Hlen, Nat.eqb_refl. cbn [negb].
  by rewrite squaredDifferences_comm, absoluteDifferences_comm.
Qed.

Lemma distances_symmetric_witness :
  calculateEuclideanDistance (vectorOf [3; 4]%float) (vectorOf [0; 0]%float)
  = calculateEuclideanDistance (vectorOf [0; 0]%float) (vectorOf [3; 4]%float)
  ∧ calculateManhattanDistance (vectorOf [3; 4]%float)
      (vectorOf [0; 0]%float)
    = calculateManhattanDistance (vectorOf [0; 0]%float)
        (vectorOf [3; 4]%float).
Proof.
  apply (distances_symmetric (JNumber <$> [3; 4]%float)
           (JNumber <$> [0; 0]%float)).
  reflexivity.
Defined.

(** *** Distances: sign *)

Lemma notNegative_leb (r : float) :
  notNegative (Prim2SF r) →
  is_nan r = true ∨ (0 <=? r)%float = true.
Proof.
  unfold is_nan. rewrite FloatAxioms.leb_spec, FloatAxioms.eqb_spec.
  change (Prim2SF 0) with (S754_zero false).
  destruct (Prim2SF r) as [s|s| |s m e]; cbn; intros Hs; subst; auto.
Qed.

Lemma binary_round_aux_notNegative prec emax m e l :
  notNegative (binary_round_aux prec emax false m e l).
Proof.
  unfold binary_round_aux.
  destruct (shr_fexp prec emax m e l) as [mrs' e'].
  destruct (shr_fexp prec emax _ e' loc_Exact) as [mrs'' e''].
  destruct (shr_m mrs''); [done| |done]. by destruct (_ <=? _).
Qed.

Lemma SFsqrt_notNegative prec emax d : notNegative (SFsqrt prec emax d).
Proof.
  destruct d as [s|[|]| |[|] m e]; cbn [SFsqrt]; try done.
  destruct (SFsqrt_core_binary _ _ _ _) as [[mz ez] lz].
  apply binary_round_aux_notNegative.
Qed.

Lemma SFadd_notNegative prec emax x y :
  notNegative x → notNegative y → notNegative (SFadd prec emax x y).
Proof.
  destruct x as [sx|sx| |sx mx ex], y as [sy|sy| |sy my ey];
    cbn [notNegative SFadd]; intros; subst; try done;
    try (by repeat match goal with s : bool |- _ => destruct s end).
  cbn [cond_Zopp]. rewrite <- Pos2Z.inj_add. cbn [binary_normalize].
  unfold binary_round.
  destruct (shl_align (_ + _) _ _). apply binary_round_aux_notNegative.
Qed.

Lemma SFabs_notNegative d : notNegative (SFabs d).
Proof. by destruct d. Qed.

Lemma SFmul_self_notNegative prec emax d :
  notNegative (SFmul prec emax d d).
Proof.
  destruct d as [s|s| |s m e]; cbn [SFmul notNegative]; try done;
    try by destruct s.
  replace (xorb s s) with false by by destruct s.
  apply binary_round_aux_notNegative.
Qed.

Lemma squaredDifferences_notNegative i a b sum result :
  notNegative (Prim2SF sum) →
  squaredDifferences i a b sum = Ok result →
  notNegative (Prim2SF result).
Proof.
  revert i b sum. induction a as [|x a IH]; intros i [|y b] sum Hsum;
    cbn [squaredDifferences]; try (by intros [= <-]).
  destruct x, y; try done. cbv zeta. apply IH.
  rewrite add_spec, FloatAxioms.mul_spec.
  apply SFadd_notNegative; [done|]. apply SFmul_self_notNegative.
Qed.

Lemma absoluteDifferences_notNegative i a b sum result :
  notNegative (Prim2SF sum) →
  absoluteDifferences i a b sum = Ok result →
  notNegative (Prim2SF result).
Proof.
  revert i b sum. induction a as [|x a IH]; intros i [|y b] sum Hsum;
    cbn [absoluteDifferences]; try (by intros [= <-]).
  destruct x, y; try done. apply IH.
  rewrite add_spec, abs_spec.
  apply SFadd_notNegative; [done|]. apply SFabs_notNegative.
Qed.

(** X18. A distance that is returned is never negative: it is [NaN], which
    happens when a component is [NaN] or infinite components cancel, or it
    is at least 0. *)
Theorem distances_not_negative (a b : JSValue float) (d : float) :
  calculateEuclideanDistance a b = Ok d
  ∨ calculateManhattanDistance a b = Ok d →
  is_nan d = true ∨ (0 <=? d)%float = true.
Proof.
  intros Hd. apply notNegative_leb.
  unfold calculateEuclideanDistance, calculateManhattanDistance in Hd.
  destruct a as [| | | | |a|], b as [| | | | |b|];
    try (by destruct Hd as [Hd|Hd]).
  destruct (negb _); [by destruct Hd as [Hd|Hd]|].
  destruct Hd as [Hd|Hd].
  - destruct (squaredDifferences 0 a b 0%float) as [sum|message] eqn:Hsum;
      [|done].
    injection Hd as <-. rewrite sqrt_spec. apply SFsqrt_notNegative.
  - by apply (absoluteDifferences_notNegative 0 a b 0%float).
Qed.

Lemma distances_not_negative_witness :
  is_nan 5%float = true ∨ (0 <=? 5)%float = true.
Proof.
  apply (distances_not_negative (vectorOf [3; 4]%float)
           (vectorOf [0; 0]%float) 5%float).
  left. vm_compute. reflexivity.
Defined.

(** *** The three measures reject alike *)

(** X19. On two empty arrays the distances are 0, but the cosine similarity,
    and with it [calculateAllSimilarities], fails; [isMatch] by a distance
    then divides 0 by 0 and reports no match with a similarity of [NaN].
    [normalizeVector] rejects the empty array. *)
Theorem empty_vectors :
  calculateEuclideanDistance (JArray []) (JArray []) = Ok 0%float
  ∧ calculateManhattanDistance (JArray []) (JArray []) = Ok 0%float
  ∧ calculateCosineSimilarity (N := float) (JArray []) (JArray [])
    = Err "Vectors cannot be empty"
  ∧ calculateAllSimilarities (JArray []) (JArray [])
    = Err "Vectors cannot be empty"
  ∧ normalizeVector (JArray []) = Err "Vector cannot be empty"
  ∧ (∀ threshold metric,
       metric = "euclidean" ∨ metric = "manhattan" →
       isMatch (JArray []) (JArray []) (Some threshold) (Some metric)
       = Ok {| match_isMatch := false; match_similarity := nan;
               match_threshold := threshold; match_metric := metric |}).
Proof.
  split_and!; try reflexivity.
  assert (Hnan : ∀ t, (t <=? nan)%float = false).
  { intros t. rewrite FloatAxioms.leb_spec. by destruct (Prim2SF t). }
  intros threshold metric [->| ->]; vm_compute; by rewrite Hnan.
Qed.

(** *** [normalizeVector] *)

Lemma squaredMagnitude_numbers i items magnitude total :
  squaredMagnitude i items magnitude = Ok total →
  ∃ numbers,
    items = JNumber <$> numbers
    ∧ total = foldl (λ sum x, sum + x * x)%float magnitude numbers.
Proof.
  revert i magnitude. induction items as [|v items IH];
    intros i magnitude; cbn [squaredMagnitude].
  { intros [= <-]. by exists []. }
  destruct v; try done.
  intros (numbers & -> & ->)%IH. by exists (n :: numbers).
Qed.

(** X20. What [normalizeVector] returns has the length of its argument, and
    each component is the argument's component divided by the square root
    of the sum of the squares, which is not zero; the argument was a
    non-empty array of numbers. *)
Theorem normalizeVector_returns (vector : JSValue float) normalized :
  normalizeVector vector = Ok normalized →
  ∃ numbers,
    vector = vectorOf numbers ∧ numbers ≠ []
    ∧ (euclideanNorm numbers =? 0)%float = false
    ∧ normalized
      = (λ x, JNumber (x / euclideanNorm numbers)%float) <$> numbers
    ∧ length normalized = length numbers.
Proof.
  unfold normalizeVector. destruct vector as [| | | | |items|]; try done.
  destruct (length items =? 0)%nat eqn:Hlen; [done|].
  destruct (squaredMagnitude 0 items 0%float) as [total|message] eqn:Hsum;
    [|done].
  cbn [rbind].
  destruct (PrimFloat.sqrt total =? 0)%float eqn:Hzero; [done|].
  intros [= <-].
  destruct (squaredMagnitude_numbers _ _ _ _ Hsum) as (numbers & -> & ->).
  exists numbers. fold (euclideanNorm numbers) in *.
  split_and!; [done| |done| |].
  - intros ->. done.
  - rewrite <- list_fmap_compose. done.
  - by rewrite !length_fmap.
Qed.

Lemma normalizeVector_returns_witness :
  ∃ numbers,
    vectorOf [3; 4]%float = vectorOf numbers ∧ numbers ≠ []
    ∧ (euclideanNorm numbers =? 0)%float = false
    ∧ [JNumber (3 / 5)%float; JNumber (4 / 5)%float]
      = (λ x, JNumber (x / euclideanNorm numbers)%float) <$> numbers
    ∧ length [JNumber (3 / 5)%float; JNumber (4 / 5)%float] = length numbers.
Proof.
  apply (normalizeVector_returns (vectorOf [3; 4]%float)).
  vm_compute. reflexivity.
Defined.

Lemma squaredMagnitude_zero i (items : list (JSValue float)) :
  Forall (λ v, v = JNumber 0%float ∨ v = JNumber (-0)%float) items →
  squaredMagnitude i items 0%float = Ok 0%float.
Proof.
  revert i. induction items as [|v items IH]; intros i Hall; [done|].
  apply Forall_cons in Hall as [[->| ->] Hall]; cbn [squaredMagnitude];
    [change (0 + 0 * 0)%float with 0%float
    |change (0 + -0 * -0)%float with 0%float]; by apply IH.
Qed.

(** X21. A non-empty array whose components are all zero is rejected by
    [normalizeVector]. *)
Theorem normalizeVector_zero_vector (items : list (JSValue float)) :
  items ≠ [] →
  Forall (λ v, v = JNumber 0%float ∨ v = JNumber (-0)%float) items →
  normalizeVector (JArray items) = Err "Cannot normalize zero vector".
Proof.
  intros Hne Hzero. unfold normalizeVector.
  destruct items as [|v items]; [done|]. cbn [length Nat.eqb].
  by rewrite squaredMagnitude_zero.
Qed.

Lemma normalizeVector_zero_vector_witness :
  normalizeVector (JArray [JNumber 0%float; JNumber (-0)%float])
  = Err "Cannot normalize zero vector".
Proof.
  apply (normalizeVector_zero_vector [JNumber 0%float; JNumber (-0)%float]).
  - discriminate.
  - apply Forall_cons. split; [left; reflexivity|].
    apply Forall_cons. split; [right; reflexivity|]. apply Forall_nil_2.
Defined.

(** *** [isMatch] *)

Lemma float_leb_not_nan (x y : float) :
  (x <=? y)%float = true → is_nan x = false ∧ is_nan y = false.
Proof.
  unfold is_nan. rewrite FloatAxioms.leb_spec, !FloatAxioms.eqb_spec.
  destruct (Prim2SF x) as [sx|sx| |sx mx ex],
           (Prim2SF y) as [sy|sy| |sy my ey]; try done; cbn; intros _;
    rewrite ?Z.compare_refl, ?Pos.compare_refl;
    repeat match goal with s : bool |- _ => destruct s end; done.
Qed.

(** X22. [isMatch] rejects a metric that is none of the three names, compared
    without regard to case, before it looks at the vectors; and it never
    reports a match unless the similarity and the threshold are numbers
    other than [NaN] with the threshold at most the similarity. *)
Theorem isMatch_reports (vectorA vectorB : JSValue float) threshold metric :
  (toLowerCase metric ∉ ["cosine"; "euclidean"; "manhattan"] →
   isMatch vectorA vectorB threshold (Some metric)
   = Err ("Unsupported similarity metric: " +:+ metric))
  ∧ (∀ result,
       isMatch vectorA vectorB threshold (Some metric) = Ok result →
       toLowerCase metric ∈ ["cosine"; "euclidean"; "manhattan"]
       ∧ match_metric result = metric
       ∧ match_threshold result = default defaultThreshold threshold
       ∧ (match_isMatch result = true →
          is_nan (match_similarity result) = false
          ∧ is_nan (match_threshold result) = false
          ∧ (match_threshold result <=? match_similarity result)%float
            = true)).
Proof.
  unfold isMatch. cbv zeta.
  change (default "cosine" (Some metric)) with metric. split.
  - intros Hnot. rewrite !bool_decide_eq_false_2; [done|..];
      intros Heq; apply Hnot; rewrite Heq; set_solver.
  - intros result.
    assert (Hmetric : toLowerCase metric ∈ ["cosine"; "euclidean"; "manhattan"]
                      ∨ toLowerCase metric
                        ∉ ["cosine"; "euclidean"; "manhattan"]).
    { destruct (decide (toLowerCase metric
                        ∈ ["cosine"; "euclidean"; "manhattan"])); auto. }
    destruct Hmetric as [Hin|Hnot].
    2:{ rewrite !bool_decide_eq_false_2; [done|..];
          intros Heq; apply Hnot; rewrite Heq; set_solver. }
    match goal with
    | |- rbind ?m _ = _ → _ => destruct m as [similarity|message]; [|done]
    end.
    cbn [rbind]. intros [= <-]. cbn.
    split_and!; [done..|]. intros Hle.
    destruct (float_leb_not_nan _ _ Hle). by split_and!.
Qed.

(** *** The embedding model *)

(** The bytes 0 to 255, normalised. *)
Lemma normalised_bytes_in_range :
  forallb (λ v, let t := toFloat32 (floatOfZ v / 127.5 - 1)%float in
                (-1 <=? t)%float && (t <=? 1)%float)
    (seqZ 0 256) = true.
Proof. vm_compute. reflexivity. Qed.

(** X23. The tensor has one component for each byte of the image, between -1
    and 1: byte 0 becomes -1 and byte 255 becomes 1. *)
Theorem inputTensor_range imageData :
  Forall (λ v, 0 ≤ v ≤ 255) imageData →
  length (inputTensor imageData) = length imageData
  ∧ Forall (λ t, (-1 <=? t)%float = true ∧ (t <=? 1)%float = true)
      (inputTensor imageData)
  ∧ inputTensor [0; 255] = [(-1)%float; 1%float].
Proof.
  intros Hbytes. unfold inputTensor. split_and!.
  - by rewrite length_fmap.
  - apply Forall_fmap. eapply Forall_impl; [exact Hbytes|].
    intros v Hv. cbn.
    pose proof normalised_bytes_in_range as Hall.
    rewrite forallb_forall in Hall.
    specialize (Hall v). cbv zeta in Hall.
    apply andb_true_iff, Hall, list_elem_of_In, elem_of_seqZ.
    cbv beta in Hv. lia.
  - vm_compute. reflexivity.
Qed.

Lemma inputTensor_range_witness :
  length (inputTensor [0; 128; 255]) = length [0; 128; 255]
  ∧ Forall (λ t, (-1 <=? t)%float = true ∧ (t <=? 1)%float = true)
      (inputTensor [0; 128; 255])
  ∧ inputTensor [0; 255] = [(-1)%float; 1%float].
Proof.
  apply (inputTensor_range [0; 128; 255]).
  repeat constructor; lia.
Defined.

Lemma sum_of_squares_zero (output : list float) :
  Forall (λ x, x = 0%float ∨ x = (-0)%float) output →
  foldl (λ sum val, sum + val * val)%float 0%float output = 0%float.
Proof.
  induction 1 as [|x output [->| ->] _ IH]; [done|..]; cbn [foldl].
  - by change (0 + 0 * 0)%float with 0%float.
  - by change (0 + -0 * -0)%float with 0%float.
Qed.

(** X24. When every component of the model's output is zero, the
    normalisation divides by a norm of 0: the embedding that is returned
    consists of [NaN] only, and no error is raised. *)
Theorem generateEmbedding_zero_output run imageData output :
  Z.of_nat (length imageData) = 37632 →
  run (inputTensor imageData) = Ok output →
  Forall (λ x, x = 0%float ∨ x = (-0)%float) output →
  generateEmbedding (Some run) imageData
  = Ok (replicate (length output) nan).
Proof.
  intros Hlen Hrun Hzero. unfold generateEmbedding.
  rewrite Hlen.
  change (37632 =? 112 * 112 * 3) with true. cbn [negb].
  rewrite Hrun. cbn [rbind]. f_equal.
  unfold l2Normalize. rewrite sum_of_squares_zero by done.
  change (PrimFloat.sqrt 0) with 0%float.
  clear Hrun. induction Hzero as [|x output [->| ->] _ IH]; [done|..];
    cbn [fmap list_fmap length replicate].
  all: (f_equal; first [exact IH | vm_compute; reflexivity]).
Qed.

Lemma generateEmbedding_zero_output_witness :
  generateEmbedding (Some zeroSession) (replicate (Z.to_nat 37632) 0)
  = Ok (replicate (length [0; 0]%float) nan).
Proof.
  apply (generateEmbedding_zero_output zeroSession
           (replicate (Z.to_nat 37632) 0) [0; 0]%float).
  - rewrite length_replicate. lia.
  - reflexivity.
  - repeat constructor.
Defined.

(** *** The embedding service *)

Section EmbeddingServiceProperties.
Context `{Sharp}.
Variable calculateFaceScore : list Z → Z → Z → Region → Q.
Variable session : option Session.
Variable similarityThreshold : float.

(** How [createEmbedding] settles. *)
Lemma createEmbedding_stages imageBuffer :
  (session = None
   ∧ createEmbedding calculateFaceScore session imageBuffer
     = ([], Err "AI model not loaded. Please wait for initialization."))
  ∨ (∃ run, session = Some run
     ∧ calls (createEmbedding calculateFaceScore session imageBuffer)
       = calls (processFaceImage calculateFaceScore imageBuffer)
     ∧ ((∃ message,
           outcome (processFaceImage calculateFaceScore imageBuffer)
           = Err message
           ∧ outcome (createEmbedding calculateFaceScore session imageBuffer)
             = Err message)
        ∨ (∃ processedImageData,
             outcome (processFaceImage calculateFaceScore imageBuffer)
             = Ok processedImageData
             ∧ Z.of_nat (length processedImageData) = 37632
             ∧ outcome (createEmbedding calculateFaceScore session
                          imageBuffer)
               = match run (inputTensor processedImageData) with
                 | Err message => Err message
                 | Ok [] => Err "Failed to generate valid embedding"
                 | Ok output => Ok (l2Normalize output)
                 end))).
Proof.
  unfold createEmbedding. destruct session as [run|]; [right|by left].
  exists run. split; [done|].
  change (isModelLoaded (Some run)) with true.
  cbn [negb throwIf andThen resolve].
  destruct (processFaceImage calculateFaceScore imageBuffer)
    as [pcalls [processedImageData|message]] eqn:Hprocess;
    cbn [andThen calls outcome fst snd app].
  2:{ split; [done|]. left. by exists message. }
  assert (Hlen : Z.of_nat (length processedImageData) = 37632).
  { pose proof (processFaceImage_stages calculateFaceScore imageBuffer)
      as Hstages.
    rewrite Hprocess in Hstages. cbn [outcome snd] in Hstages.
    destruct Hstages as [(? & _ & [=] & _)
                        |(_ & [((? & [=]) & _)|(_ & _ & Hpre & _)])].
    symmetry in Hpre.
    by destruct (preprocessImage_returns _ _ Hpre). }
  unfold generateEmbedding, settled. rewrite Hlen.
  change (37632 =? 112 * 112 * 3) with true. cbn [negb].
  destruct (run (inputTensor processedImageData)) as [output|message]
    eqn:Hrun; cbn [rbind andThen app].
  2:{ rewrite app_nil_r. split; [done|]. right.
      exists processedImageData. rewrite Hrun. by split_and!. }
  destruct output as [|first rest].
  - cbn. rewrite !app_nil_r. split; [done|]. right.
    exists processedImageData. rewrite Hrun. by split_and!.
  - unfold l2Normalize at 1. cbn [fmap list_fmap length Nat.eqb throwIf].
    cbn [andThen resolve app]. rewrite !app_nil_r. split; [done|]. right.
    exists processedImageData. rewrite Hrun. by split_and!.
Qed.

(** X25. [createEmbedding] without a loaded model fails before any codec
    call.  With one, it makes the codec calls of the pipeline and no
    others, passes on a failure of the pipeline or of the model unchanged,
    and otherwise returns the normalised output of the model on the
    tensor of the preprocessed 37632 bytes, or fails when that output is
    empty.  The size check of [generateEmbedding] never fails on what the
    pipeline returns. *)
Theorem createEmbedding_settles imageBuffer :
  (session = None
   ∧ createEmbedding calculateFaceScore session imageBuffer
     = ([], Err "AI model not loaded. Please wait for initialization."))
  ∨ (∃ run, session = Some run
     ∧ calls (createEmbedding calculateFaceScore session imageBuffer)
       = calls (processFaceImage calculateFaceScore imageBuffer)
     ∧ ((∃ message,
           outcome (processFaceImage calculateFaceScore imageBuffer)
           = Err message
           ∧ outcome (createEmbedding calculateFaceScore session imageBuffer)
             = Err message)
        ∨ (∃ processedImageData,
             outcome (processFaceImage calculateFaceScore imageBuffer)
             = Ok processedImageData
             ∧ Z.of_nat (length processedImageData) = 37632
             ∧ outcome (createEmbedding calculateFaceScore session
                          imageBuffer)
               = match run (inputTensor processedImageData) with
                 | Err message => Err message
                 | Ok [] => Err "Failed to generate valid embedding"
                 | Ok output => Ok (l2Normalize output)
                 end))).
Proof. exact (createEmbedding_stages imageBuffer). Qed.

Lemma compareEmbeddings_stages imageBuffer stored :
  stored ≠ [] →
  compareEmbeddings calculateFaceScore session similarityThreshold
    imageBuffer (JArray stored)
  = (calls (createEmbedding calculateFaceScore session imageBuffer),
     rbind (outcome (createEmbedding calculateFaceScore session imageBuffer))
       (comparisonOf similarityThreshold stored)).
Proof.
  intros Hstored. unfold compareEmbeddings, comparisonOf, settled.
  destruct stored as [|first rest]; [done|].
  cbn [andThen resolve app].
  destruct (createEmbedding calculateFaceScore session imageBuffer)
    as [ccalls [newEmbedding|message]];
    cbn [andThen calls outcome fst snd rbind]; [|done].
  destruct (negb _); cbn [throwIf andThen reject resolve app];
    [by rewrite app_nil_r|].
  destruct (calculateCosineSimilarity _ _);
    cbn [andThen rbind resolve app]; by rewrite !app_nil_r.
Qed.

(** X26. [compareEmbeddings] rejects a stored embedding that is not a
    non-empty array before any codec call.  When it returns, the new
    embedding has the length of the stored one, the reported similarity is
    their cosine similarity rounded to four decimals, and a match is
    reported exactly when the threshold is at most the unrounded
    similarity, which is then not [NaN]. *)
Theorem compareEmbeddings_settles imageBuffer storedEmbeddingArray :
  ((∀ stored, storedEmbeddingArray = JArray stored → stored = []) →
   compareEmbeddings calculateFaceScore session similarityThreshold
     imageBuffer storedEmbeddingArray
   = ([], Err "Invalid stored embedding format. Expected non-empty array."))
  ∧ (∀ comparison,
       outcome (compareEmbeddings calculateFaceScore session
                  similarityThreshold imageBuffer storedEmbeddingArray)
       = Ok comparison →
       ∃ stored newEmbedding similarity,
         storedEmbeddingArray = JArray stored ∧ stored ≠ []
         ∧ outcome (createEmbedding calculateFaceScore session imageBuffer)
           = Ok newEmbedding
         ∧ length newEmbedding = length stored
         ∧ calculateCosineSimilarity (JArray stored) (vectorOf newEmbedding)
           = Ok similarity
         ∧ comparison
           = {| cmp_success := true;
                cmp_isMatch := (similarityThreshold <=? similarity)%float;
                cmp_similarity := roundToFour similarity;
                cmp_threshold := similarityThreshold |}
         ∧ (cmp_isMatch comparison = true → is_nan similarity = false)).
Proof.
  split.
  - intros Hnot. unfold compareEmbeddings.
    destruct storedEmbeddingArray as [| | | | |[|first rest]|]; try done.
    by specialize (Hnot _ eq_refl).
  - intros comparison.
    destruct storedEmbeddingArray as [| | | | |stored|]; try done.
    destruct (decide (stored = [])) as [->|Hstored]; [done|].
    rewrite (compareEmbeddings_stages _ _ Hstored).
    unfold outcome at 1. cbn [snd].
    destruct (outcome (createEmbedding calculateFaceScore session
                         imageBuffer))
      as [newEmbedding|message] eqn:Hnew; cbn [rbind]; [|done].
    unfold comparisonOf.
    destruct (length newEmbedding =? length stored)%nat eqn:Hlen;
      cbn [negb]; [|done].
    destruct (calculateCosineSimilarity _ _) as [similarity|message] eqn:Hcos;
      [|done].
    cbn [rbind]. intros [= <-].
    exists stored, newEmbedding, similarity. apply Nat.eqb_eq in Hlen.
    split_and!; try done.
    cbn [cmp_isMatch]. by intros (_ & ?)%float_leb_not_nan.
Qed.

(** X27. A stored embedding that [parseStoredEmbedding] accepted is never
    turned away by [compareEmbeddings] before the pipeline runs: the codec
    calls are those of [createEmbedding], whose failure is passed on
    unchanged, and an embedding of another length than the stored one is
    answered with the dimension mismatch. *)
Theorem compareEmbeddings_after_parse input stored imageBuffer :
  parseStoredEmbedding input = Ok stored →
  let compared :=
    compareEmbeddings calculateFaceScore session similarityThreshold
      imageBuffer (JArray stored) in
  let created := createEmbedding calculateFaceScore session imageBuffer in
  (64 ≤ length stored ≤ 2048)%nat
  ∧ calls compared = calls created
  ∧ (∀ message, outcome created = Err message →
                outcome compared = Err message)
  ∧ (∀ newEmbedding, outcome created = Ok newEmbedding →
       length newEmbedding ≠ length stored →
       outcome compared
       = Err ("Embedding dimension mismatch. New: "
              +:+ showZ (Z.of_nat (length newEmbedding)) +:+ ", Stored: "
              +:+ showZ (Z.of_nat (length stored)))).
Proof.
  intros Hparse. cbv zeta.
  assert (Hlen : (64 ≤ length stored ≤ 2048)%nat).
  { pose proof (parseStoredEmbedding_cases input) as Hcases.
    destruct (parsedSequence input) as [items|].
    2:{ destruct Hcases as [message Herr]. congruence. }
    rewrite Hcases, parseStoredEmbedding_array in Hparse.
    destruct (0 <? _)%nat; [done|].
    destruct ((length items <? 64)%nat || (2048 <? length items)%nat)
      eqn:Hsize; [done|].
    injection Hparse as <-.
    apply orb_false_iff in Hsize as [?%Nat.ltb_ge ?%Nat.ltb_ge]. lia. }
  split; [done|].
  assert (Hstored : stored ≠ []).
  { intros ->. cbn in Hlen. lia. }
  rewrite (compareEmbeddings_stages _ _ Hstored).
  split_and!; [done| |].
  - intros message Hcreated. unfold outcome at 1. cbn [snd].
    by rewrite Hcreated.
  - intros newEmbedding Hcreated Hne. unfold outcome at 1. cbn [snd].
    rewrite Hcreated. cbn [rbind]. unfold comparisonOf.
    by rewrite (proj2 (Nat.eqb_neq _ _) Hne).
Qed.
End EmbeddingServiceProperties.

Lemma faceCodec_compares :
  @compareEmbeddings faceCodec constantScore (Some planarSession)
    defaultThreshold faceFile (vectorOf [4; 3]%float)
  = (completeRun,
     Ok {| cmp_success := true; cmp_isMatch := true;
           cmp_similarity := 0x1.eb851eb851eb8p-1%float;
           cmp_threshold := defaultThreshold |}).
Proof.
  unfold compareEmbeddings, createEmbedding. cbn [vectorOf fmap list_fmap].
  rewrite faceCodec_runs. vm_compute. reflexivity.
Qed.

Lemma compareEmbeddings_after_parse_witness :
  (64 ≤ length storedOnes ≤ 2048)%nat
  ∧ calls (@compareEmbeddings faceCodec constantScore (Some planarSession)
             defaultThreshold faceFile (JArray storedOnes))
    = calls (@createEmbedding faceCodec constantScore (Some planarSession)
               faceFile)
  ∧ (∀ message,
       outcome (@createEmbedding faceCodec constantScore
                  (Some planarSession) faceFile) = Err message →
       outcome (@compareEmbeddings faceCodec constantScore
                  (Some planarSession) defaultThreshold faceFile
                  (JArray storedOnes)) = Err message)
  ∧ (∀ newEmbedding,
       outcome (@createEmbedding faceCodec constantScore
                  (Some planarSession) faceFile) = Ok newEmbedding →
       length newEmbedding ≠ length storedOnes →
       outcome (@compareEmbeddings faceCodec constantScore
                  (Some planarSession) defaultThreshold faceFile
                  (JArray storedOnes))
       = Err ("Embedding dimension mismatch. New: "
              +:+ showZ (Z.of_nat (length newEmbedding)) +:+ ", Stored: "
              +:+ showZ (Z.of_nat (length storedOnes)))).
Proof.
  apply (@compareEmbeddings_after_parse faceCodec constantScore
           (Some planarSession) defaultThreshold (JArray storedOnes)
           storedOnes faceFile).
  vm_compute. reflexivity.
Defined.

Lemma float_leb_not_ltb (x y : float) :
  (x <=? y)%float = true → (y <? x)%float = false.
Proof.
  rewrite FloatAxioms.ltb_spec, FloatAxioms.leb_spec. unfold SFltb, SFleb.
  rewrite (SFcompare_antisym (Prim2SF x) (Prim2SF y)).
  destruct (SFcompare (Prim2SF x) (Prim2SF y)) as [[| |]|]; done.
Qed.

Lemma float_ltb_nan (x y : float) :
  is_nan x = true ∨ is_nan y = true → (x <? y)%float = false.
Proof.
  unfold is_nan. rewrite FloatAxioms.ltb_spec, !FloatAxioms.eqb_spec.
  destruct (Prim2SF x) as [sx|sx| |sx mx ex],
           (Prim2SF y) as [sy|sy| |sy my ey]; try done; cbn;
    rewrite ?Z.compare_refl, ?Pos.compare_cont_refl;
    repeat match goal with s : bool |- _ => destruct s end;
    cbn; intros [?|?]; done.
Qed.

(** X28. [setSimilarityThreshold] accepts exactly the numbers that are
    neither below 0 nor above 1: those between 0 and 1, and [NaN]. *)
Theorem setSimilarityThreshold_accepts (threshold : JSValue float) t :
  setSimilarityThreshold threshold = Ok t
  ↔ threshold = JNumber t
    ∧ (is_nan t = true
       ∨ (0 <=? t)%float = true ∧ (t <=? 1)%float = true).
Proof.
  unfold setSimilarityThreshold. split.
  - destruct threshold as [| | |n| | |]; try done.
    destruct (_ || _) eqn:Hout; [done|]. intros [= ->].
    split; [done|].
    apply orb_false_iff in Hout as [Hlow Hhigh].
    destruct (is_nan t) eqn:Hnan; [by left|right].
    split; by apply float_not_ltb_leb.
  - intros [-> [Hnan|[Hlow Hhigh]]].
    + by rewrite !float_ltb_nan by auto.
    + by rewrite !float_leb_not_ltb.
Qed.

(** *** The HTTP status of failures *)

Lemma prefix_app_cases needle text rest :
  String.prefix needle (text +:+ rest) = true →
  String.prefix needle text = true
  ∨ String.prefix text needle = true.
Proof.
  revert text. induction needle as [|c needle IH]; intros text.
  { left. by destruct text. }
  destruct text as [|c' text]; [by right|].
  change (String c' text +:+ rest) with (String c' (text +:+ rest)). cbn.
  destruct (ascii_dec c c') as [->|]; [|done].
  destruct (ascii_dec c' c'); [|done]. apply IH.
Qed.

Lemma includes_app text rest needle :
  includes text needle = false → endsInto text needle = false →
  includes rest needle = false →
  includes (text +:+ rest) needle = false.
Proof.
  intros Htext Hends Hrest. induction text as [|c text IH]; [done|].
  cbn [includes endsInto] in Htext, Hends.
  apply orb_false_iff in Htext as [Hpre Htext].
  apply orb_false_iff in Hends as [Hinto Hends].
  change (String c text +:+ rest) with (String c (text +:+ rest)).
  cbn [includes]. rewrite (IH Htext Hends), orb_false_r.
  apply not_true_iff_false. intros Hprefix.
  change (String c (text +:+ rest)) with (String c text +:+ rest) in Hprefix.
  apply prefix_app_cases in Hprefix as [?|?]; congruence.
Qed.

(** A text without the first character of the needle. *)
Lemma includes_without text c needle :
  Forall (λ c', c' ≠ c) (list_ascii_of_string text) →
  includes text (String c needle) = false
  ∧ endsInto text (String c needle) = false.
Proof.
  induction text as [|c' text IH]; cbn [list_ascii_of_string].
  { intros _. done. }
  intros [Hc Hall]%Forall_cons. destruct (IH Hall) as [Hinc Hend].
  cbn [includes endsInto String.prefix]. rewrite Hinc, Hend.
  destruct (ascii_dec c c'); [congruence|].
  destruct (ascii_dec c' c); [congruence|]. done.
Qed.

Lemma pretty_N_go_chars x s :
  Forall digitOrDash (list_ascii_of_string s) →
  Forall digitOrDash (list_ascii_of_string (pretty_N_go x s)).
Proof.
  revert s. induction (N.lt_wf_0 x) as [x _ IH]; intros s Hs.
  assert (x = 0 ∨ 0 < x)%N as [->|Hpos] by lia.
  - by rewrite pretty_N_go_0.
  - rewrite pretty_N_go_step by done. apply IH.
    { by apply N.div_lt. }
    cbn [list_ascii_of_string]. constructor; [|done]. left.
    unfold pretty_N_char. by repeat case_match.
Qed.

Lemma showZ_chars n : Forall digitOrDash (list_ascii_of_string (showZ n)).
Proof.
  assert (HN : ∀ x : N, Forall digitOrDash
                          (list_ascii_of_string (pretty x))).
  { intros x. unfold pretty, pretty_N. case_decide.
    - repeat constructor.
    - apply pretty_N_go_chars. constructor. }
  unfold showZ, pretty, pretty_Z. destruct n as [|p|p].
  - repeat constructor.
  - apply HN.
  - change (list_ascii_of_string ("-" +:+ pretty p))
      with ("-"%char :: list_ascii_of_string (pretty (N.pos p))).
    constructor; [right; reflexivity|]. apply HN.
Qed.

Lemma includes_showZ n rest c needle :
  isDigit c = false → c ≠ "-"%char →
  includes rest (String c needle) = false →
  includes (showZ n +:+ rest) (String c needle) = false.
Proof.
  intros Hdigit Hdash Hrest.
  destruct (includes_without (showZ n) c needle) as [Hinc Hend].
  { eapply Forall_impl; [apply showZ_chars|].
    intros c' [Hc'|Hc'] Heq; subst; congruence. }
  by apply includes_app.
Qed.

Lemma includes_fixed text rest needle :
  includes text needle || endsInto text needle = false →
  includes rest needle = false →
  includes (text +:+ rest) needle = false.
Proof.
  intros [??]%orb_false_iff ?. by apply includes_app.
Qed.

(** The message of a resolution check does not contain any of the phrases
    the routes look for. *)
Lemma resolution_message_plain prefix suffix w h needle :
  needle ∈ ["No face detected"; "Image too"; "Invalid";
            "dimension mismatch"] →
  (∀ needle', needle' ∈ ["No face detected"; "Image too"; "Invalid";
                         "dimension mismatch"] →
     includes prefix needle' || endsInto prefix needle' = false
     ∧ includes suffix needle' = false) →
  includes (prefix +:+ showZ w +:+ "x" +:+ showZ h +:+ suffix) needle
  = false.
Proof.
  intros Hneedle Hfixed. destruct (Hfixed _ Hneedle) as [Hpre Hsuf].
  apply includes_fixed; [done|].
  assert (∃ c n, needle = String c n ∧ isDigit c = false ∧ c ≠ "-"%char
                 ∧ c ≠ "x"%char)
    as (c & n & -> & Hdigit & Hdash & Hx).
  { rewrite !elem_of_cons, elem_of_nil in Hneedle.
    destruct_or! Hneedle; try done; subst; eexists _, _;
      (split_and!; [reflexivity|reflexivity|done|done]). }
  apply includes_showZ; [done..|].
  change ("x" +:+ showZ h +:+ suffix) with (String "x" (showZ h +:+ suffix)).
  cbn [includes String.prefix].
  destruct (ascii_dec c "x"); [done|]. cbn [orb].
  by apply includes_showZ.
Qed.

Lemma append_assoc (a b c : string) : (a +:+ b) +:+ c = a +:+ (b +:+ c).
Proof.
  induction a as [|x a IH]; [done|].
  change (String x ((a +:+ b) +:+ c) = String x (a +:+ (b +:+ c))).
  by rewrite IH.
Qed.

Lemma resolution_statuses prefix suffix w h :
  (∀ needle, needle ∈ ["No face detected"; "Image too"; "Invalid";
                       "dimension mismatch"] →
     includes prefix needle || endsInto prefix needle = false
     ∧ includes suffix needle = false) →
  encodeFailureStatus (prefix +:+ showZ w +:+ "x" +:+ showZ h +:+ suffix)
  = 500
  ∧ compareFailureStatus (prefix +:+ showZ w +:+ "x" +:+ showZ h +:+ suffix)
    = 500.
Proof.
  intros Hfixed. unfold encodeFailureStatus, compareFailureStatus.
  rewrite !resolution_message_plain; [done|..]; try done; set_solver.
Qed.

Lemma count_statuses prefix suffix n :
  (∀ needle, needle ∈ ["No face detected"; "Image too"; "Invalid";
                       "dimension mismatch"] →
     includes prefix needle || endsInto prefix needle = false
     ∧ includes suffix needle = false) →
  encodeFailureStatus (prefix +:+ showZ n +:+ suffix) = 500
  ∧ compareFailureStatus (prefix +:+ showZ n +:+ suffix) = 500.
Proof.
  intros Hfixed.
  assert (Hplain : ∀ needle,
            needle ∈ ["No face detected"; "Image too"; "Invalid";
                      "dimension mismatch"] →
            includes (prefix +:+ showZ n +:+ suffix) needle = false).
  { intros needle Hneedle. destruct (Hfixed _ Hneedle) as [Hpre Hsuf].
    apply includes_fixed; [done|].
    rewrite !elem_of_cons, elem_of_nil in Hneedle.
    destruct_or! Hneedle; try done; subst; by apply includes_showZ. }
  unfold encodeFailureStatus, compareFailureStatus.
  rewrite !Hplain; [done|..]; set_solver.
Qed.

Section FailureStatus.
Context `{Sharp}.
Variable calculateFaceScore : list Z → Z → Z → Region → Q.

Lemma qualityChecks_resolution metadata byteLength format w h :
  meta_format metadata = Some format →
  toLowerCase format ∈ supportedFormats →
  meta_width metadata = Some w → meta_height metadata = Some h →
  Z.min w h < 150 ∨ Z.max w h < 200 ∨ 4000 < w ∨ 4000 < h →
  ∃ reason suffix,
    qualityChecks metadata byteLength
    = ([], Err (reason +:+ showZ w +:+ "x" +:+ showZ h +:+ suffix))
    ∧ (reason, suffix)
      ∈ [("Image resolution too low: ",
          ". Minimum required: smaller dimension ≥150px and larger dimension ≥200px for accurate face detection.");
         ("Image resolution too high: ",
          ". Maximum recommended: 4000x4000 pixels. Please resize your image.")].
Proof.
  intros Hformat Hsupported Hw Hh Hres.
  unfold qualityChecks, showDimensions. cbv zeta. rewrite Hformat, Hw, Hh.
  cbn [andThen resolve reject].
  rewrite (bool_decide_eq_true_2 _ Hsupported).
  cbn [negb throwIf andThen resolve reject dimMin dimMax mbind option_bind
       dimBelow dimAbove showOptZ].
  destruct ((Z.min w h <? 150) || (Z.max w h <? 200)) eqn:Hlow;
    cbn [throwIf andThen resolve reject].
  { eexists _, _. split; [|left; reflexivity].
    by rewrite !append_assoc. }
  apply orb_false_iff in Hlow as [?%Z.ltb_ge ?%Z.ltb_ge].
  assert (Hhigh : (4000 <? w) || (4000 <? h) = true).
  { apply orb_true_iff. rewrite !Z.ltb_lt. lia. }
  rewrite Hhigh. cbn [throwIf andThen resolve reject].
  eexists _, _. split; [|right; left; reflexivity].
  by rewrite !append_assoc.
Qed.

(** X29. An image in a supported format whose resolution the quality gate
    rejects, too low or too high, makes [createEmbedding] fail with a
    message that contains none of the phrases the routes answer with 400:
    both [POST /encode] and [POST /compare] answer with status 500. *)
Theorem resolution_rejection_status run imageBuffer metadata format w h :
  sharpMetadata imageBuffer = Ok metadata →
  meta_format metadata = Some format →
  toLowerCase format ∈ supportedFormats →
  meta_width metadata = Some w → meta_height metadata = Some h →
  Z.min w h < 150 ∨ Z.max w h < 200 ∨ 4000 < w ∨ 4000 < h →
  ∃ message,
    outcome (createEmbedding calculateFaceScore (Some run) imageBuffer)
    = Err message
    ∧ calls (createEmbedding calculateFaceScore (Some run) imageBuffer)
      = [CallMetadata]
    ∧ encodeFailureStatus message = 500
    ∧ compareFailureStatus message = 500.
Proof.
  intros Hmeta Hformat Hsupported Hw Hh Hres.
  destruct (qualityChecks_resolution metadata
              (Z.of_nat (length imageBuffer)) format w h)
    as (reason & suffix & Hq & Hcase); [done..|].
  assert (Hprocess :
    processFaceImage calculateFaceScore imageBuffer
    = ([CallMetadata],
       Err (("Image quality validation failed: " +:+ reason)
            +:+ showZ w +:+ "x" +:+ showZ h +:+ suffix))).
  { unfold processFaceImage, validateImageQuality, await.
    rewrite Hmeta. cbn [andThen]. rewrite Hq.
    cbn [tryCatch andThen app]. by rewrite append_assoc. }
  eexists.
  unfold createEmbedding.
  change (isModelLoaded (Some run)) with true.
  cbn [negb throwIf andThen resolve]. rewrite Hprocess.
  cbn [andThen outcome calls fst snd app].
  split; [reflexivity|]. split; [reflexivity|].
  apply resolution_statuses. intros needle Hneedle.
  rewrite !elem_of_cons, elem_of_nil in Hcase.
  rewrite !elem_of_cons, elem_of_nil in Hneedle.
  destruct_or! Hcase; try done; injection Hcase as -> ->;
    destruct_or! Hneedle; try done; subst needle;
    (split; vm_compute; reflexivity).
Qed.

(** X30. Once the edge image has been obtained, face finding fails in one of
    two ways.  Without any region the message contains "No face detected",
    and the routes answer the failure of face detection with status 400;
    with [count > 1] regions the message names the count and contains none
    of the phrases, and they answer with status 500. *)
Theorem face_count_status imageBuffer edgeBuffer message :
  sharpEdges imageBuffer 400 400 = Ok edgeBuffer →
  outcome (detectFacesInImage calculateFaceScore imageBuffer)
  = Err message →
  let wrapped := "Face detection failed: " +:+ message in
  (message = noFaceMessage
   ∧ encodeFailureStatus wrapped = 400 ∧ compareFailureStatus wrapped = 400)
  ∨ (∃ count, (1 < count)%nat
       ∧ message = multipleFacesMessage count
       ∧ encodeFailureStatus wrapped = 500
       ∧ compareFailureStatus wrapped = 500).
Proof.
  intros Hedges. unfold detectFacesInImage, await. rewrite Hedges.
  cbn [andThen]. change (length edgeThresholds) with 3%nat.
  destruct (detectionPasses _ _ _ _ _).1 as [|region [|second rest]];
    cbn [length maxFaces Nat.ltb Nat.leb reject resolve tryCatch outcome snd
         app]; [| done |].
  - rewrite noFaceMessage_face. intros [= <-]. left.
    split; [done|]. split; vm_compute; reflexivity.
  - rewrite multipleFacesMessage_face. intros [= <-]. right.
    exists (S (S (length rest))). split; [lia|]. split; [done|].
    cbv zeta. unfold multipleFacesMessage. rewrite <- append_assoc.
    apply count_statuses. intros needle Hneedle.
    rewrite !elem_of_cons, elem_of_nil in Hneedle.
    destruct_or! Hneedle; try done; subst needle;
      (split; vm_compute; reflexivity).
Qed.
End FailureStatus.

Lemma resolution_rejection_status_witness :
  ∃ message,
    outcome (@createEmbedding narrowCodec constantScore
               (Some planarSession) []) = Err message
    ∧ calls (@createEmbedding narrowCodec constantScore
               (Some planarSession) []) = [CallMetadata]
    ∧ encodeFailureStatus message = 500
    ∧ compareFailureStatus message = 500.
Proof.
  apply (@resolution_rejection_status narrowCodec constantScore
           planarSession [] (mkMetadata (Some 120) (Some 300) (Some "png"))
           "png" 120 300).
  - reflexivity.
  - reflexivity.
  - vm_compute. set_solver.
  - reflexivity.
  - reflexivity.
  - lia.
Defined.

Lemma face_count_status_witness :
  (noFaceMessage = noFaceMessage
   ∧ encodeFailureStatus ("Face detection failed: " +:+ noFaceMessage) = 400
   ∧ compareFailureStatus ("Face detection failed: " +:+ noFaceMessage)
     = 400)
  ∨ (∃ count, (1 < count)%nat
       ∧ noFaceMessage = multipleFacesMessage count
       ∧ encodeFailureStatus ("Face detection failed: " +:+ noFaceMessage)
         = 500
       ∧ compareFailureStatus ("Face detection failed: " +:+ noFaceMessage)
         = 500).
Proof.
  apply (@face_count_status blankCodec constantScore faceFile
           (replicate (Z.to_nat 160000) 0) noFaceMessage).
  - reflexivity.
  - rewrite (proj2 (@blank_edge_image blankCodec constantScore faceFile
                      (replicate (Z.to_nat 160000) 0) eq_refl
                      ltac:(rewrite length_replicate; lia)
                      ltac:(apply Forall_replicate; lia))).
    reflexivity.
Defined.
